(** * Orb: a shallow embedding of the anchor life cycle and its stores

  This development embeds, function by function, the parts of the Orb
  federated anchoring node that its specification makes claims about:

  - the paging arithmetic of the ActivityPub REST handlers
    ([getFirstPageNum], [getLastPageNum], [getPrevNextAscending],
    [getPrevNextDescending], [getCurrentPrevNext], [getIDPrevNextURL]);
  - the round-robin balancer of the AMQP publisher pool
    ([newRoundRobin], [nextIndex], [newPublisherPool]);
  - the DID/anchor index ([PutBulk], [GetBulk], [Get]);
  - the unpublished operation store ([Get]);
  - the observer ([handleAnchor], [processAnchor], [postLikeActivity],
    [doPostLikeActivity], [resolveActorFromHashlink]);
  - the IPFS CAS client ([Write], [WriteWithCIDFormat], [Read], [get],
    [getCID], [getCIDFromHash], [getOptions]);
  - the walk over the anchor graph ([getUnprocessedParentAnchors]);

  and, beyond those, the code around them:

  - the life cycle of a service ([New], [Start], [Stop], [State]);
  - the page identifiers of the REST handlers ([getPageID]);
  - the creation of the publishers of the pool ([createPublishers]);
  - the deletion of unpublished operations ([DeleteAll]);
  - the processing of out-of-system DIDs ([processDID], [getDidParts]);
  - the ActivityPub client ([Client.get]) and its iterators
    ([referenceIterator], [activityIterator] with [Next], [NextPage],
    [getNextPage], [SetNextIndex]).

  Go's [int] is a 64-bit two's complement integer and [int32] a 32-bit one;
  both are modelled as [Z] with the wrap-around written out.  Go errors are
  modelled as a tree of wrappers; [errors.Is] and the transient tag walk the
  chain of [%w] wrappers exactly as the Go runtime does. *)

From Stdlib Require Import ZArith Lia Bool Ascii String.
From stdpp Require Import base option list strings pretty gmap.

Local Open Scope Z_scope.

(** ** Machine integers *)

Module GoInt.

Definition wrap (w : Z) (x : Z) : Z :=
  (x + 2 ^ (w - 1)) mod 2 ^ w - 2 ^ (w - 1).

Definition wrap64 : Z -> Z := wrap 64.
Definition wrap32 : Z -> Z := wrap 32.

Definition MaxInt64 : Z := 2 ^ 63 - 1.
Definition MinInt64 : Z := - 2 ^ 63.
Definition MaxInt32 : Z := 2 ^ 31 - 1.
Definition MinInt32 : Z := - 2 ^ 31.

Definition is_int (x : Z) : Prop := MinInt64 <= x <= MaxInt64.
Definition is_int32 (x : Z) : Prop := MinInt32 <= x <= MaxInt32.

(** [a + b], [a - b] on [int]. *)
Definition add (a b : Z) : Z := wrap64 (a + b).
Definition sub (a b : Z) : Z := wrap64 (a - b).

(** [a / b] and [a % b] on [int]: truncated division; a zero divisor is a
    run-time panic, rendered as [None]. *)
Definition quo (a b : Z) : option Z :=
  if decide (b = 0) then None else Some (wrap64 (Z.quot a b)).
Definition rem (a b : Z) : option Z :=
  if decide (b = 0) then None else Some (Z.rem a b).

(** [atomic.AddInt32]-style addition on [int32]. *)
Definition add32 (a b : Z) : Z := wrap32 (a + b).

End GoInt.

(** ** Paging of ordered collections (package resthandler) *)

Module Paging.

Import GoInt.

(** [spi.SortOrder]: the two sort orders of a paged query. *)
Inductive SortOrder := SortAscending | SortDescending.

#[global] Instance SortOrder_eq_dec : EqDecision SortOrder.
Proof. solve_decision. Defined.

(** [spi.QueryOptions], the fields the handlers read. *)
Record QueryOptions := {
  PageNumber : Z;
  PageSize : Z;
  Order : SortOrder
}.

Definition getFirstPageNum (totalItems pageSize : Z) (sortOrder : SortOrder)
  : option Z :=
  if decide (sortOrder = SortAscending) then Some 0
  else
    r ← rem totalItems pageSize;
    if decide (r > 0) then quo totalItems pageSize
    else q ← quo totalItems pageSize; Some (sub q 1).

Definition getLastPageNum (totalItems pageSize : Z) (sortOrder : SortOrder)
  : option Z :=
  if decide (sortOrder = SortDescending) then Some 0
  else
    r ← rem totalItems pageSize;
    if decide (r > 0) then quo totalItems pageSize
    else q ← quo totalItems pageSize; Some (sub q 1).

Definition getPrevNextAscending (current first last : Z) : Z * Z :=
  let prev := -1 in
  let next := -1 in
  let next := if decide (current < last) then add current 1 else next in
  let prev :=
    if decide (current > first) then
      if decide (current > last) then last else sub current 1
    else prev in
  (prev, next).

Definition getPrevNextDescending (current first last : Z) : Z * Z :=
  let prev := -1 in
  let next := -1 in
  let next :=
    if decide (current > last) then
      if decide (current > first) then first else sub current 1
    else next in
  let prev := if decide (current < first) then add current 1 else prev in
  (prev, next).

(** [handler.getCurrentPrevNext]: the triple (current, prev, next). *)
Definition getCurrentPrevNext (totalItems : Z) (options : QueryOptions)
  : option (Z * Z * Z) :=
  first ← getFirstPageNum totalItems (PageSize options) (Order options);
  last ← getLastPageNum totalItems (PageSize options) (Order options);
  let current :=
    if decide (PageNumber options >= 0) then PageNumber options else first in
  let '(prev, next) :=
    if decide (Order options = SortDescending)
    then getPrevNextDescending current first last
    else getPrevNextAscending current first last in
  Some (current, prev, next).

(** [handler.getIDPrevNextURL].  A page URL is determined by the object IRI
    and the page number, so a link is represented by the page number it
    carries; a [nil] URL is [None]. *)
Definition getIDPrevNextURL (totalItems : Z) (options : QueryOptions)
  : option (Z * option Z * option Z) :=
  '(current, prev, next) ← getCurrentPrevNext totalItems options;
  let prevURL := if decide (prev >= 0) then Some prev else None in
  let nextURL := if decide (next >= 0) then Some next else None in
  Some (current, prevURL, nextURL).

(** The ceiling of [n / p] for positive [p]. *)
Definition ceil_div (n p : Z) : Z := (n + p - 1) / p.

(** An [OrderedCollectionPage] as the handlers marshal it: the page's own
    number, the optional [prev] and [next] links, [totalItems] and the
    [orderedItems]. *)
Record OrderedCollectionPage (A : Type) := {
  ID : Z;
  Prev : option Z;
  Next : option Z;
  TotalItems : Z;
  OrderedItems : list A
}.
Arguments ID {A} _.
Arguments Prev {A} _.
Arguments Next {A} _.
Arguments TotalItems {A} _.
Arguments OrderedItems {A} _.

(** Modelled from the spec: the activity store's paged query (the store and
    its iterators are not among the sources).  A collection is the list of
    its items in insertion order.  In ascending order page [k] holds the
    items from offset [k * pageSize]; in descending order the pages are
    numbered downwards from the first page [ceil (N / pageSize) - 1], which
    holds the newest items, and a page number beyond it holds nothing.  A
    negative page number stands for a missing or invalid [page-num] and means
    the first page. *)
Definition queryPage {A} (items : list A) (options : QueryOptions) : list A :=
  let n := Z.of_nat (length items) in
  let p := PageSize options in
  match Order options with
  | SortAscending =>
      let cur := if decide (PageNumber options >= 0) then PageNumber options else 0 in
      take (Z.to_nat p) (drop (Z.to_nat (cur * p)) items)
  | SortDescending =>
      let first := ceil_div n p - 1 in
      let cur := if decide (PageNumber options >= 0) then PageNumber options else first in
      if decide (cur > first) then []
      else take (Z.to_nat p) (drop (Z.to_nat ((first - cur) * p)) (reverse items))
  end.

(** Modelled from the spec: the page handler ([getPage] of the collection
    handlers is not among the sources).  It queries the store for the page
    and assembles the response from [getIDPrevNextURL] and the iterator's
    total. *)
Definition getPage {A} (items : list A) (options : QueryOptions)
  : option (OrderedCollectionPage A) :=
  let totalItems := Z.of_nat (length items) in
  '(id, prev, next) ← getIDPrevNextURL totalItems options;
  Some {| ID := id; Prev := prev; Next := next;
          TotalItems := totalItems;
          OrderedItems := queryPage items options |}.

End Paging.

(** ** The round-robin balancer of the publisher pool (package amqp) *)

Module amqp.

Import GoInt.

(** [type roundRobin struct { max int; current int32 }] *)
Record roundRobin := {
  max : Z;
  current : Z
}.

Definition newRoundRobin (max : Z) : roundRobin :=
  {| max := max; current := 0 |}.

(** [atomic.CompareAndSwapInt32(addr, old, new)] on the value [cur] stored at
    [addr]: the outcome and the value stored afterwards. *)
Definition CompareAndSwapInt32 (cur old new : Z) : bool * Z :=
  if decide (cur = old) then (true, new) else (false, cur).

(** [roundRobin.nextIndex], run by one goroutine at a time.  The [for] loop
    is unrolled [fuel] times; [None] means the loop did not return within the
    fuel. *)
Fixpoint nextIndex (fuel : nat) (r : roundRobin) : option (Z * roundRobin) :=
  match fuel with
  | O => None
  | S fuel' =>
      let i := add32 (current r) 1 in
      let r := {| max := max r; current := i |} in
      if decide (i > max r) then
        let '(swapped, cur) := CompareAndSwapInt32 (current r) i 0 in
        let r := {| max := max r; current := cur |} in
        if negb swapped then nextIndex fuel' r
        else Some (0, r)
      else Some (i, r)
  end.

(** The states a balancer created by [newRoundRobin max] can be in after any
    number of completed calls of [nextIndex]. *)
Inductive reachable (m : Z) : roundRobin -> Prop :=
| reachable_new : reachable m (newRoundRobin m)
| reachable_next r fuel i r' :
    reachable m r -> nextIndex fuel r = Some (i, r') -> reachable m r'.

(** [publisherPool]: the publishers and how [publish] picks one.  With a
    single publisher [publish] is that publisher's [Publish]; otherwise it
    indexes [publishers] with the balancer's next index. *)
Inductive publishFunc :=
| publishDirect
| publishBalanced (lb : roundRobin).

Record publisherPool (P : Type) := {
  publishers : list P;
  publish : publishFunc
}.
Arguments publishers {P} _.
Arguments publish {P} _.

(** [newPublisherPool], given the publishers [createPublishers] returned. *)
Definition newPublisherPool {P} (pubs : list P) : publisherPool P :=
  if decide (Z.of_nat (length pubs) = 1) then
    {| publishers := pubs; publish := publishDirect |}
  else
    {| publishers := pubs;
       publish := publishBalanced (newRoundRobin (sub (Z.of_nat (length pubs)) 1)) |}.

(** Indexing a slice: a negative or too large index is a run-time panic. *)
Definition index {P} (l : list P) (i : Z) : option P :=
  if decide (0 <= i) then l !! Z.to_nat i else None.

(** [publisherPool.Publish]: the publisher the message is handed to and the
    pool afterwards; [None] is a panic (index out of range). *)
Definition Publish {P} (fuel : nat) (p : publisherPool P)
  : option (P * publisherPool P) :=
  match publish p with
  | publishDirect =>
      pub ← index (publishers p) 0; Some (pub, p)
  | publishBalanced lb =>
      '(i, lb') ← nextIndex fuel lb;
      pub ← index (publishers p) i;
      Some (pub, {| publishers := publishers p; publish := publishBalanced lb' |})
  end.

(** The states of a pool created by [newPublisherPool pubs] after any number
    of completed calls of [Publish]. *)
Inductive poolReachable {P} (pubs : list P) : publisherPool P -> Prop :=
| poolReachable_new : poolReachable pubs (newPublisherPool pubs)
| poolReachable_publish p fuel pub p' :
    poolReachable pubs p -> Publish fuel p = Some (pub, p') ->
    poolReachable pubs p'.

End amqp.

(** ** Errors *)

Module GoErr.

(** The package-level sentinel errors the modelled code compares against:
    [storage.ErrDataNotFound] and [storage.ErrDuplicateKey] of the storage
    interface, [didanchor.ErrDataNotFound] and [orberrors.ErrContentNotFound]. *)
Inductive sentinel :=
| StorageErrDataNotFound
| StorageErrDuplicateKey
| DidAnchorErrDataNotFound
| ErrContentNotFound.

#[global] Instance sentinel_eq_dec : EqDecision sentinel.
Proof. solve_decision. Defined.

(** A Go error value: a fresh error carrying only a message ([errors.New],
    or [fmt.Errorf] without [%w]), a sentinel, a [fmt.Errorf("...: %w", e)]
    wrapper, or [orberrors.NewTransient(e)]. *)
Inductive error :=
| New (msg : string)
| Sentinel (s : sentinel)
| Wrap (msg : string) (e : error)
| Transient (e : error).

(** [errors.Is(e, target)] for a sentinel target: walks the [Unwrap] chain. *)
Fixpoint Is (e : error) (target : sentinel) : bool :=
  match e with
  | New _ => false
  | Sentinel s => bool_decide (s = target)
  | Wrap _ e' => Is e' target
  | Transient e' => Is e' target
  end.

(** Modelled from the spec: package orberrors is not among the sources.  An
    error is transient when a transient tag occurs on its [Unwrap] chain, so
    that wrappers preserve the tag. *)
Fixpoint IsTransient (e : error) : bool :=
  match e with
  | New _ => false
  | Sentinel _ => false
  | Wrap _ e' => IsTransient e'
  | Transient _ => true
  end.

(** [err.Error()]: the message of the error. *)
Fixpoint Error (e : error) : string :=
  match e with
  | New msg => msg
  | Sentinel StorageErrDataNotFound => "data not found"
  | Sentinel StorageErrDuplicateKey => "duplicate key"
  | Sentinel DidAnchorErrDataNotFound => "data not found"
  | Sentinel ErrContentNotFound => "content not found"
  | Wrap msg e' => msg +:+ ": " +:+ Error e'
  | Transient e' => Error e'
  end.

(** What a call produces: a value, an error, or a run-time panic. *)
Inductive result (A : Type) :=
| OK (a : A)
| Err (e : error)
| Panic.
Arguments OK {A} _.
Arguments Err {A} _.
Arguments Panic {A}.

End GoErr.

(** ** The storage interface (aries-framework-go, spi/storage) *)

Module storage.

Import GoErr.

(** [storage.PutOptions] and [storage.Operation]; a [nil] pointer or slice
    is [None]. *)
Record PutOptions := { IsNewKey : bool }.

Record Operation := {
  Key : string;
  Value : option string;
  PutOpts : option PutOptions
}.

(** An iterator over query results, as the sequence of what its calls will
    yield: each further call of [Next] either fails or moves to an entry whose
    [Value] is a value or an error. *)
Inductive step :=
| NextFails (e : error)
| Entry (value : result string).

Definition Iterator := list step.

(** The [storage.Store] interface over a store state [S].  [Batch] is the
    only operation modelled with an effect on the state. *)
Class Store (S : Type) := {
  Get : S -> string -> result string;
  GetBulk : S -> list string -> result (list (option string));
  Batch : S -> list Operation -> option error * S;
  Query : S -> string -> result Iterator
}.

(** A store that records the batches it is asked to execute, for stating
    what a caller sent to it. *)
Definition Recorded (S : Type) : Type := S * list (list Operation).

#[global] Instance Recorded_Store {S} `{Store S} : Store (Recorded S) := {
  Get s k := Get (fst s) k;
  GetBulk s ks := GetBulk (fst s) ks;
  Batch s ops :=
    let '(e, s') := Batch (fst s) ops in (e, (s', snd s ++ [ops]));
  Query s q := Query (fst s) q
}.

(** An in-memory store: the entries by key, the values each query expression
    selects, and an optional fault that makes every call fail.  A put whose
    [IsNewKey] hint is set fails with [ErrDuplicateKey] when the key exists,
    as an inserting back-end does; a batch is applied only if every operation
    succeeds. *)
Record MemStore := {
  entries : gmap string string;
  tagged : gmap string (list string);
  fault : option error
}.

Definition mem_apply (m : option (gmap string string)) (op : Operation)
  : option (gmap string string) :=
  m ← m;
  match Value op with
  | None => Some (delete (Key op) m)
  | Some v =>
      match PutOpts op with
      | Some {| IsNewKey := true |} =>
          if decide (is_Some (m !! Key op)) then None
          else Some (<[Key op := v]> m)
      | _ => Some (<[Key op := v]> m)
      end
  end.

#[global] Instance MemStore_Store : Store MemStore := {
  Get s k :=
    match fault s with
    | Some e => Err e
    | None =>
        match entries s !! k with
        | Some v => OK v
        | None => Err (Sentinel StorageErrDataNotFound)
        end
    end;
  GetBulk s ks :=
    match fault s with
    | Some e => Err e
    | None => OK ((fun k => entries s !! k) <$> ks)
    end;
  Batch s ops :=
    match fault s with
    | Some e => (Some e, s)
    | None =>
        match foldl mem_apply (Some (entries s)) ops with
        | Some m => (None, {| entries := m; tagged := tagged s; fault := None |})
        | None => (Some (Wrap "batch" (Sentinel StorageErrDuplicateKey)), s)
        end
    end;
  Query s q :=
    match fault s with
    | Some e => Err e
    | None => OK ((fun v => Entry (OK v)) <$> default [] (tagged s !! q))
    end
}.

End storage.

(** ** The DID/anchor index (package didanchor of the store) *)

Module didanchor.

Import GoErr storage.

Section WithStore.

Context {S : Type} `{Store S}.

(** The first loop of [PutBulk]: one put per suffix, with the hint
    [areNew[i]]; indexing [areNew] out of range panics. *)
Fixpoint hintedOperations (suffixes : list string) (areNew : list bool)
  (cid : string) : option (list Operation) :=
  match suffixes with
  | [] => Some []
  | suffix :: suffixes' =>
      match areNew with
      | [] => None
      | isNew :: areNew' =>
          ops ← hintedOperations suffixes' areNew' cid;
          Some ({| Key := suffix; Value := Some cid;
                   PutOpts := Some {| IsNewKey := isNew |} |} :: ops)
      end
  end.

(** The second loop of [PutBulk]: the same puts without [PutOptions]. *)
Definition plainOperations (suffixes : list string) (cid : string)
  : list Operation :=
  (fun suffix => {| Key := suffix; Value := Some cid; PutOpts := None |})
    <$> suffixes.

Definition PutBulk (s : S) (suffixes : list string) (areNew : list bool)
  (cid : string) : result unit * S :=
  if decide (length suffixes = 0%nat) then
    (Err (New "no suffixes provided"), s)
  else
    match hintedOperations suffixes areNew cid with
    | None => (Panic, s)
    | Some operations =>
        match Batch s operations with
        | (None, s) => (OK (), s)
        | (Some err, s) =>
            if Is err StorageErrDuplicateKey then
              match Batch s (plainOperations suffixes cid) with
              | (None, s) => (OK (), s)
              | (Some err, s) =>
                  (Err (Transient
                          (Wrap ("failed to add cid[" +:+ cid +:+ "] to suffixes") err)),
                   s)
              end
            else
              (Err (Transient
                      (Wrap ("failed to add cid[" +:+ cid +:+ "] to suffixes") err)),
               s)
        end
    end.

(** The loop of [GetBulk]: [anchors] has one slot per suffix, initially the
    empty string; slot [i] is assigned from [anchorBytes[i]], and an
    [anchorBytes] longer than [anchors] indexes out of range. *)
Fixpoint fillAnchors (anchors : list string) (anchorBytes : list (option string))
  : option (list string) :=
  match anchorBytes with
  | [] => Some anchors
  | a :: anchorBytes' =>
      match anchors with
      | [] => None
      | _ :: anchors' =>
          rest ← fillAnchors anchors' anchorBytes';
          Some (match a with None => "" | Some b => b end :: rest)
      end
  end.

Definition GetBulk (s : S) (suffixes : list string) : result (list string) :=
  match storage.GetBulk s suffixes with
  | Err err => Err (Transient (Wrap "failed to get did anchor reference" err))
  | Panic => Panic
  | OK anchorBytes =>
      match fillAnchors (replicate (length suffixes) "") anchorBytes with
      | None => Panic
      | Some anchors => OK anchors
      end
  end.

Definition Get (s : S) (suffix : string) : result string :=
  match storage.Get s suffix with
  | Err err =>
      if Is err StorageErrDataNotFound then Err (Sentinel DidAnchorErrDataNotFound)
      else Err (Transient
                  (Wrap "failed to get content from the underlying storage provider" err))
  | Panic => Panic
  | OK anchorBytes => OK anchorBytes
  end.

End WithStore.

(** An index that holds an anchor for [suffix1] only. *)
Definition index1 : MemStore :=
  {| entries := {[ "suffix1" := "hl:anchor1" ]}; tagged := ∅; fault := None |}.

End didanchor.

(** ** The unpublished operation store (package unpublished) *)

Module unpublished.

Import GoErr storage.

Definition index : string := "uniqueSuffix".

Section WithStore.

(** [Op] stands for [operation.AnchoredOperation] and [unmarshal] for
    [json.Unmarshal] into it. *)
Context {S : Type} `{Store S} {Op : Type} (unmarshal : string -> result Op).

(** The body of the [for ok] loop of [Get], entered with the iterator on an
    entry whose [Value] yields [value], [rest] being what is left of the
    iterator and [ops] the operations collected so far. *)
Fixpoint collect (suffix : string) (value : result string) (rest : Iterator)
  (ops : list Op) : result (list Op) :=
  match value with
  | Err err =>
      Err (Wrap ("failed to get iterator value for suffix[" +:+ suffix +:+ "]") err)
  | Panic => Panic
  | OK value =>
      match unmarshal value with
      | Err err =>
          Err (Wrap ("failed to unmarshal unpublished operation from store value for suffix["
                       +:+ suffix +:+ "]") err)
      | Panic => Panic
      | OK op =>
          let ops := ops ++ [op] in
          match rest with
          | [] => OK ops
          | NextFails err :: _ =>
              Err (Transient
                     (Wrap ("iterator error for suffix[" +:+ suffix +:+ "] ") err))
          | Entry value' :: rest' => collect suffix value' rest' ops
          end
      end
  end.

Definition Get (s : S) (suffix : string) : result (list Op) :=
  let query := index +:+ ":" +:+ suffix in
  match Query s query with
  | Err err =>
      Err (Wrap ("failed to get unpublished operations for[" +:+ query +:+ "]") err)
  | Panic => Panic
  | OK iter =>
      let collected :=
        match iter with
        | [] => OK []
        | NextFails err :: _ =>
            Err (Wrap ("iterator error for suffix[" +:+ suffix +:+ "] ") err)
        | Entry value :: rest => collect suffix value rest []
        end in
      match collected with
      | OK ops =>
          if decide (length ops = 0%nat) then
            Err (New ("suffix[" +:+ suffix
                        +:+ "] not found in the unpublished operation store"))
          else OK ops
      | failure => failure
      end
  end.

End WithStore.

(** An unpublished operation store with two operations for [suffix1]. *)
Definition unpublished1 : MemStore :=
  {| entries := ∅;
     tagged := {[ "uniqueSuffix:suffix1" := ["op1"; "op2"] ]};
     fault := None |}.

End unpublished.

(** ** The observer (package observer) *)

Module observer.

Import GoErr.

(** [anchorinfo.AnchorInfo] *)
Record AnchorInfo := {
  Hashlink : string;
  LocalHashlink : string;
  AttributedTo : string
}.

(** The anchor subject [util.GetAnchorSubject] extracts from a credential;
    [PreviousAnchors] is a Go map, kept as its entries in iteration order. *)
Record Payload := {
  Namespace : string;
  Version : Z;
  CoreIndex : string;
  OperationCount : Z;
  PreviousAnchors : list (string * string)
}.

(** [txnapi.SidetreeTxn] *)
Record SidetreeTxn := {
  TransactionTime : Z;
  AnchorString : string;
  TxnNamespace : string;
  ProtocolGenesisTime : Z;
  CanonicalReference : string;
  EquivalentReferences : list string
}.

(** A [Like] activity as [doPostLikeActivity] builds it. *)
Record LikeActivity (URL : Type) := {
  Object : URL;
  To : list URL;
  Published : Z;
  Result : option URL
}.
Arguments Object {URL} _.
Arguments To {URL} _.
Arguments Published {URL} _.
Arguments Result {URL} _.

(** The collaborators of the observer, each a call on the world [W] outside
    the observer: the anchor graph, the protocol client provider [PC] and its
    versions [PV], the DID/anchor index, the outbox, the CAS resolver, the
    WebFinger resolver, and the library functions on credentials [VC],
    hashlinks and URLs the observer calls.  [SubjectAttributedTo] stands for
    the expression
    [vc.Subject.([]verifiable.Subject)[0].CustomFields["attributedTo"]]
    followed by the assertion [.(string)]: it panics when an assertion or
    the index fails and yields [None] when the field is absent. *)
Record Providers (W VC PC PV URL : Type) := {
  AnchorGraphRead : W -> string -> result VC * W;
  GetAnchorSubject : W -> VC -> result Payload * W;
  ForNamespace : W -> string -> result PC * W;
  GetVersion : W -> PC -> Z -> result PV * W;
  GetResourceHashFromHashLink : W -> string -> result string * W;
  Process : W -> PV -> SidetreeTxn -> list string -> result unit * W;
  DidAnchorsPutBulk : W -> list string -> string -> result unit * W;
  OutboxPost : W -> LikeActivity URL -> result URL * W;
  CASResolve : W -> string -> result (string * string) * W;
  ParseCredential : W -> string -> result VC * W;
  SubjectAttributedTo : W -> VC -> result (option string) * W;
  ResolveHostMetaLink : W -> string -> string -> result string * W;
  urlParse : W -> string -> result URL * W;
  Now : W -> Z * W;
  IssuedUnix : VC -> Z;
  GetAnchorString : Z -> string -> string;
  urlString : URL -> string;
  PublicIRI : URL
}.
Arguments AnchorGraphRead {W VC PC PV URL} _.
Arguments GetAnchorSubject {W VC PC PV URL} _.
Arguments ForNamespace {W VC PC PV URL} _.
Arguments GetVersion {W VC PC PV URL} _.
Arguments GetResourceHashFromHashLink {W VC PC PV URL} _.
Arguments Process {W VC PC PV URL} _.
Arguments DidAnchorsPutBulk {W VC PC PV URL} _.
Arguments OutboxPost {W VC PC PV URL} _.
Arguments CASResolve {W VC PC PV URL} _.
Arguments ParseCredential {W VC PC PV URL} _.
Arguments SubjectAttributedTo {W VC PC PV URL} _.
Arguments ResolveHostMetaLink {W VC PC PV URL} _.
Arguments urlParse {W VC PC PV URL} _.
Arguments Now {W VC PC PV URL} _.
Arguments IssuedUnix {W VC PC PV URL} _.
Arguments GetAnchorString {W VC PC PV URL} _.
Arguments urlString {W VC PC PV URL} _.
Arguments PublicIRI {W VC PC PV URL} _.

(** The double quote character, for messages. *)
Definition dquote : string := String (Ascii.ascii_of_nat 34) EmptyString.

(** [discoveryrest.ActivityJSONType] *)
Definition ActivityJSONType : string := "application/activity+json".

(** Computations on the world: a call yields a result and the world after
    it; an error or a panic ends the computation. *)
Definition M (W A : Type) : Type := W -> result A * W.

Definition ret {W A} (a : A) : M W A := fun w => (OK a, w).

Definition fail {W A} (e : error) : M W A := fun w => (Err e, w).

Definition bind {W A B} (m : M W A) (k : A -> M W B) : M W B :=
  fun w =>
    match m w with
    | (OK a, w') => k a w'
    | (Err e, w') => (Err e, w')
    | (Panic, w') => (Panic, w')
    end.

(** [if err != nil { return fmt.Errorf(msg + ": %w", err) }] *)
Definition wrapf {W A} (msg : string) (m : M W A) : M W A :=
  fun w =>
    match m w with
    | (Err e, w') => (Err (Wrap msg e), w')
    | r => r
    end.

(** [if err != nil { logger.Warnf(...) }]: the error is logged and dropped. *)
Definition logged {W} (m : M W unit) : M W unit :=
  fun w =>
    match m w with
    | (Err _, w') => (OK (), w')
    | r => r
    end.

Declare Scope obs_scope.
Delimit Scope obs_scope with obs.
Notation "'let!' x := m 'in' k" := (bind m (fun x => k))
  (at level 10, x name, m at level 200, k at level 200) : obs_scope.
Notation "'let!' ' p := m 'in' k" := (bind m (fun x => let 'p := x in k))
  (at level 10, p pattern, m at level 200, k at level 200) : obs_scope.

Section WithProviders.

Context {W VC PC PV URL : Type} (o : Providers W VC PC PV URL).

(** The [discoveryDomain] option of the observer. *)
Context (discoveryDomain : string).

Local Open Scope obs_scope.

Definition getKeys (m : list (string * string)) : list string := fst <$> m.

Definition doPostLikeActivity (to refURL : URL) (result : option URL)
  : M W unit :=
  fun w =>
    let '(publishedTime, w) := Now o w in
    let like := {| Object := refURL;
                   To := [to; PublicIRI o];
                   Published := publishedTime;
                   Result := result |} in
    wrapf "post like" (let! _ := (fun w => OutboxPost o w like) in ret ()) w.

Definition resolveActorFromHashlink (hl : string) : M W URL :=
  let! '(vcBytes, _) := wrapf "resolve anchor credential" (fun w => CASResolve o w hl) in
  let! vc := wrapf "parse anchor credential" (fun w => ParseCredential o w vcBytes) in
  let! attributedTo := (fun w => SubjectAttributedTo o w vc) in
  match attributedTo with
  | None =>
      fail (New (dquote +:+ "attributedTo" +:+ dquote
                   +:+ " field not found in anchor credential for ["
                   +:+ hl +:+ "]"))
  | Some attributedTo =>
      let! hml := wrapf ("resolve host meta-link for [" +:+ attributedTo +:+ "]")
               (fun w => ResolveHostMetaLink o w attributedTo ActivityJSONType) in
      let! actor := wrapf ("parse URL [" +:+ hml +:+ "]") (fun w => urlParse o w hml) in
      ret actor
  end.

Definition postLikeActivity (anchor : AnchorInfo) : M W unit :=
  if decide (AttributedTo anchor = "") then ret ()
  else
    let! refURL := wrapf ("parse hash link [" +:+ Hashlink anchor +:+ "]")
                (fun w => urlParse o w (Hashlink anchor)) in
    let! attributedTo := wrapf ("parse origin [" +:+ AttributedTo anchor +:+ "]")
                      (fun w => urlParse o w (AttributedTo anchor)) in
    let! result :=
      (if decide (LocalHashlink anchor <> "") then
         let! u := wrapf ("parse local hashlink [" +:+ LocalHashlink anchor +:+ "]")
                     (fun w => urlParse o w (LocalHashlink anchor)) in
         ret (Some u)
       else ret None) in
    let! _ := wrapf "post like" (doPostLikeActivity attributedTo refURL result) in
    let! originActor :=
      wrapf ("resolve origin actor for hashlink [" +:+ urlString o refURL +:+ "]")
        (resolveActorFromHashlink (urlString o refURL)) in
    if decide (AttributedTo anchor = urlString o originActor) then ret ()
    else
      wrapf ("post 'Like' activity to outbox for hashlink ["
               +:+ urlString o refURL +:+ "]")
        (doPostLikeActivity originActor refURL result).

Definition processAnchor (anchor : AnchorInfo) (info : VC)
  (suffixes : list string) : M W unit :=
  let! anchorPayload :=
    wrapf ("failed to extract anchor payload from anchor[" +:+ Hashlink anchor +:+ "]")
      (fun w => GetAnchorSubject o w info) in
  let! pc := wrapf ("failed to get protocol client for namespace ["
                 +:+ Namespace anchorPayload +:+ "]")
          (fun w => ForNamespace o w (Namespace anchorPayload)) in
  let! v := wrapf ("failed to get protocol version for transaction time ["
                +:+ pretty (Version anchorPayload) +:+ "]")
         (fun w => GetVersion o w pc (Version anchorPayload)) in
  let! canonicalID :=
    wrapf ("failed to get canonical ID from hl[" +:+ Hashlink anchor +:+ "]")
      (fun w => GetResourceHashFromHashLink o w (Hashlink anchor)) in
  let equivalentRefs :=
    if decide (discoveryDomain <> "") then
      [Hashlink anchor] ++ ["https:" +:+ discoveryDomain +:+ ":" +:+ canonicalID]
    else [Hashlink anchor] in
  let sidetreeTxn :=
    {| TransactionTime := IssuedUnix o info mod 2 ^ 64;
       AnchorString :=
         GetAnchorString o (OperationCount anchorPayload) (CoreIndex anchorPayload);
       TxnNamespace := Namespace anchorPayload;
       ProtocolGenesisTime := Version anchorPayload;
       CanonicalReference := canonicalID;
       EquivalentReferences := equivalentRefs |} in
  let! _ := wrapf ("failed to processAnchors core index[" +:+ CoreIndex anchorPayload +:+ "]")
         (fun w => Process o w v sidetreeTxn suffixes) in
  let acSuffixes := getKeys (PreviousAnchors anchorPayload) in
  let! _ := wrapf ("failed updating did anchor references for anchor credential["
                +:+ Hashlink anchor +:+ "]")
         (fun w => DidAnchorsPutBulk o w acSuffixes (Hashlink anchor)) in
  let! _ := logged (postLikeActivity anchor) in
  ret ().

Definition handleAnchor (anchor : AnchorInfo) : M W unit :=
  let! anchorInfo := (fun w => AnchorGraphRead o w (Hashlink anchor)) in
  let! _ := processAnchor anchor anchorInfo [] in
  ret ().

End WithProviders.

(** How a delivered message is acknowledged. *)
Inductive ack := Ack | Nack.

(** Modelled from the spec: the subscriber that calls [handleAnchor] and
    acknowledges the message is not among the sources.  A transient error is
    negatively acknowledged so that the message is redelivered; success and
    permanent errors (which are logged) are positively acknowledged. *)
Definition acknowledge {A} (r : result A) : ack :=
  match r with
  | Err e => if IsTransient e then Nack else Ack
  | _ => Ack
  end.

(** *** Recording the calls the observer makes *)

(** The calls on the collaborators, with their arguments. *)
Inductive call (URL : Type) :=
| CallAnchorGraphRead (hl : string)
| CallGetAnchorSubject
| CallForNamespace (ns : string)
| CallGetVersion (v : Z)
| CallGetResourceHash (hl : string)
| CallProcess (txn : SidetreeTxn) (suffixes : list string)
| CallPutBulk (suffixes : list string) (hl : string)
| CallOutboxPost (like : LikeActivity URL)
| CallCASResolve (hl : string)
| CallParseCredential (vcBytes : string)
| CallSubjectAttributedTo
| CallResolveHostMetaLink (uri linkType : string)
| CallUrlParse (s : string).
Arguments CallAnchorGraphRead {URL} _.
Arguments CallGetAnchorSubject {URL}.
Arguments CallForNamespace {URL} _.
Arguments CallGetVersion {URL} _.
Arguments CallGetResourceHash {URL} _.
Arguments CallProcess {URL} _ _.
Arguments CallPutBulk {URL} _ _.
Arguments CallOutboxPost {URL} _.
Arguments CallCASResolve {URL} _.
Arguments CallParseCredential {URL} _.
Arguments CallSubjectAttributedTo {URL}.
Arguments CallResolveHostMetaLink {URL} _ _.
Arguments CallUrlParse {URL} _.

(** The calls made only on behalf of [postLikeActivity]. *)
Definition isLikeCall {URL} (c : call URL) : bool :=
  match c with
  | CallOutboxPost _ | CallCASResolve _ | CallParseCredential _
  | CallSubjectAttributedTo | CallResolveHostMetaLink _ _ | CallUrlParse _ => true
  | _ => false
  end.

(** What a recorded call returned, for the calls whose value the statements
    below refer to. *)
Inductive value (VC URL : Type) :=
| VDone
| VURL (u : URL)
| VString (s : string)
| VContent (content localHL : string)
| VCredential (vc : VC)
| VField (field : option string).
Arguments VDone {VC URL}.
Arguments VURL {VC URL} _.
Arguments VString {VC URL} _.
Arguments VContent {VC URL} _ _.
Arguments VCredential {VC URL} _.
Arguments VField {VC URL} _.

(** A recorded call: the call and its outcome. *)
Definition event (VC URL : Type) : Type := call URL * result (value VC URL).

(** The error a recorded call returned, if any. *)
Definition failure {VC URL} (ev : event VC URL) : option error :=
  match snd ev with
  | Err e => Some e
  | _ => None
  end.

Definition outcome {A VC URL} (inj : A -> value VC URL) (r : result A)
  : result (value VC URL) :=
  match r with
  | OK a => OK (inj a)
  | Err e => Err e
  | Panic => Panic
  end.

Definition recording {W VC URL A} (c : call URL) (inj : A -> value VC URL)
  (f : W -> result A * W)
  : W * list (event VC URL) -> result A * (W * list (event VC URL)) :=
  fun s =>
    let '(r, w') := f (fst s) in
    (r, (w', snd s ++ [(c, outcome inj r)])).

(** The collaborators [o], made to append every call to a log kept next to
    the world. *)
Definition Recorded {W VC PC PV URL} (o : Providers W VC PC PV URL)
  : Providers (W * list (event VC URL)) VC PC PV URL := {|
  AnchorGraphRead s hl :=
    recording (CallAnchorGraphRead hl) VCredential
      (fun w => AnchorGraphRead o w hl) s;
  GetAnchorSubject s vc :=
    recording CallGetAnchorSubject (fun _ => VDone)
      (fun w => GetAnchorSubject o w vc) s;
  ForNamespace s ns :=
    recording (CallForNamespace ns) (fun _ => VDone)
      (fun w => ForNamespace o w ns) s;
  GetVersion s pc v :=
    recording (CallGetVersion v) (fun _ => VDone)
      (fun w => GetVersion o w pc v) s;
  GetResourceHashFromHashLink s hl :=
    recording (CallGetResourceHash hl) VString
      (fun w => GetResourceHashFromHashLink o w hl) s;
  Process s v txn suffixes :=
    recording (CallProcess txn suffixes) (fun _ => VDone)
      (fun w => Process o w v txn suffixes) s;
  DidAnchorsPutBulk s suffixes hl :=
    recording (CallPutBulk suffixes hl) (fun _ => VDone)
      (fun w => DidAnchorsPutBulk o w suffixes hl) s;
  OutboxPost s like :=
    recording (CallOutboxPost like) VURL (fun w => OutboxPost o w like) s;
  CASResolve s hl :=
    recording (CallCASResolve hl) (fun p => VContent (fst p) (snd p))
      (fun w => CASResolve o w hl) s;
  ParseCredential s b :=
    recording (CallParseCredential b) VCredential
      (fun w => ParseCredential o w b) s;
  SubjectAttributedTo s vc :=
    recording CallSubjectAttributedTo VField
      (fun w => SubjectAttributedTo o w vc) s;
  ResolveHostMetaLink s uri linkType :=
    recording (CallResolveHostMetaLink uri linkType) VString
      (fun w => ResolveHostMetaLink o w uri linkType) s;
  urlParse s u :=
    recording (CallUrlParse u) VURL (fun w => urlParse o w u) s;
  Now s := let '(t, w') := Now o (fst s) in (t, (w', snd s));
  IssuedUnix := IssuedUnix o;
  GetAnchorString := GetAnchorString o;
  urlString := urlString o;
  PublicIRI := PublicIRI o
|}.

(** The [Like] activities handed to the outbox, in order. *)
Definition posted {VC URL} (log : list (event VC URL)) : list (LikeActivity URL) :=
  omap (fun ev => match fst ev with
                  | CallOutboxPost like => Some like
                  | _ => None
                  end) log.

(** *** Predicates on recorded computations *)

(** [e] carries the tags of [e0]: the same transient tag and the same
    sentinels on its chain. *)
Definition sameTags (e e0 : error) : Prop :=
  IsTransient e = IsTransient e0 /\ forall target, Is e target = Is e0 target.

(** A recorded computation that only makes calls on behalf of the [Like]. *)
Definition quiet {W VC URL A} (m : M (W * list (event VC URL)) A) : Prop :=
  forall s, exists ext,
    snd (snd (m s)) = snd s ++ ext /\
    Forall (fun ev => isLikeCall (fst ev) = true) ext.

(** A recorded computation that returns the error of the first failing call
    among those not made on behalf of the [Like], with its tags, and returns
    no other error. *)
Definition faithful {W VC URL A} (m : M (W * list (event VC URL)) A) : Prop :=
  forall s, exists ext,
    snd (snd (m s)) = snd s ++ ext /\
    match fst (m s) with
    | Err e =>
        exists c e0,
          last ext = Some (c, Err e0) /\ isLikeCall c = false /\ sameTags e e0
    | _ =>
        forall ev e, ev ∈ ext -> failure ev = Some e -> isLikeCall (fst ev) = true
    end.

(** *** Collaborators for the examples *)

(** Collaborators on a trivial world: every call succeeds, except that the
    outbox fails with a transient error when [outboxDown] is set.  URLs are
    their strings; the anchor credential is attributed to domain1. *)
Definition exampleProviders (outboxDown : bool)
  : Providers unit unit unit unit string := {|
  AnchorGraphRead w hl := (OK (), w);
  GetAnchorSubject w vc :=
    (OK {| Namespace := "did:orb"; Version := 0; CoreIndex := "hl:uEiCoreIndex";
           OperationCount := 1;
           PreviousAnchors := [("suffix1", "hl:uEiPrevious")] |}, w);
  ForNamespace w ns := (OK (), w);
  GetVersion w pc v := (OK (), w);
  GetResourceHashFromHashLink w hl := (OK "uEiAnchor", w);
  Process w v txn suffixes := (OK (), w);
  DidAnchorsPutBulk w suffixes hl := (OK (), w);
  OutboxPost w like :=
    if outboxDown then (Err (Transient (New "outbox unavailable")), w)
    else (OK "https://orb.domain3.com/services/orb/activities/1", w);
  CASResolve w hl := (OK ("credential", hl), w);
  ParseCredential w b := (OK (), w);
  SubjectAttributedTo w vc := (OK (Some "https://orb.domain1.com/services/orb"), w);
  ResolveHostMetaLink w uri linkType := (OK uri, w);
  urlParse w s := (OK s, w);
  Now w := (1700000000, w);
  IssuedUnix vc := 1600000000;
  GetAnchorString n coreIndex := pretty n +:+ "." +:+ coreIndex;
  urlString u := u;
  PublicIRI := "https://www.w3.org/ns/activitystreams#Public"
|}.

(** An anchor created by domain1 and announced by domain2. *)
Definition exampleAnchor : AnchorInfo :=
  {| Hashlink := "hl:uEiAnchor";
     LocalHashlink := "hl:uEiAnchor:uoQ-local";
     AttributedTo := "https://orb.domain2.com/services/orb" |}.

End observer.

(** ** The IPFS CAS client (package ipfs) *)

Module ipfs.

Import GoErr.

(** [hashlink.HLPrefix] *)
Definition HLPrefix : string := "hl:".

(** [strings.Contains(s, substr)] and [strings.HasPrefix(s, prefix)] *)
Definition Contains (s substr : string) : bool :=
  bool_decide (is_Some (String.index 0 substr s)).

Definition HasPrefix (s prefix : string) : bool := String.prefix prefix s.

(** [extendedcasclient.CIDFormatOptions]; a [CIDFormatOption] is a function
    that updates the options, and a [nil] option is [None]. *)
Record CIDFormatOptions := { CIDVersion : Z }.

Definition CIDFormatOption : Type := option (CIDFormatOptions -> CIDFormatOptions).

Definition getOptions (opts : list CIDFormatOption) : result CIDFormatOptions :=
  let options :=
    foldl (fun options option =>
             match option with
             | Some f => f options
             | None => options
             end) {| CIDVersion := 1 |} opts in
  if decide (CIDVersion options <> 0 /\ CIDVersion options <> 1) then
    Err (New (pretty (CIDVersion options)
                +:+ " is not a supported CID version. It must be either 0 or 1"))
  else OK options.

(** The [ipfsClient] interface over the state [N] of an IPFS node: [Add]
    with or without the [CidVersion(1)] option, and [Cat], which hands out a
    reader; the reader is represented by what [io.ReadAll] gets from it. *)
Class ipfsClient (N : Type) := {
  Add : N -> string -> bool -> result string * N;
  Cat : N -> string -> result (result string)
}.

(** The functions of packages hashlink and multihash the client calls.
    [multihashOf] and [metadataOf] are the encoders [CreateHashLink] uses for
    the multihash of the content and for the metadata that lists the links;
    [ParseHashLink] yields the [ResourceHash] of the parsed hashlink. *)
Class Codec := {
  multihashOf : string -> result string;
  metadataOf : list string -> result string;
  ParseHashLink : string -> result string;
  IsValidCID : string -> bool;
  ToV0CID : string -> result string;
  ToV1CID : string -> result string
}.

(** Modelled from the spec: [hashlink.CreateHashLink] is not among the
    sources.  A hashlink is [hl:] followed by the base-encoded multihash of
    the content and, when links are given, a colon and the encoded metadata
    that lists them. *)
Definition CreateHashLink `{Codec} (content : string) (links : list string)
  : result string :=
  match multihashOf content with
  | Err e => Err e
  | Panic => Panic
  | OK mh =>
      if decide (links = []) then OK (HLPrefix +:+ mh)
      else
        match metadataOf links with
        | Err e => Err e
        | Panic => Panic
        | OK md => OK (HLPrefix +:+ mh +:+ ":" +:+ md)
        end
  end.

(** [Client]: the node, the format options and the cache.  The cache is a
    loading cache; its bound on the number of entries is not modelled. *)
Record Client (N : Type) := {
  node : N;
  opts : list CIDFormatOption;
  cache : gmap string string
}.
Arguments node {N} _.
Arguments opts {N} _.
Arguments cache {N} _.

Section WithNode.

Context {N : Type} `{ipfsClient N} `{Codec}.

Definition WriteWithCIDFormat (m : Client N) (content : string)
  (opts : list CIDFormatOption) : result string * Client N :=
  if decide (String.length content = 0%nat) then (Err (New "empty content"), m)
  else
    match getOptions opts with
    | Err err => (Err err, m)
    | Panic => (Panic, m)
    | OK options =>
        let v1AddOpt := bool_decide (CIDVersion options = 1) in
        let '(added, n) := Add (node m) content v1AddOpt in
        let m := {| node := n; opts := ipfs.opts m; cache := cache m |} in
        match added with
        | Err err =>
            if Contains (Error err) "command not found" then
              (Err (Wrap "(Does this IPFS node support writes?)" err), m)
            else (Err (Transient err), m)
        | Panic => (Panic, m)
        | OK cid => (OK cid, m)
        end
    end.

Definition Write (m : Client N) (content : string) : result string * Client N :=
  match WriteWithCIDFormat m content (opts m) with
  | (Err err, m) => (Err err, m)
  | (Panic, m) => (Panic, m)
  | (OK cid, m) =>
      let links := ["ipfs://" +:+ cid] in
      match CreateHashLink content links with
      | Err err => (Err (Wrap "failed to create hashlink for ipfs" err), m)
      | Panic => (Panic, m)
      | OK hl => (OK hl, m)
      end
  end.

Definition get (m : Client N) (cid : string) : result string :=
  match Cat (node m) cid with
  | Err err =>
      if Contains (Error err) "context deadline exceeded" then
        Err (Wrap (Error err) (Sentinel ErrContentNotFound))
      else Err (Transient (Wrap ("cat IPFS of CID [" +:+ cid +:+ "]") err))
  | Panic => Panic
  | OK reader =>
      match reader with
      | Err err => Err (Wrap "read all from IPFS mockReader" err)
      | Panic => Panic
      | OK content =>
          if decide (content = "null") then
            Err (Transient (Sentinel ErrContentNotFound))
          else OK content
      end
  end.

Definition getCIDFromHash (m : Client N) (hash : string) : result string :=
  match getOptions (opts m) with
  | Err err => Err err
  | Panic => Panic
  | OK options =>
      if decide (CIDVersion options = 0) then
        match ToV0CID hash with
        | Err err =>
            Err (Wrap ("value[" +:+ hash +:+ "] cannot be converted to V0 CID") err)
        | r => r
        end
      else if decide (CIDVersion options = 1) then
        match ToV1CID hash with
        | Err err =>
            Err (Wrap ("value[" +:+ hash +:+ "] cannot be converted to V1 CID") err)
        | r => r
        end
      else
        Err (New ("cid version[" +:+ pretty (CIDVersion options) +:+ "] not supported"))
  end.

Definition getCID (m : Client N) (cidOrHash : string) : result string :=
  let parsed :=
    if HasPrefix cidOrHash HLPrefix then
      match ParseHashLink cidOrHash with
      | Err err => Err (Wrap "failed to parse hash link in ipfs client" err)
      | r => r
      end
    else OK cidOrHash in
  match parsed with
  | OK cid =>
      if negb (IsValidCID cid) then
        match getCIDFromHash m cid with
        | Err err => Err (Wrap "failed to get cid in ipfs reader" err)
        | r => r
        end
      else OK cid
  | r => r
  end.

(** [m.cache.Get(cid)]: a cached entry is returned as it is; otherwise the
    loader function ([get]) runs and its result is cached on success. *)
Definition cacheGet (m : Client N) (cid : string) : result string * Client N :=
  match cache m !! cid with
  | Some content => (OK content, m)
  | None =>
      match get m cid with
      | OK content =>
          (OK content,
           {| node := node m; opts := opts m; cache := <[cid := content]> (cache m) |})
      | r => (r, m)
      end
  end.

Definition Read (m : Client N) (cidOrHash : string) : result string * Client N :=
  match getCID m cidOrHash with
  | Err err =>
      (Err (Wrap ("value[" +:+ cidOrHash
                    +:+ "] passed to ipfs reader is not CID and cannot be converted to CID")
              err), m)
  | Panic => (Panic, m)
  | OK cid => cacheGet m cid
  end.

End WithNode.

(** A node that stores what is added under a content identifier that
    depends on the content and the CID version, and whose [Cat] of an unknown
    identifier times out. *)
Definition MemNode : Type := gmap string string.

Definition memCID (v1 : bool) (content : string) : string :=
  (if v1 then "b" else "Qm") +:+ content.

#[global] Instance MemNode_ipfsClient : ipfsClient MemNode := {
  Add n content v1 :=
    (OK (memCID v1 content), <[memCID v1 content := content]> n);
  Cat n cid :=
    match n !! cid with
    | Some content => OK (OK content)
    | None => Err (New "context deadline exceeded")
    end
}.

(** The part of [s] before the first colon. *)
Fixpoint untilColon (s : string) : string :=
  match s with
  | EmptyString => EmptyString
  | String a s' =>
      if decide (a = ":"%char) then EmptyString else String a (untilColon s')
  end.

(** A codec for [MemNode]: the multihash of a content is the content behind
    the multibase letter [u], and the CID of a multihash is what [memCID]
    assigns to the content. *)
#[global] Instance MemCodec : Codec := {|
  multihashOf content := OK ("u" +:+ content);
  metadataOf links := OK "uoQ-";
  ParseHashLink hl := OK (untilColon (String.substring 3 (String.length hl - 3) hl));
  IsValidCID cid := false;
  ToV0CID hash := OK (memCID false (String.substring 1 (String.length hash - 1) hash));
  ToV1CID hash := OK (memCID true (String.substring 1 (String.length hash - 1) hash))
|}.

(** A fresh client on an empty node, with the default options. *)
Definition emptyClient : Client MemNode :=
  {| node := ∅; opts := []; cache := ∅ |}.

End ipfs.

(** ** The walk over the anchor graph (package credential) *)

Module credential.

Import GoErr.

Section Walk.

(** The collaborators of the walk: [isAnchorProcessed] looks a hashlink up in
    the processed-anchor index, [resolveAnchor] resolves a hashlink through
    the CAS resolver and parses the linkset, yielding its [up] references;
    [maxDepth] bounds the depth of the recursion. *)
Context (isAnchorProcessed : string -> result bool)
        (resolveAnchor : string -> result (list string))
        (maxDepth : nat).

(** Running [visit] over the references of a linkset in order, threading
    the list of ancestors found so far. *)
Fixpoint visitAll (visit : list string -> string -> result (list string))
  (refs : list string) (unprocessed : list string) : result (list string) :=
  match refs with
  | [] => OK unprocessed
  | ref :: refs' =>
      match visit unprocessed ref with
      | OK unprocessed' => visitAll visit refs' unprocessed'
      | failure => failure
      end
  end.

(** Modelled from the spec: the anchor event handler with
    [getUnprocessedParentAnchors] is not among the sources (its tests are).
    For each [up] reference: a hashlink already in the list is skipped
    (deduplication by hashlink); a reference that is not a hashlink is a
    permanent error; a reference found in the processed-anchor index is
    skipped; otherwise the anchor is resolved, the walk recurses into its own
    [up] references, and the anchor is added behind its ancestors, so that the
    list is deepest first.  A walk deeper than the bound is a cycle and a
    permanent error; a failed resolution keeps the tag of its error. *)
Fixpoint visit (depth : nat) (unprocessed : list string) (parentHL : string)
  : result (list string) :=
  if decide (parentHL ∈ unprocessed) then OK unprocessed
  else if negb (String.prefix "hl:" parentHL) then
    Err (New ("hashlink[" +:+ parentHL +:+ "] must start with 'hl:' prefix"))
  else
    match isAnchorProcessed parentHL with
    | Err err => Err (Wrap ("is anchor processed [" +:+ parentHL +:+ "]") err)
    | Panic => Panic
    | OK true => OK unprocessed
    | OK false =>
        match depth with
        | O => Err (New ("cycle in the ancestors of anchor [" +:+ parentHL +:+ "]"))
        | S depth' =>
            match resolveAnchor parentHL with
            | Err err => Err (Wrap ("resolve anchor [" +:+ parentHL +:+ "]") err)
            | Panic => Panic
            | OK ups =>
                match visitAll (visit depth') ups unprocessed with
                | OK ancestors => OK (ancestors ++ [parentHL])
                | failure => failure
                end
            end
        end
    end.

(** Modelled from the spec: [getUnprocessedParentAnchors(hl, anchorLink)],
    given the [up] references of the linkset of the anchor [hl]. *)
Definition getUnprocessedParentAnchors (hl : string) (up : list string)
  : result (list string) :=
  visitAll (visit maxDepth) up [].

(** [u] is an unprocessed parent of the unprocessed anchor [x]. *)
Definition parent (x u : string) : Prop :=
  isAnchorProcessed x = OK false /\
  isAnchorProcessed u = OK false /\
  exists ups, resolveAnchor x = OK ups /\ u ∈ ups.

(** The unprocessed ancestors of an anchor with [up] references [up]: the
    unprocessed anchors reached from [up] through unprocessed anchors. *)
Definition unprocessedAncestor (up : list string) (x : string) : Prop :=
  exists r, r ∈ up /\ isAnchorProcessed r = OK false /\ rtc parent r x.

(** The processed-anchor index is closed under ancestors: the [up]
    references of a processed anchor are processed. *)
Definition processedClosed : Prop :=
  forall x ups u,
    isAnchorProcessed x = OK true -> resolveAnchor x = OK ups -> u ∈ ups ->
    isAnchorProcessed u = OK true.

(** [a] is an ancestor of an anchor with [up] references [up], whatever has
    been processed. *)
Definition refersTo (x u : string) : Prop :=
  exists ups, resolveAnchor x = OK ups /\ u ∈ ups.

Definition ancestor (up : list string) (x : string) : Prop :=
  exists r, r ∈ up /\ rtc refersTo r x.

(** The anchors of rank below [d] are well formed: each is a hashlink, the
    index answers for it, and when it is unprocessed it resolves to
    references of lower rank. *)
Definition wellFormed (rank : string -> nat) (d : nat) : Prop :=
  forall x, (rank x < d)%nat ->
    String.prefix "hl:" x = true /\
    exists b, isAnchorProcessed x = OK b /\
      (b = false ->
       exists ups, resolveAnchor x = OK ups /\
         forall u, u ∈ ups -> (rank u < rank x)%nat).

(** In the list [l] every unprocessed parent of an entry stands before the
    entry: the list is in reverse topological order, deepest first. *)
Definition topological (l : list string) : Prop :=
  forall l1 x l2, l = l1 ++ x :: l2 -> forall u, parent x u -> u ∈ l1.

(** The index answers for every hashlink. *)
Definition indexTotal : Prop :=
  forall x, exists b, isAnchorProcessed x = OK b.

(** What the walk maintains about the list it builds: no hashlink occurs
    twice, the list is in reverse topological order, and its entries are
    unprocessed anchors that are not their own ancestors. *)
Definition walkInv (l : list string) : Prop :=
  NoDup l /\ topological l /\
  forall x, x ∈ l -> isAnchorProcessed x = OK false /\ ~ tc parent x x.

(** What one visit adds: [out] extends [acc] by the unprocessed anchors
    reached from [hl], with [hl] itself last. *)
Definition visited (acc : list string) (hl : string) (out : list string) : Prop :=
  exists ext,
    out = acc ++ ext /\ walkInv out /\
    (isAnchorProcessed hl = OK false -> hl ∈ out) /\
    (forall x, x ∈ ext -> isAnchorProcessed hl = OK false /\ rtc parent hl x) /\
    (ext = [] \/ last ext = Some hl).

Definition visitedAll (acc : list string) (refs : list string) (out : list string)
  : Prop :=
  exists ext,
    out = acc ++ ext /\ walkInv out /\
    (forall u, u ∈ refs -> isAnchorProcessed u = OK false -> u ∈ out) /\
    (forall x, x ∈ ext ->
       exists u, u ∈ refs /\ isAnchorProcessed u = OK false /\ rtc parent u x) /\
    (ext = [] \/ exists u, u ∈ refs /\ last ext = Some u).

End Walk.

(** The anchor graph of the handler's test: the anchor refers to its parent,
    the parent to the grandparent, and nothing has been processed. *)
Definition testParentHL : string := "hl:uEiACjive77hfbiFeV2Wz356NYiKM27S31FrDlSClbhABHw".
Definition testGrandparentHL : string := "hl:uEiBbrGQaKfwyeY294rBhw43j0JxUIZZR9VTsxH2iG9riqg".

Definition testProcessed (hl : string) : result bool := OK false.

Definition testResolve (hl : string) : result (list string) :=
  if decide (hl = testParentHL) then OK [testGrandparentHL]
  else if decide (hl = testGrandparentHL) then OK []
  else Err (Sentinel ErrContentNotFound).

Definition testRank (hl : string) : nat :=
  if decide (hl = testParentHL) then 1%nat
  else if decide (hl = testGrandparentHL) then 0%nat
  else 2%nat.

End credential.

(** ** The life cycle of a service (package lifecycle) *)

Module lifecycle.

Import GoErr.

(** [ErrNotStarted] *)
Definition ErrNotStarted : error :=
  Transient (New "service has not started").

(** [State] is a [uint32]. *)
Definition StateNotStarted : Z := 0.
Definition StateStarting : Z := 1.
Definition StateStarted : Z := 2.
Definition StateStopped : Z := 3.

(** [options]: the [start] and [stop] functions.  They are closures with an
    effect on the world [W] around the service. *)
Record options (W : Type) := {
  start : W -> W;
  stop : W -> W
}.
Arguments start {W} _.
Arguments stop {W} _.

(** [Lifecycle].  The logger is not modelled. *)
Record Lifecycle (W : Type) := {
  opts : options W;
  name : string;
  state : Z
}.
Arguments opts {W} _.
Arguments name {W} _.
Arguments state {W} _.

Definition Opt (W : Type) : Type := options W -> options W.

Definition WithStart {W} (start : W -> W) : Opt W :=
  fun opts => {| start := start; stop := stop opts |}.

Definition WithStop {W} (stop : W -> W) : Opt W :=
  fun opts => {| start := start opts; stop := stop |}.

Definition New {W} (name : string) (opts : list (Opt W)) : Lifecycle W :=
  let options :=
    foldl (fun options opt => opt options)
      {| start := fun w => w; stop := fun w => w |} opts in
  {| opts := options; name := name; state := 0 |}.

(** [atomic.CompareAndSwapUint32(addr, old, new)] on the value [cur] stored
    at [addr]: the outcome and the value stored afterwards. *)
Definition CompareAndSwapUint32 (cur old new : Z) : bool * Z :=
  if decide (cur = old) then (true, new) else (false, cur).

(** [atomic.StoreUint32(&h.state, s)] *)
Definition StoreState {W} (h : Lifecycle W) (s : Z) : Lifecycle W :=
  {| opts := opts h; name := name h; state := s |}.

(** [Lifecycle.Start], run by one goroutine at a time. *)
Definition Start {W} (h : Lifecycle W) (w : W) : Lifecycle W * W :=
  let '(swapped, s) :=
    CompareAndSwapUint32 (state h) StateNotStarted StateStarting in
  let h := StoreState h s in
  if negb swapped then (h, w)
  else
    let w := start (opts h) w in
    (StoreState h StateStarted, w).

(** [Lifecycle.Stop] *)
Definition Stop {W} (h : Lifecycle W) (w : W) : Lifecycle W * W :=
  let '(swapped, s) :=
    CompareAndSwapUint32 (state h) StateStarted StateStopped in
  let h := StoreState h s in
  if negb swapped then (h, w)
  else
    let w := stop (opts h) w in
    (h, w).

(** [Lifecycle.State] *)
Definition State {W} (h : Lifecycle W) : Z := state h.

(** A caller's sequence of [Start] and [Stop] calls on one service. *)
Inductive request := DoStart | DoStop.

#[global] Instance request_eq_dec : EqDecision request.
Proof. solve_decision. Defined.

Definition serve {W} (s : Lifecycle W * W) (r : request) : Lifecycle W * W :=
  match r with
  | DoStart => Start (fst s) (snd s)
  | DoStop => Stop (fst s) (snd s)
  end.

Definition run {W} (requests : list request) (h : Lifecycle W) (w : W)
  : Lifecycle W * W :=
  foldl serve (h, w) requests.

End lifecycle.

(** ** Page identifiers and page links (package resthandler) *)

Module resthandler.

Import GoInt Paging.

Definition pageParam : string := "page".
Definition pageNumParam : string := "page-num".

(** [strings.Contains(s, substr)] *)
Definition Contains (s substr : string) : bool :=
  bool_decide (is_Some (String.index 0 substr s)).

(** [handler.getPageID], given [objectIRI.String()]; [%d] prints the decimal
    representation of the page number. *)
Definition getPageID (objectIRI : string) (pageNum : Z) : string :=
  let delimiter := if Contains objectIRI "?" then "&" else "?" in
  if decide (pageNum >= 0) then
    objectIRI +:+ delimiter +:+ pageParam +:+ "=true&" +:+ pageNumParam
      +:+ "=" +:+ pretty pageNum
  else
    objectIRI +:+ delimiter +:+ pageParam +:+ "=true".

(** The pages a reader sees who requests the page [pageNum] and then follows
    the [next] links (the [prev] links when [forward] is unset) of the
    responses until a response carries no such link.  [None] is a panic of
    the handler, or a chain longer than [fuel]. *)
Fixpoint follow (forward : bool) (fuel : nat) (totalItems pageSize : Z)
  (sortOrder : SortOrder) (pageNum : Z) : option (list Z) :=
  match fuel with
  | O => None
  | S fuel' =>
      '(id, prev, next) ←
        getIDPrevNextURL totalItems
          {| PageNumber := pageNum; PageSize := pageSize; Order := sortOrder |};
      match (if forward then next else prev) with
      | None => Some [id]
      | Some link =>
          rest ← follow forward fuel' totalItems pageSize sortOrder link;
          Some (id :: rest)
      end
  end.

End resthandler.

(** ** Creating and using the publishers of the pool (package amqp) *)

Module publishers.

Import GoInt GoErr amqp.

Section WithConnections.

(** [getConnection] stands for [connMgr.getConnection(false)] and
    [createPublisher] for the [createPublisherFunc], given the
    [Publish.ChannelPoolSize] of the configuration passed to it; both act on
    the world [W] of connections. *)
Context {W Conn P : Type}
        (getConnection : W -> result Conn * W)
        (createPublisher : Z -> Conn -> W -> result P * W).

(** The [for] loop of [createPublishers], with [n] iterations to go. *)
Fixpoint createLoop (n : nat) (channelPoolSize : Z) (publishers : list P)
  (w : W) : result (list P) * W :=
  match n with
  | O => (OK publishers, w)
  | S n' =>
      match getConnection w with
      | (Err err, w) => (Err (Wrap "get connection" err), w)
      | (Panic, w) => (Panic, w)
      | (OK conn, w) =>
          match createPublisher channelPoolSize conn w with
          | (Err err, w) => (Err (Wrap "new publisher" err), w)
          | (Panic, w) => (Panic, w)
          | (OK pub, w) =>
              createLoop n' channelPoolSize (publishers ++ [pub]) w
          end
      end
  end.

(** The number of publishers [createPublishers] computes; [None] is a
    division by zero. *)
Definition numPublishers (maxChannelsPerConn channelPoolSize : Z) : option Z :=
  if decide (channelPoolSize = 0) then Some 1
  else
    q ← quo channelPoolSize maxChannelsPerConn;
    r ← rem channelPoolSize maxChannelsPerConn;
    Some (if decide (r > 0) then add q 1 else q).

(** [createPublishers], given [cfg.Publish.ChannelPoolSize]. *)
Definition createPublishers (maxChannelsPerConn channelPoolSize : Z) (w : W)
  : result (list P) * W :=
  match numPublishers maxChannelsPerConn channelPoolSize with
  | None => (Panic, w)
  | Some numPublishers =>
      match quo channelPoolSize numPublishers with
      | None => (Panic, w)
      | Some newChannelPoolSize =>
          createLoop (Z.to_nat numPublishers) newChannelPoolSize [] w
      end
  end.

End WithConnections.

(** [k] calls of [Publish] in a row: the publishers the messages were handed
    to, in order, and the pool afterwards. *)
Fixpoint publishMany {P} (fuel : nat) (k : nat) (p : publisherPool P)
  : option (list P * publisherPool P) :=
  match k with
  | O => Some ([], p)
  | S k' =>
      '(pub, p) ← Publish fuel p;
      '(rest, p) ← publishMany fuel k' p;
      Some (pub :: rest, p)
  end.

End publishers.

(** ** Deleting unpublished operations (package unpublished) *)

Module unpublishedops.

Import GoErr storage.

Section WithStore.

(** [Op] stands for [operation.AnchoredOperation], with its fields
    [UniqueSuffix] and [OperationRequest], and [CalculateModelMultihash] for
    [hashing.CalculateModelMultihash(_, sha2_256)]. *)
Context {S : Type} `{Store S} {Op Req : Type}
        (UniqueSuffix : Op -> string)
        (OperationRequest : Op -> Req)
        (CalculateModelMultihash : Req -> result string).

(** The loop of [DeleteAll]: one delete per operation, keyed by the
    multihash of its request; the first key that cannot be computed ends the
    loop. *)
Fixpoint deleteOperations (ops : list Op) : result (list Operation) :=
  match ops with
  | [] => OK []
  | op :: ops' =>
      match CalculateModelMultihash (OperationRequest op) with
      | Err err =>
          Err (Wrap ("failed to generate key for unpublished operation for suffix["
                       +:+ UniqueSuffix op +:+ "]") err)
      | Panic => Panic
      | OK key =>
          match deleteOperations ops' with
          | OK operations =>
              OK ({| Key := key; Value := None; PutOpts := None |} :: operations)
          | failure => failure
          end
      end
  end.

Definition DeleteAll (s : S) (ops : list Op) : result unit * S :=
  if decide (length ops = 0%nat) then (OK (), s)
  else
    match deleteOperations ops with
    | Err err => (Err err, s)
    | Panic => (Panic, s)
    | OK operations =>
        match Batch s operations with
        | (Some err, s) =>
            (Err (Transient (Wrap "failed to delete unpublished operations" err)), s)
        | (None, s) => (OK (), s)
        end
    end.

End WithStore.

(** A store whose every query hands out the same scripted iterator, for
    exercising the iterator failures of the unpublished operation store. *)
Record ScriptedStore := { script : Iterator }.

#[global] Instance ScriptedStore_Store : Store ScriptedStore := {
  Get s k := Err (Sentinel StorageErrDataNotFound);
  GetBulk s ks := OK ((fun _ => None) <$> ks);
  Batch s ops := (None, s);
  Query s q := OK (script s)
}.

End unpublishedops.

(** ** Out-of-system DIDs (package observer) *)

Module processdid.

Import GoErr observer.

(** [strings.LastIndex(s, sep)] for a separator [sep] of one byte [c]: the
    index of the last occurrence of [c] in [s], or -1. *)
Fixpoint LastIndex (s : string) (c : ascii) : Z :=
  match s with
  | EmptyString => -1
  | String a s' =>
      let i := LastIndex s' c in
      if decide (i >= 0) then i + 1
      else if decide (a = c) then 0 else -1
  end.

(** The slice expression [s[lo:hi]]. *)
Definition slice (s : string) (lo hi : Z) : string :=
  String.substring (Z.to_nat lo) (Z.to_nat (hi - lo)) s.

Definition getDidParts (did : string) : result (string * string) :=
  let pos := LastIndex did ":"%char in
  if decide (pos = -1) then
    Err (New ("invalid number of parts for did[" +:+ did +:+ "]"))
  else
    OK (slice did 0 pos, slice did (pos + 1) (Z.of_nat (String.length did))).

(** [graph.Anchor] *)
Record Anchor (VC : Type) := {
  CID : string;
  Info : VC
}.
Arguments CID {VC} _.
Arguments Info {VC} _.

Section WithProviders.

(** [GetDidAnchors] stands for [o.AnchorGraph.GetDidAnchors]. *)
Context {W VC PC PV URL : Type} (o : Providers W VC PC PV URL)
        (discoveryDomain : string)
        (GetDidAnchors : W -> string -> string -> result (list (Anchor VC)) * W).

(** The [for] loop of [processDID] over the anchors of the DID. *)
Fixpoint processAnchors (suffix : string) (anchors : list (Anchor VC))
  : M W unit :=
  match anchors with
  | [] => ret ()
  | anchor :: anchors' =>
      fun w =>
        match processAnchor o discoveryDomain
                {| Hashlink := CID anchor; LocalHashlink := "";
                   AttributedTo := "" |}
                (Info anchor) [suffix] w with
        | (Err err, w) =>
            if IsTransient err then
              (Err (Wrap ("process out-of-system anchor [" +:+ CID anchor +:+ "]")
                      err), w)
            else processAnchors suffix anchors' w
        | (Panic, w) => (Panic, w)
        | (OK _, w) => processAnchors suffix anchors' w
        end
  end.

Definition processDID (did : string) : M W unit :=
  match getDidParts did with
  | Err err => fail err
  | Panic => fun w => (Panic, w)
  | OK (cidWithHint, suffix) =>
      bind (fun w => GetDidAnchors w cidWithHint suffix)
        (fun anchors => processAnchors suffix anchors)
  end.

End WithProviders.

(** [GetDidAnchors] next to the recorded collaborators: the log is passed
    on untouched. *)
Definition recordedGetDidAnchors {W VC URL}
  (GetDidAnchors : W -> string -> string -> result (list (Anchor VC)) * W)
  : W * list (event VC URL) -> string -> string
    -> result (list (Anchor VC)) * (W * list (event VC URL)) :=
  fun s cid suffix =>
    let '(r, w') := GetDidAnchors (fst s) cid suffix in (r, (w', snd s)).

(** The number of anchors whose processing was begun, by the calls of
    [util.GetAnchorSubject] in the log. *)
Definition isSubjectCall {URL} (c : call URL) : bool :=
  match c with
  | CallGetAnchorSubject => true
  | _ => false
  end.

Definition begun {VC URL} (log : list (event VC URL)) : nat :=
  length (filter (fun ev => isSubjectCall (fst ev) = true) log).

End processdid.

(** ** The ActivityPub client and its iterators (package client) *)

Module client.

(** The errors of the client: [ErrNotFound], which the iterators return at
    the end and which callers test with [errors.Is]; a fresh error; a
    [fmt.Errorf("...: %w", e)] wrapper; and a transient error of package
    orberrors. *)
Inductive error :=
| ErrNotFound
| New (msg : string)
| Wrap (msg : string) (e : error)
| Transient (e : error).

(** [errors.Is(e, ErrNotFound)] *)
Fixpoint IsNotFound (e : error) : bool :=
  match e with
  | ErrNotFound => true
  | New _ => false
  | Wrap _ e' => IsNotFound e'
  | Transient e' => IsNotFound e'
  end.

(** [orberrors.IsTransient(e)]: a transient tag occurs on the [Unwrap]
    chain. *)
Fixpoint IsTransient (e : error) : bool :=
  match e with
  | ErrNotFound => false
  | New _ => false
  | Wrap _ e' => IsTransient e'
  | Transient _ => true
  end.

Inductive result (A : Type) :=
| OK (a : A)
| Err (e : error)
| Panic.
Arguments OK {A} _.
Arguments Err {A} _.
Arguments Panic {A}.

(** [Order] *)
Definition Forward : string := "forward".
Definition Reverse : string := "reverse".

(** An [*http.Response]: the status code and what [io.ReadAll(resp.Body)]
    yields. *)
Record Response := {
  StatusCode : Z;
  Body : result string
}.

(** A [*vocab.ObjectProperty]: its [IRI()] and its [Activity()], each of
    which may be [nil]. *)
Record ObjectProperty (A URL : Type) := {
  IRI : option URL;
  Activity : option A
}.
Arguments IRI {A URL} _.
Arguments Activity {A URL} _.

(** [page] *)
Record page (A URL : Type) := {
  items : list (ObjectProperty A URL);
  current : option URL;
  next : option URL;
  prev : option URL;
  pageTotalItems : Z
}.
Arguments items {A URL} _.
Arguments current {A URL} _.
Arguments next {A URL} _.
Arguments prev {A URL} _.
Arguments pageTotalItems {A URL} _.

(** [referenceIterator]; the context and the [get] function are those of
    the client. *)
Record referenceIterator (URL : Type) := {
  refTotalItems : Z;
  refCurrentItems : list (option URL);
  refCurrentIndex : Z;
  refNextPage : option URL
}.
Arguments refTotalItems {URL} _.
Arguments refCurrentItems {URL} _.
Arguments refCurrentIndex {URL} _.
Arguments refNextPage {URL} _.

(** [activityIterator]; the activities of a page are pointers, which may
    be [nil]. *)
Record activityIterator (A URL : Type) := {
  currentItems : list (option A);
  currentPage : option URL;
  nextPage : option URL;
  totalItems : Z;
  currentIndex : Z;
  numProcessed : Z;
  getNext : option URL -> option URL -> option URL;
  appendActivity : list (option A) -> option A -> list (option A)
}.
Arguments currentItems {A URL} _.
Arguments currentPage {A URL} _.
Arguments nextPage {A URL} _.
Arguments totalItems {A URL} _.
Arguments currentIndex {A URL} _.
Arguments numProcessed {A URL} _.
Arguments getNext {A URL} _.
Arguments appendActivity {A URL} _.

(** Indexing a slice: a negative or too large index is a run-time panic. *)
Definition index {T} (l : list T) (i : Z) : option T :=
  if decide (0 <= i) then l !! Z.to_nat i else None.

(** [len(s)] *)
Definition len {T} (l : list T) : Z := Z.of_nat (length l).

Section WithTransport.

(** [transportGet] stands for the [Get] of the HTTP transport, acting on
    the world [W] of servers; [unmarshalCollectionPage] parses a response
    body; [reverseSort] stands for the function of that name, a
    [sort.SliceStable] whose comparison looks at the indexes only. *)
Context {W A URL : Type}
        (urlString : URL -> string)
        (transportGet : W -> URL -> result Response * W)
        (unmarshalCollectionPage : string -> result (page A URL))
        (reverseSort : list (option A) -> list (option A)).

(** [Client.get] *)
Definition get (w : W) (iri : URL) : result string * W :=
  match transportGet w iri with
  | (Err err, w) =>
      (Err (Transient (Wrap ("transient http error: request to " +:+ urlString iri
                               +:+ " failed") err)), w)
  | (Panic, w) => (Panic, w)
  | (OK resp, w) =>
      if decide (StatusCode resp <> 200) then
        if decide (StatusCode resp >= 500) then
          (Err (Transient (New ("transient http error: status code "
                                  +:+ pretty (StatusCode resp) +:+ " from "
                                  +:+ urlString iri))), w)
        else
          (Err (New ("request to " +:+ urlString iri +:+ " returned status code "
                       +:+ pretty (StatusCode resp))), w)
      else
        match Body resp with
        | Err err =>
            (Err (Transient (Wrap ("transient http error: read response body from "
                                     +:+ urlString iri) err)), w)
        | Panic => (Panic, w)
        | OK respBytes => (OK respBytes, w)
        end
  end.

Definition newReferenceIterator (items : list (option URL))
  (nextPage : option URL) (totalItems : Z) : referenceIterator URL :=
  {| refTotalItems := totalItems; refCurrentItems := items;
     refCurrentIndex := 0; refNextPage := nextPage |}.

(** [referenceIterator.getNextPage]: the error, if any, and the iterator
    and the world afterwards. *)
Definition refGetNextPage (it : referenceIterator URL) (w : W)
  : result unit * referenceIterator URL * W :=
  match refNextPage it with
  | None => (Err ErrNotFound, it, w)
  | Some nextPage =>
      match get w nextPage with
      | (Err err, w) =>
          (Err (Wrap ("get references from " +:+ urlString nextPage) err), it, w)
      | (Panic, w) => (Panic, it, w)
      | (OK respBytes, w) =>
          match unmarshalCollectionPage respBytes with
          | Err err => (Err err, it, w)
          | Panic => (Panic, it, w)
          | OK page =>
              let refs :=
                foldl (fun refs item =>
                         match IRI item with
                         | Some iri => refs ++ [Some iri]
                         | None => refs
                         end) [] (items page) in
              let it := {| refTotalItems := refTotalItems it;
                           refCurrentItems := refs;
                           refCurrentIndex := 0;
                           refNextPage := next page |} in
              if decide (len (refCurrentItems it) = 0) then (Err ErrNotFound, it, w)
              else (OK (), it, w)
          end
      end
  end.

(** [referenceIterator.Next] *)
Definition refNext (it : referenceIterator URL) (w : W)
  : result (option URL) * referenceIterator URL * W :=
  let fetched :=
    if decide (refCurrentIndex it >= len (refCurrentItems it)) then
      refGetNextPage it w
    else (OK (), it, w) in
  match fetched with
  | (Err err, it, w) => (Err err, it, w)
  | (Panic, it, w) => (Panic, it, w)
  | (OK _, it, w) =>
      match index (refCurrentItems it) (refCurrentIndex it) with
      | None => (Panic, it, w)
      | Some item =>
          (OK item,
           {| refTotalItems := refTotalItems it;
              refCurrentItems := refCurrentItems it;
              refCurrentIndex := GoInt.add (refCurrentIndex it) 1;
              refNextPage := refNextPage it |}, w)
      end
  end.

Definition newActivityIterator (items : list (option A))
  (currentPage nextPage : option URL) (totalItems : Z)
  (getNext : option URL -> option URL -> option URL)
  (appendActivity : list (option A) -> option A -> list (option A))
  : activityIterator A URL :=
  {| currentItems := items; currentPage := currentPage; nextPage := nextPage;
     totalItems := totalItems; currentIndex := 0; numProcessed := 0;
     getNext := getNext; appendActivity := appendActivity |}.

Definition newForwardActivityIterator (items : list (option A))
  (currentPage nextPage : option URL) (totalItems : Z) : activityIterator A URL :=
  newActivityIterator items currentPage nextPage totalItems
    (fun next _ => next)
    (fun activities activity => activities ++ [activity]).

Definition newReverseActivityIterator (items : list (option A))
  (currentPage nextPage : option URL) (totalItems : Z) : activityIterator A URL :=
  newActivityIterator (reverseSort items) currentPage nextPage totalItems
    (fun _ prev => prev)
    (fun activities activity => [activity] ++ activities).

Definition CurrentPage (it : activityIterator A URL) : option URL :=
  currentPage it.

Definition NextIndex (it : activityIterator A URL) : Z := currentIndex it.

Definition TotalItems (it : activityIterator A URL) : Z := totalItems it.

Definition SetNextIndex (it : activityIterator A URL) (index : Z)
  : activityIterator A URL :=
  {| currentItems := currentItems it; currentPage := currentPage it;
     nextPage := nextPage it; totalItems := totalItems it;
     currentIndex := index;
     numProcessed :=
       GoInt.add (numProcessed it) (GoInt.sub index (currentIndex it));
     getNext := getNext it; appendActivity := appendActivity it |}.

(** [activityIterator.getNextPage] *)
Definition getNextPage (it : activityIterator A URL) (w : W)
  : result unit * activityIterator A URL * W :=
  match nextPage it with
  | None => (Err ErrNotFound, it, w)
  | Some nextPage =>
      match get w nextPage with
      | (Err err, w) =>
          (Err (Wrap ("get activities from " +:+ urlString nextPage) err), it, w)
      | (Panic, w) => (Panic, it, w)
      | (OK respBytes, w) =>
          match unmarshalCollectionPage respBytes with
          | Err err => (Err err, it, w)
          | Panic => (Panic, it, w)
          | OK page =>
              let activities :=
                foldl (fun activities item =>
                         match Activity item with
                         | Some a => appendActivity it activities (Some a)
                         | None => activities
                         end) [] (items page) in
              let it := {| currentItems := activities;
                           currentPage := current page;
                           nextPage := getNext it (next page) (prev page);
                           totalItems := totalItems it;
                           currentIndex := 0;
                           numProcessed := numProcessed it;
                           getNext := getNext it;
                           appendActivity := appendActivity it |} in
              if decide (len (currentItems it) = 0) then (Err ErrNotFound, it, w)
              else (OK (), it, w)
          end
      end
  end.

(** Adding to [numProcessed]. *)
Definition addProcessed (it : activityIterator A URL) (n : Z)
  : activityIterator A URL :=
  {| currentItems := currentItems it; currentPage := currentPage it;
     nextPage := nextPage it; totalItems := totalItems it;
     currentIndex := currentIndex it;
     numProcessed := GoInt.add (numProcessed it) n;
     getNext := getNext it; appendActivity := appendActivity it |}.

(** [activityIterator.NextPage] *)
Definition NextPage (it : activityIterator A URL) (w : W)
  : result (option URL) * activityIterator A URL * W :=
  let unprocessedCount := GoInt.sub (len (currentItems it)) (currentIndex it) in
  match getNextPage it w with
  | (Err err, it, w) =>
      if IsNotFound err then (Err err, addProcessed it unprocessedCount, w)
      else (Err err, it, w)
  | (Panic, it, w) => (Panic, it, w)
  | (OK _, it, w) =>
      let it := addProcessed it unprocessedCount in
      (OK (CurrentPage it), it, w)
  end.

(** [activityIterator.Next] *)
Definition Next (it : activityIterator A URL) (w : W)
  : result (option A) * activityIterator A URL * W :=
  if decide (numProcessed it >= totalItems it) then (Err ErrNotFound, it, w)
  else
    let fetched :=
      if decide (currentIndex it >= len (currentItems it)) then getNextPage it w
      else (OK (), it, w) in
    match fetched with
    | (Err err, it, w) => (Err err, it, w)
    | (Panic, it, w) => (Panic, it, w)
    | (OK _, it, w) =>
        match index (currentItems it) (currentIndex it) with
        | None => (Panic, it, w)
        | Some item =>
            (OK item,
             {| currentItems := currentItems it; currentPage := currentPage it;
                nextPage := nextPage it; totalItems := totalItems it;
                currentIndex := GoInt.add (currentIndex it) 1;
                numProcessed := GoInt.add (numProcessed it) 1;
                getNext := getNext it; appendActivity := appendActivity it |}, w)
        end
    end.

(** [n] calls of [Next] in a row, whatever they return: the activities
    handed out, in order.  A panic ends the run. *)
Fixpoint drain (n : nat) (it : activityIterator A URL) (w : W)
  : list (option A) :=
  match n with
  | O => []
  | S n' =>
      match Next it w with
      | (OK item, it, w) => item :: drain n' it w
      | (Err _, it, w) => drain n' it w
      | (Panic, _, _) => []
      end
  end.

End WithTransport.

End client.

(** ** A read-only IPFS node, for the examples *)

Module readonly.

Import GoErr ipfs.

(** A gateway that serves what it stores, refuses every [Add] the way a
    node without the command does, and refuses the connection for a content
    identifier it does not know. *)
Record ReadOnlyNode := { stored : gmap string string }.

#[global] Instance ReadOnlyNode_ipfsClient : ipfsClient ReadOnlyNode := {
  Add n content v1 := (Err (New "add: command not found"), n);
  Cat n cid :=
    match stored n !! cid with
    | Some content => OK (OK content)
    | None => Err (New "connection refused")
    end
}.

End readonly.

(** ** A server for the examples of the ActivityPub client *)

Module clientexample.

Import client.

(** A server with one page of activities at [/outbox?page=true&page-num=0];
    every other address answers 404.  The URL type is [string], activities
    are their identifiers, and a response body is the address of the page. *)
Definition pageURL : string := "https://orb.domain1.com/services/orb/outbox?page=true&page-num=0".

Definition transportGet (w : unit) (iri : string) : result Response * unit :=
  if decide (iri = pageURL) then
    (OK {| StatusCode := 200; Body := OK iri |}, w)
  else
    (OK {| StatusCode := 404; Body := OK "Not Found." |}, w).

Definition activity (id : string) : ObjectProperty string string :=
  {| IRI := None; Activity := Some id |}.

Definition unmarshalCollectionPage (respBytes : string)
  : result (page string string) :=
  if decide (respBytes = pageURL) then
    OK {| items := [activity "create-1"; {| IRI := Some "https://x"; Activity := None |};
                    activity "announce-2"; activity "like-3"];
          current := Some pageURL; next := None; prev := None;
          pageTotalItems := 3 |}
  else Err (New "expecting CollectionPage or OrderedCollectionPage in response payload").

(** Sorting a slice whose comparison looks at nothing but the indexes; only
    its value on the empty slice matters here. *)
Definition reverseSort (items : list (option string)) : list (option string) :=
  reverse items.

End clientexample.

(** * Properties *)

(** ** Machine integers *)

Lemma wrap64_id x : GoInt.is_int x -> GoInt.wrap64 x = x.
Proof.
  unfold GoInt.is_int, GoInt.MinInt64, GoInt.MaxInt64, GoInt.wrap64, GoInt.wrap.
  intros Hx.
  change (2 ^ (64 - 1)) with 9223372036854775808 in *.
  change (2 ^ 63) with 9223372036854775808 in *.
  change (2 ^ 64) with 18446744073709551616.
  rewrite Z.mod_small by lia. lia.
Qed.

Lemma wrap32_id x : GoInt.is_int32 x -> GoInt.wrap32 x = x.
Proof.
  unfold GoInt.is_int32, GoInt.MinInt32, GoInt.MaxInt32, GoInt.wrap32, GoInt.wrap.
  intros Hx.
  change (2 ^ (32 - 1)) with 2147483648 in *.
  change (2 ^ 31) with 2147483648 in *.
  change (2 ^ 32) with 4294967296.
  rewrite Z.mod_small by lia. lia.
Qed.

Lemma is_int_small x : 0 <= x <= GoInt.MaxInt64 -> GoInt.is_int x.
Proof.
  unfold GoInt.is_int, GoInt.MinInt64, GoInt.MaxInt64.
  change (2 ^ 63) with 9223372036854775808. lia.
Qed.

Lemma MaxInt64_val : GoInt.MaxInt64 = 9223372036854775807.
Proof. reflexivity. Qed.

Lemma MaxInt32_val : GoInt.MaxInt32 = 2147483647.
Proof. reflexivity. Qed.

(** ** Paging *)

Section PagingFacts.

Import GoInt Paging.

Lemma ceil_div_spec n p :
  0 < p -> (ceil_div n p - 1) * p < n <= ceil_div n p * p.
Proof.
  intros Hp. unfold ceil_div.
  pose proof (Z.div_mod (n + p - 1) p ltac:(lia)) as Hdm.
  pose proof (Z.mod_pos_bound (n + p - 1) p Hp) as Hb. nia.
Qed.

Lemma ceil_div_unique n p c :
  0 < p -> (c - 1) * p < n <= c * p -> c = ceil_div n p.
Proof.
  intros Hp Hc. pose proof (ceil_div_spec n p Hp) as Hs. nia.
Qed.

Lemma ceil_div_pos n p : 0 < n -> 0 < p -> 1 <= ceil_div n p <= n.
Proof.
  intros Hn Hp. pose proof (ceil_div_spec n p Hp) as Hs. nia.
Qed.

(** The branch both page-number functions share computes the ceiling of
    [n / p], minus one. *)
Lemma top_page_num n p :
  0 < n <= MaxInt64 -> 0 < p <= MaxInt64 ->
  (r ← rem n p;
   if decide (r > 0) then quo n p else q ← quo n p; Some (sub q 1))
  = Some (ceil_div n p - 1).
Proof.
  intros Hn Hp. unfold rem, quo, sub.
  rewrite !decide_False by lia. cbn.
  rewrite Z.quot_div_nonneg, Z.rem_mod_nonneg by lia.
  pose proof (Z.div_mod n p ltac:(lia)) as Hdm.
  pose proof (Z.mod_pos_bound n p ltac:(lia)) as Hb.
  assert (Hq : 0 <= n / p <= n).
  { split; [apply Z.div_pos; lia|]. apply Z.div_le_upper_bound; nia. }
  rewrite (wrap64_id (n / p)) by (apply is_int_small; lia).
  case_decide as Hr.
  - f_equal. assert (n / p + 1 = ceil_div n p); [|lia].
    apply ceil_div_unique; [lia|]. nia.
  - cbn. rewrite wrap64_id.
    + f_equal. assert (n / p = ceil_div n p); [|lia].
      apply ceil_div_unique; [lia|]. nia.
    + rewrite MaxInt64_val in *. unfold is_int, MinInt64, MaxInt64.
      change (2 ^ 63) with 9223372036854775808. lia.
Qed.

Lemma first_last_page_nums (N P : Z) :
  0 < N <= MaxInt64 -> 0 < P <= MaxInt64 ->
  getFirstPageNum N P SortAscending = Some 0 /\
  getLastPageNum N P SortAscending = Some (ceil_div N P - 1) /\
  getFirstPageNum N P SortDescending = Some (ceil_div N P - 1) /\
  getLastPageNum N P SortDescending = Some 0.
Proof.
  intros HN HP. unfold getFirstPageNum, getLastPageNum.
  repeat split; try reflexivity.
  - rewrite decide_False by discriminate. by apply top_page_num.
  - rewrite decide_False by discriminate. by apply top_page_num.
Qed.

(** C3: for a collection of N > 0 items and a page size P > 0, ascending
    order has first page 0 and last page ceil(N/P) - 1, and descending order
    has first page ceil(N/P) - 1 and last page 0, where ceil(N/P) is the
    least c with N <= c * P. *)
Theorem page_numbers_first_last (N P : Z) :
  0 < N <= MaxInt64 -> 0 < P <= MaxInt64 ->
  (ceil_div N P - 1) * P < N <= ceil_div N P * P /\
  getFirstPageNum N P SortAscending = Some 0 /\
  getLastPageNum N P SortAscending = Some (ceil_div N P - 1) /\
  getFirstPageNum N P SortDescending = Some (ceil_div N P - 1) /\
  getLastPageNum N P SortDescending = Some 0.
Proof.
  intros HN HP. split.
  - apply ceil_div_spec. lia.
  - by apply first_last_page_nums.
Qed.

Lemma page_numbers_first_last_witness :
  0 < 19 <= MaxInt64 /\ 0 < 4 <= MaxInt64 /\
  getFirstPageNum 19 4 SortAscending = Some 0 /\
  getLastPageNum 19 4 SortAscending = Some (ceil_div 19 4 - 1) /\
  getFirstPageNum 19 4 SortDescending = Some (ceil_div 19 4 - 1) /\
  getLastPageNum 19 4 SortDescending = Some 0.
Proof.
  assert (H19 : 0 < 19 <= MaxInt64) by (rewrite MaxInt64_val; lia).
  assert (H4 : 0 < 4 <= MaxInt64) by (rewrite MaxInt64_val; lia).
  split; [exact H19|]. split; [exact H4|].
  exact (proj2 (page_numbers_first_last 19 4 H19 H4)).
Defined.

Lemma queryPage_beyond {A} (items : list A) (P k : Z) (order : SortOrder) :
  0 < P -> ceil_div (Z.of_nat (length items)) P - 1 < k ->
  queryPage items {| PageNumber := k; PageSize := P; Order := order |} = [].
Proof.
  intros HP Hk. unfold queryPage. cbn.
  pose proof (ceil_div_spec (Z.of_nat (length items)) P HP) as Hs.
  assert (Hc : 0 <= ceil_div (Z.of_nat (length items)) P) by nia.
  destruct order.
  - rewrite decide_True by lia.
    rewrite drop_ge; [by rewrite take_nil|].
    assert (Z.of_nat (length items) <= k * P) by nia.
    apply Nat2Z.inj_le. rewrite Z2Nat.id by nia. lia.
  - rewrite (decide_True (P := k >= 0)) by lia. by rewrite decide_True by lia.
Qed.

(** C4 (as amended): a page number beyond the highest page of a non-empty
    collection yields a page with no items and the unchanged total.  In
    descending order that page has no [prev] link and its [next] link is the
    highest page, ceil(N/P) - 1, which is the first page of that order; in
    ascending order it has no [next] link and its [prev] link is the last
    page, ceil(N/P) - 1. *)
Theorem page_beyond_last {A} (items : list A) (P k : Z) (order : SortOrder) :
  0 < Z.of_nat (length items) <= MaxInt64 ->
  0 < P <= MaxInt64 ->
  ceil_div (Z.of_nat (length items)) P - 1 < k <= MaxInt64 ->
  exists page,
    getPage items {| PageNumber := k; PageSize := P; Order := order |} = Some page /\
    ID page = k /\
    OrderedItems page = [] /\
    TotalItems page = Z.of_nat (length items) /\
    match order with
    | SortDescending =>
        Prev page = None /\
        Next page = Some (ceil_div (Z.of_nat (length items)) P - 1)
    | SortAscending =>
        Prev page = Some (ceil_div (Z.of_nat (length items)) P - 1) /\
        Next page = None
    end.
Proof.
  intros HN HP Hk.
  destruct (first_last_page_nums _ _ HN HP) as (Hfa & Hla & Hfd & Hld).
  pose proof (ceil_div_pos _ _ (proj1 HN) (proj1 HP)) as Hc.
  pose proof (queryPage_beyond items P k order (proj1 HP) (proj1 Hk)) as Hq.
  unfold getPage. rewrite Hq.
  unfold getIDPrevNextURL, getCurrentPrevNext.
  cbn [PageNumber PageSize Order].
  destruct order.
  - rewrite Hfa, Hla. cbn [mbind option_bind].
    unfold getPrevNextAscending.
    rewrite (decide_True (P := k >= 0)) by lia.
    rewrite (decide_False (P := SortAscending = SortDescending)) by discriminate.
    rewrite (decide_False (P := k < _)) by lia.
    rewrite (decide_True (P := k > 0)) by lia.
    rewrite (decide_True (P := k > _)) by lia.
    cbn [mbind option_bind].
    rewrite (decide_True (P := _ - 1 >= 0)) by lia.
    rewrite (decide_False (P := -1 >= 0)) by lia.
    eexists. split; [reflexivity|]. by cbn.
  - rewrite Hfd, Hld. cbn [mbind option_bind].
    unfold getPrevNextDescending.
    rewrite (decide_True (P := k >= 0)) by lia.
    rewrite (decide_True (P := SortDescending = SortDescending)) by reflexivity.
    rewrite (decide_True (P := k > 0)) by lia.
    rewrite (decide_True (P := k > _)) by lia.
    rewrite (decide_False (P := k < _)) by lia.
    cbn [mbind option_bind].
    rewrite (decide_False (P := -1 >= 0)) by lia.
    rewrite (decide_True (P := _ - 1 >= 0)) by lia.
    eexists. split; [reflexivity|]. by cbn.
Qed.

(** The 19 items of the paging scenarios. *)
Lemma page_beyond_last_witness :
  exists page,
    getPage (seq 0 19) {| PageNumber := 30; PageSize := 4; Order := SortDescending |}
      = Some page /\
    ID page = 30 /\
    OrderedItems page = [] /\
    TotalItems page = 19 /\
    Prev page = None /\
    Next page = Some (ceil_div 19 4 - 1).
Proof.
  apply (page_beyond_last (seq 0 19) 4 30 SortDescending).
  - rewrite MaxInt64_val. cbn. lia.
  - rewrite MaxInt64_val. lia.
  - split; vm_compute; [reflexivity | discriminate].
Defined.

(** The scenarios on the inbox of 19 items with pages of 4, descending: the
    first page is page 4 and holds items 18 to 15; page 30 is empty, has no
    [prev] and its [next] is page 4. *)
Example inbox_first_page :
  getPage (seq 0 19) {| PageNumber := -1; PageSize := 4; Order := SortDescending |}
  = Some {| ID := 4; Prev := None; Next := Some 3; TotalItems := 19;
            OrderedItems := [18; 17; 16; 15]%nat |}.
Proof. reflexivity. Qed.

Example inbox_page_too_large :
  getPage (seq 0 19) {| PageNumber := 30; PageSize := 4; Order := SortDescending |}
  = Some {| ID := 30; Prev := None; Next := Some 4; TotalItems := 19;
            OrderedItems := [] |}.
Proof. reflexivity. Qed.

(** C4, counterexample: in ascending order page 30 of the same collection
    does carry a [prev] link (to page 4) and carries no [next] link. *)
Lemma page_beyond_last_ascending :
  getPage (seq 0 19) {| PageNumber := 30; PageSize := 4; Order := SortAscending |}
  = Some {| ID := 30; Prev := Some 4; Next := None; TotalItems := 19;
            OrderedItems := [] |}.
Proof. reflexivity. Qed.

End PagingFacts.

(** ** The round-robin balancer *)

Section BalancerFacts.

Import GoInt amqp.

(** One pass through the loop body suffices when no other goroutine touches
    the counter: the compare-and-swap finds the value just stored. *)
Lemma nextIndex_unfold fuel r :
  nextIndex (S fuel) r =
  let i := add32 (current r) 1 in
  if decide (i > max r) then Some (0, {| max := max r; current := 0 |})
  else Some (i, {| max := max r; current := i |}).
Proof.
  cbn [nextIndex]. cbv zeta. cbn [current max].
  case_decide; [|reflexivity].
  unfold CompareAndSwapInt32.
  by rewrite decide_True by reflexivity.
Qed.

Lemma reachable_inv m r :
  0 <= m < MaxInt32 -> reachable m r -> max r = m /\ 0 <= current r <= m.
Proof.
  intros Hm Hr. induction Hr as [|r fuel i r' Hr IH Hstep].
  - cbn. lia.
  - destruct IH as [IHm IHc]. destruct fuel as [|fuel]; [discriminate|].
    rewrite nextIndex_unfold in Hstep. cbv zeta in Hstep.
    rewrite MaxInt32_val in Hm.
    unfold add32 in Hstep. rewrite wrap32_id in Hstep.
    2:{ unfold is_int32, MinInt32, MaxInt32.
        change (2 ^ 31) with 2147483648. lia. }
    case_decide; simplify_eq; cbn; lia.
Qed.

Lemma poolReachable_inv {P} (pubs : list P) m p :
  0 <= m < MaxInt32 -> Z.of_nat (length pubs) = m + 1 ->
  poolReachable pubs p ->
  publishers p = pubs /\
  ((publish p = publishDirect /\ m = 0) \/
   exists lb, publish p = publishBalanced lb /\ reachable m lb).
Proof.
  intros Hm Hlen Hp. induction Hp as [|p fuel pub p' Hp IH Hstep].
  - unfold newPublisherPool. case_decide as Hone; cbn.
    + split; [done|]. left. split; [done|lia].
    + split; [done|]. right. eexists. split; [reflexivity|].
      unfold sub. rewrite wrap64_id.
      * replace (Z.of_nat (length pubs) - 1) with m by lia. constructor.
      * rewrite MaxInt32_val in Hm.
        unfold is_int, MinInt64, MaxInt64.
        change (2 ^ 63) with 9223372036854775808. lia.
  - destruct IH as [IHp IHsel]. unfold Publish in Hstep.
    destruct IHsel as [[Hd Hm0]|(lb & Hb & Hlb)].
    + rewrite Hd in Hstep. destruct (index (publishers p) 0); simplify_eq/=.
      split; [done|]. by left.
    + rewrite Hb in Hstep.
      destruct (nextIndex fuel lb) as [[i lb']|] eqn:Hnext; simplify_eq/=.
      destruct (index (publishers p) i); simplify_eq/=.
      split; [done|]. right. eexists. split; [reflexivity|].
      by eapply reachable_next.
Qed.

(** C10 (as amended): for a balancer created with 0 <= max < 2^31 - 1, run
    by one goroutine at a time, every call of [nextIndex] returns, and
    returns an index i with 0 <= i <= max; hence a pool of max + 1 publishers
    always hands the message to one of its publishers. *)
Theorem round_robin_in_range (m : Z) :
  0 <= m < MaxInt32 ->
  (forall r fuel, reachable m r -> (0 < fuel)%nat ->
     exists i r', nextIndex fuel r = Some (i, r') /\ 0 <= i <= m) /\
  (forall (P : Type) (pubs : list P) p fuel,
     Z.of_nat (length pubs) = m + 1 -> poolReachable pubs p -> (0 < fuel)%nat ->
     exists pub p', Publish fuel p = Some (pub, p') /\ pub ∈ pubs).
Proof.
  intros Hm.
  assert (Hnext : forall r fuel, reachable m r -> (0 < fuel)%nat ->
            exists i r', nextIndex fuel r = Some (i, r') /\ 0 <= i <= m).
  { intros r fuel Hr Hfuel. destruct fuel as [|fuel]; [lia|].
    destruct (reachable_inv m r Hm Hr) as [Hmax Hcur].
    rewrite nextIndex_unfold. cbv zeta.
    rewrite MaxInt32_val in Hm.
    unfold add32. rewrite wrap32_id.
    2:{ unfold is_int32, MinInt32, MaxInt32.
        change (2 ^ 31) with 2147483648. lia. }
    case_decide; do 2 eexists; (split; [reflexivity|lia]). }
  split; [exact Hnext|].
  intros P pubs p fuel Hlen Hp Hfuel.
  destruct (poolReachable_inv pubs m p Hm Hlen Hp) as [Hpubs Hsel].
  unfold Publish.
  assert (Hidx : forall i, 0 <= i <= m ->
            exists pub, index (publishers p) i = Some pub /\ pub ∈ pubs).
  { intros i Hi. unfold index. rewrite decide_True by lia. rewrite Hpubs.
    destruct (lookup_lt_is_Some_2 pubs (Z.to_nat i)) as [pub Hpub]; [lia|].
    exists pub. split; [done|]. by eapply list_elem_of_lookup_2. }
  destruct Hsel as [[Hd _]|(lb & Hb & Hlb)].
  - rewrite Hd. destruct (Hidx 0 ltac:(lia)) as (pub & -> & Hin).
    by do 2 eexists.
  - rewrite Hb. destruct (Hnext lb fuel Hlb Hfuel) as (i & lb' & -> & Hi).
    cbn. destruct (Hidx i Hi) as (pub & -> & Hin). cbn.
    by do 2 eexists.
Qed.

Lemma round_robin_in_range_witness :
  0 <= 2 < MaxInt32 /\
  (exists i r', nextIndex 1 (newRoundRobin 2) = Some (i, r') /\ 0 <= i <= 2) /\
  (exists pub p',
     Publish 1 (newPublisherPool ["a"; "b"; "c"]) = Some (pub, p') /\
     pub ∈ ["a"; "b"; "c"]).
Proof.
  assert (H2 : 0 <= 2 < MaxInt32) by (rewrite MaxInt32_val; lia).
  split; [exact H2|]. split.
  - apply (proj1 (round_robin_in_range 2 H2)); [constructor | lia].
  - apply (proj2 (round_robin_in_range 2 H2) string ["a"; "b"; "c"]);
      [reflexivity | constructor | lia].
Defined.

(** While the counter stays within [max] it simply counts up. *)
Lemma reachable_count_up (m : Z) (k : nat) :
  Z.of_nat k <= m -> Z.of_nat k <= MaxInt32 ->
  reachable m {| max := m; current := Z.of_nat k |}.
Proof.
  induction k as [|k IH]; intros Hk Hk32.
  - apply reachable_new.
  - eapply (reachable_next m _ 1%nat); [apply IH; lia|].
    rewrite nextIndex_unfold. cbv zeta. cbn [current max].
    rewrite MaxInt32_val in Hk32.
    unfold add32. rewrite wrap32_id.
    2:{ unfold is_int32, MinInt32, MaxInt32.
        change (2 ^ 31) with 2147483648. lia. }
    rewrite decide_False by lia. do 3 f_equal. lia.
Qed.

(** C10, counterexample: with max = 2^31 - 1 the counter reaches 2^31 - 1,
    and the next call wraps around and returns the negative index -2^31. *)
Lemma round_robin_overflow :
  exists r,
    reachable 2147483647 r /\
    nextIndex 1 r
    = Some (-2147483648, {| max := 2147483647; current := -2147483648 |}).
Proof.
  exists {| max := 2147483647; current := 2147483647 |}. split.
  - pose proof (reachable_count_up 2147483647 (Z.to_nat 2147483647)) as H.
    rewrite Z2Nat.id in H by lia. apply H; [lia|].
    rewrite MaxInt32_val. lia.
  - rewrite nextIndex_unfold. reflexivity.
Qed.

End BalancerFacts.

(** ** The DID/anchor index and the unpublished operation store *)

Section StoreFacts.

Import GoErr storage.

Context {S : Type} `{Store S}.

Lemma hintedOperations_zip (suffixes : list string) (areNew : list bool) cid :
  (length suffixes <= length areNew)%nat ->
  didanchor.hintedOperations suffixes areNew cid =
  Some (zip_with
          (fun suffix isNew =>
             {| Key := suffix; Value := Some cid;
                PutOpts := Some {| IsNewKey := isNew |} |})
          suffixes areNew).
Proof.
  revert areNew. induction suffixes as [|suffix suffixes IH];
    intros areNew Hlen; [reflexivity|].
  destruct areNew as [|isNew areNew]; cbn in Hlen; [lia|].
  cbn. rewrite IH by lia. reflexivity.
Qed.

Lemma fillAnchors_default (anchors : list string) (anchorBytes : list (option string)) :
  length anchorBytes = length anchors ->
  didanchor.fillAnchors anchors anchorBytes = Some (default "" <$> anchorBytes).
Proof.
  revert anchors. induction anchorBytes as [|a anchorBytes IH];
    intros anchors Hlen.
  - by destruct anchors.
  - destruct anchors as [|? anchors]; [done|]. cbn.
    rewrite IH by (cbn in Hlen; lia). by destruct a.
Qed.

(** C7 (as amended): [Get] turns the storage layer's not-found sentinel
    into [didanchor.ErrDataNotFound] and any other storage error into a
    transient error.  [GetBulk] does not report a missing suffix: it returns
    one anchor per suffix, the empty string where the store has none, and
    turns a storage error into a transient error. *)
Theorem did_anchor_reads (s : S) :
  (forall suffix err,
     storage.Get s suffix = Err err -> Is err StorageErrDataNotFound = true ->
     didanchor.Get s suffix = Err (Sentinel DidAnchorErrDataNotFound)) /\
  (forall suffix err,
     storage.Get s suffix = Err err -> Is err StorageErrDataNotFound = false ->
     exists e, didanchor.Get s suffix = Err e /\ IsTransient e = true) /\
  (forall suffix anchor,
     storage.Get s suffix = OK anchor -> didanchor.Get s suffix = OK anchor) /\
  (forall suffixes anchorBytes,
     storage.GetBulk s suffixes = OK anchorBytes ->
     length anchorBytes = length suffixes ->
     didanchor.GetBulk s suffixes = OK (default "" <$> anchorBytes)) /\
  (forall suffixes err,
     storage.GetBulk s suffixes = Err err ->
     exists e, didanchor.GetBulk s suffixes = Err e /\ IsTransient e = true).
Proof.
  repeat split.
  - intros suffix err Hget His. unfold didanchor.Get. by rewrite Hget, His.
  - intros suffix err Hget His. unfold didanchor.Get. rewrite Hget, His.
    eexists. by split.
  - intros suffix anchor Hget. unfold didanchor.Get. by rewrite Hget.
  - intros suffixes anchorBytes Hget Hlen. unfold didanchor.GetBulk.
    rewrite Hget, fillAnchors_default; [done|].
    by rewrite length_replicate.
  - intros suffixes err Hget. unfold didanchor.GetBulk. rewrite Hget.
    eexists. by split.
Qed.


Lemma collect_all {Op} (unmarshal : string -> result Op) suffix
  (values : list string) (ops : list Op) value op acc :
  unmarshal value = OK op ->
  Forall2 (fun v o => unmarshal v = OK o) values ops ->
  unpublished.collect unmarshal suffix (OK value)
    ((fun v => Entry (OK v)) <$> values) acc
  = OK (acc ++ op :: ops).
Proof.
  intros Hop Hall. revert value op acc Hop.
  induction Hall as [|v o values ops Hv Hall IH]; intros value op acc Hop.
  - cbn. by rewrite Hop.
  - cbn. rewrite Hop. rewrite (IH v o (acc ++ [op]) Hv).
    by rewrite <- app_assoc.
Qed.

Lemma collect_nonempty {Op} (unmarshal : string -> result Op) suffix
  rest value acc ops :
  unpublished.collect unmarshal suffix value rest acc = OK ops -> ops <> [].
Proof.
  revert value acc. induction rest as [|st rest IH]; intros value acc Hc.
  - cbn in Hc. destruct value as [v| |]; try discriminate.
    destruct (unmarshal v); try discriminate.
    simplify_eq. by destruct acc.
  - cbn in Hc. destruct value as [v| |]; try discriminate.
    destruct (unmarshal v); try discriminate.
    destruct st as [e|value']; [discriminate|]. by eapply IH.
Qed.

(** C9 (as amended): [Get] never returns an empty list.  When the query
    yields the stored operations tagged with the suffix, [Get] returns all of
    them, in order; when it yields none, [Get] fails with a fresh error that
    only carries the message that the suffix was not found: the error wraps
    no sentinel and is not transient. *)
Theorem unpublished_get {Op} (unmarshal : string -> result Op) (s : S)
  (suffix : string) :
  (forall ops, unpublished.Get unmarshal s suffix = OK ops -> ops <> []) /\
  (forall values ops,
     Query s ("uniqueSuffix:" +:+ suffix) = OK ((fun v => Entry (OK v)) <$> values) ->
     Forall2 (fun v o => unmarshal v = OK o) values ops ->
     match ops with
     | [] =>
         exists e,
           unpublished.Get unmarshal s suffix = Err e /\
           e = New ("suffix[" +:+ suffix
                      +:+ "] not found in the unpublished operation store") /\
           (forall target, Is e target = false) /\
           IsTransient e = false
     | _ :: _ => unpublished.Get unmarshal s suffix = OK ops
     end).
Proof.
  split.
  - intros ops. unfold unpublished.Get.
    destruct (Query s _) as [iter| |]; try discriminate.
    destruct iter as [|[e|value] rest]; cbn.
    + discriminate.
    + discriminate.
    + destruct (unpublished.collect unmarshal suffix value rest [])
        as [ops'| |] eqn:Hc; try discriminate.
      case_decide; [discriminate|]. intros; simplify_eq.
      by eapply collect_nonempty.
  - intros values ops Hq Hall. unfold unpublished.Get.
    change (unpublished.index +:+ ":" +:+ suffix)
      with ("uniqueSuffix:" +:+ suffix).
    rewrite Hq. destruct Hall as [|v o values ops Hv Hall].
    + cbn. eexists. split; [reflexivity|]. by repeat split.
    + cbn [fmap list_fmap].
      rewrite (collect_all unmarshal suffix values ops v o [] Hv Hall).
      cbn. reflexivity.
Qed.

End StoreFacts.

(** *** The stores on an in-memory back-end *)

Section StoreExamples.

Import GoErr storage.

Lemma did_anchor_reads_witness :
  didanchor.Get didanchor.index1 "suffix2" = Err (Sentinel DidAnchorErrDataNotFound) /\
  didanchor.Get didanchor.index1 "suffix1" = OK "hl:anchor1" /\
  didanchor.GetBulk didanchor.index1 ["suffix1"; "suffix2"] = OK ["hl:anchor1"; ""].
Proof.
  destruct (did_anchor_reads didanchor.index1) as (Hnf & _ & Hok & Hbulk & _).
  split; [|split].
  - apply (Hnf "suffix2" (Sentinel StorageErrDataNotFound)); reflexivity.
  - apply (Hok "suffix1" "hl:anchor1"). reflexivity.
  - apply (Hbulk ["suffix1"; "suffix2"] [Some "hl:anchor1"; None]); reflexivity.
Defined.

(** C7, counterexample: a bulk read of a suffix that is absent from the
    index succeeds and yields the empty string for it; it does not fail with
    [didanchor.ErrDataNotFound]. *)
Lemma get_bulk_missing_suffix :
  didanchor.Get didanchor.index1 "suffix2" = Err (Sentinel DidAnchorErrDataNotFound) /\
  didanchor.GetBulk didanchor.index1 ["suffix2"] = OK [""].
Proof. split; reflexivity. Qed.


Lemma unpublished_get_witness :
  unpublished.Get OK unpublished.unpublished1 "suffix1" = OK ["op1"; "op2"].
Proof.
  apply (proj2 (unpublished_get OK unpublished.unpublished1 "suffix1") ["op1"; "op2"] ["op1"; "op2"]).
  - reflexivity.
  - repeat constructor.
Defined.

(** C9, counterexample: for a suffix without operations [Get] fails with an
    error that is a bare message; it is not, and does not wrap, a
    data-not-found sentinel. *)
Lemma unpublished_get_not_found :
  exists e,
    unpublished.Get (Op := string) OK unpublished.unpublished1 "suffix2" = Err e /\
    e = New "suffix[suffix2] not found in the unpublished operation store" /\
    Is e StorageErrDataNotFound = false /\
    Is e DidAnchorErrDataNotFound = false.
Proof. eexists. repeat split; reflexivity. Qed.

End StoreExamples.

(** ** The observer *)

Section ObserverFacts.

Import GoErr observer.

Context {W VC PC PV URL : Type} (o : Providers W VC PC PV URL).
Context (discoveryDomain : string).

Abbreviation St := (W * list (event VC URL))%type.

Lemma sameTags_refl e : sameTags e e.
Proof. by split. Qed.

Lemma sameTags_wrap msg e e0 : sameTags e e0 -> sameTags (Wrap msg e) e0.
Proof. intros [Ht Hs]. by split. Qed.

(** *** Computations that only serve the [Like] *)

Lemma quiet_ret {A} (a : A) : quiet (W := W) (VC := VC) (URL := URL) (ret a).
Proof. intros s. exists []. cbn. by rewrite app_nil_r. Qed.

Lemma quiet_fail {A} e : quiet (W := W) (VC := VC) (URL := URL) (A := A) (fail e).
Proof. intros s. exists []. cbn. by rewrite app_nil_r. Qed.

Lemma quiet_bind {A B} (m : M St A) (k : A -> M St B) :
  quiet m -> (forall a, quiet (k a)) -> quiet (bind m k).
Proof.
  intros Hm Hk s. destruct (Hm s) as (ext1 & Hlog1 & Hall1).
  unfold bind. destruct (m s) as [[a|e|] s1]; cbn in *.
  - destruct (Hk a s1) as (ext2 & Hlog2 & Hall2).
    exists (ext1 ++ ext2). rewrite Hlog2, Hlog1, app_assoc.
    split; [done|]. by apply Forall_app.
  - by exists ext1.
  - by exists ext1.
Qed.

Lemma quiet_wrapf {A} msg (m : M St A) : quiet m -> quiet (wrapf msg m).
Proof.
  intros Hm s. destruct (Hm s) as (ext & Hlog & Hall).
  unfold wrapf. destruct (m s) as [[a|e|] s1]; by exists ext.
Qed.

Lemma quiet_recording {A} c (inj : A -> value VC URL) (f : W -> result A * W) :
  isLikeCall c = true -> quiet (recording c inj f).
Proof.
  intros Hc s. unfold recording. destruct (f s.1) as [r w1]. cbn.
  eexists. split; [reflexivity|]. by repeat constructor.
Qed.

Lemma quiet_doPostLikeActivity to refURL result :
  quiet (doPostLikeActivity (Recorded o) to refURL result).
Proof.
  intros s. unfold doPostLikeActivity. cbn [Now Recorded PublicIRI].
  destruct (Now o s.1) as [t w1].
  match goal with
  | |- context [wrapf ?msg ?m ?s1] =>
      destruct (quiet_wrapf msg m) with (s := s1) as (ext & Hlog & Hall)
  end.
  - apply quiet_bind; [|intros; apply quiet_ret].
    cbn [OutboxPost Recorded]. by apply quiet_recording.
  - by exists ext.
Qed.

Lemma quiet_resolveActorFromHashlink hl :
  quiet (resolveActorFromHashlink (Recorded o) hl).
Proof.
  unfold resolveActorFromHashlink.
  apply quiet_bind; [apply quiet_wrapf; by apply quiet_recording|].
  intros [vcBytes ?].
  apply quiet_bind; [apply quiet_wrapf; by apply quiet_recording|].
  intros vc. apply quiet_bind; [by apply quiet_recording|].
  intros [attributedTo|]; [|apply quiet_fail].
  apply quiet_bind; [apply quiet_wrapf; by apply quiet_recording|].
  intros hml.
  apply quiet_bind; [apply quiet_wrapf; by apply quiet_recording|].
  intros actor. apply quiet_ret.
Qed.

Lemma quiet_postLikeActivity anchor :
  quiet (postLikeActivity (Recorded o) anchor).
Proof.
  unfold postLikeActivity. case_decide; [apply quiet_ret|].
  apply quiet_bind; [apply quiet_wrapf; by apply quiet_recording|].
  intros refURL.
  apply quiet_bind; [apply quiet_wrapf; by apply quiet_recording|].
  intros attributedTo. apply quiet_bind.
  { case_decide; [|apply quiet_ret].
    apply quiet_bind; [apply quiet_wrapf; by apply quiet_recording|].
    intros u. apply quiet_ret. }
  intros result.
  apply quiet_bind; [apply quiet_wrapf, quiet_doPostLikeActivity|].
  intros _.
  apply quiet_bind; [apply quiet_wrapf, quiet_resolveActorFromHashlink|].
  intros originActor. case_decide; [apply quiet_ret|].
  apply quiet_wrapf, quiet_doPostLikeActivity.
Qed.

(** *** Computations that return the errors of the other calls *)

Lemma faithful_ret {A} (a : A) : faithful (W := W) (VC := VC) (URL := URL) (ret a).
Proof.
  intros s. exists []. cbn. rewrite app_nil_r. split; [done|].
  intros ev e Hin. by apply not_elem_of_nil in Hin.
Qed.

Lemma faithful_bind {A B} (m : M St A) (k : A -> M St B) :
  faithful m -> (forall a, faithful (k a)) -> faithful (bind m k).
Proof.
  intros Hm Hk s. destruct (Hm s) as (ext1 & Hlog1 & Hres1).
  unfold bind. destruct (m s) as [[a|e|] s1]; cbn in *.
  - destruct (Hk a s1) as (ext2 & Hlog2 & Hres2).
    exists (ext1 ++ ext2). rewrite Hlog2, Hlog1, app_assoc. split; [done|].
    destruct (k a s1) as [[b|e|] s2]; cbn in *.
    + intros ev e [Hin|Hin]%elem_of_app; eauto.
    + destruct Hres2 as (c & e0 & Hlast & Hc & Htags).
      exists c, e0. split; [|done].
      destruct ext2 as [|ev ext2] using rev_ind; [done|].
      rewrite app_assoc, last_snoc. by rewrite last_snoc in Hlast.
    + intros ev e [Hin|Hin]%elem_of_app; eauto.
  - by exists ext1.
  - by exists ext1.
Qed.

Lemma faithful_wrapf {A} msg (m : M St A) : faithful m -> faithful (wrapf msg m).
Proof.
  intros Hm s. destruct (Hm s) as (ext & Hlog & Hres).
  unfold wrapf. destruct (m s) as [[a|e|] s1]; cbn in *; exists ext;
    (split; [done|]); [done| |done].
  destruct Hres as (c & e0 & Hlast & Hc & Htags).
  exists c, e0. by auto using sameTags_wrap.
Qed.

Lemma faithful_recording {A} c (inj : A -> value VC URL) (f : W -> result A * W) :
  isLikeCall c = false -> faithful (recording c inj f).
Proof.
  intros Hc s. unfold recording. destruct (f s.1) as [r w1]. cbn.
  eexists. split; [reflexivity|]. destruct r as [a|e|]; cbn.
  - intros ev e ->%list_elem_of_singleton. by cbn.
  - exists c, e. by auto using sameTags_refl.
  - intros ev e ->%list_elem_of_singleton. by cbn.
Qed.

Lemma faithful_logged (m : M St unit) : quiet m -> faithful (logged m).
Proof.
  intros Hm s. destruct (Hm s) as (ext & Hlog & Hall).
  unfold logged. exists ext.
  assert (Hlike : forall ev (e : error),
            ev ∈ ext -> failure ev = Some e -> isLikeCall ev.1 = true).
  { intros ev e Hin _. by eapply Forall_forall in Hall. }
  destruct (m s) as [[a|e|] s1]; cbn in *; by split.
Qed.

Lemma faithful_processAnchor anchor info suffixes :
  faithful (processAnchor (Recorded o) discoveryDomain anchor info suffixes).
Proof.
  unfold processAnchor.
  apply faithful_bind; [apply faithful_wrapf; by apply faithful_recording|].
  intros anchorPayload.
  apply faithful_bind; [apply faithful_wrapf; by apply faithful_recording|].
  intros pc.
  apply faithful_bind; [apply faithful_wrapf; by apply faithful_recording|].
  intros v.
  apply faithful_bind; [apply faithful_wrapf; by apply faithful_recording|].
  intros canonicalID. cbv zeta.
  apply faithful_bind; [apply faithful_wrapf; by apply faithful_recording|].
  intros _.
  apply faithful_bind; [apply faithful_wrapf; by apply faithful_recording|].
  intros _.
  apply faithful_bind; [apply faithful_logged, quiet_postLikeActivity|].
  intros _. apply faithful_ret.
Qed.

Lemma faithful_handleAnchor anchor :
  faithful (handleAnchor (Recorded o) discoveryDomain anchor).
Proof.
  unfold handleAnchor.
  apply faithful_bind; [by apply faithful_recording|].
  intros anchorInfo.
  apply faithful_bind; [apply faithful_processAnchor|].
  intros _. apply faithful_ret.
Qed.

(** C5 (as amended): when [handleAnchor] returns an error, the last call it
    made is a failing call of reading or materialising the anchor (none of
    the calls made to post the [Like]), and the error returned carries the
    tags of that call's error, so the message is negatively acknowledged
    exactly when that error is transient.  Otherwise every call that failed
    was made to post the [Like]: such errors, transient ones included, are
    logged and not returned, and the message is positively acknowledged. *)
Theorem handle_anchor_errors (anchor : AnchorInfo) (w : W) :
  exists r w' log,
    handleAnchor (Recorded o) discoveryDomain anchor (w, []) = (r, (w', log)) /\
    match r with
    | Err e =>
        exists c e0,
          last log = Some (c, Err e0) /\ isLikeCall c = false /\
          IsTransient e = IsTransient e0 /\
          (forall target, Is e target = Is e0 target) /\
          acknowledge r = (if IsTransient e0 then Nack else Ack)
    | _ =>
        (forall ev e, ev ∈ log -> failure ev = Some e -> isLikeCall (fst ev) = true) /\
        acknowledge r = Ack
    end.
Proof.
  destruct (faithful_handleAnchor anchor (w, [])) as (ext & Hlog & Hres).
  destruct (handleAnchor (Recorded o) discoveryDomain anchor (w, []))
    as [r [w' log]] eqn:Hrun.
  cbn in Hlog, Hres. subst log. exists r, w', ext. split; [done|].
  destruct r as [a|e|]; [done| |done].
  destruct Hres as (c & e0 & Hlast & Hc & Htr & Hs).
  exists c, e0. repeat split; try done. cbn. by rewrite Htr.
Qed.



End ObserverFacts.

Section ObserverExamples.

Import GoErr observer.

(** C5, counterexample: the outbox fails with a transient error while the
    [Like] is posted; [handleAnchor] still returns no error, so the message
    is positively acknowledged and not redelivered. *)
Lemma like_error_not_returned :
  exists log like e,
    handleAnchor (Recorded (exampleProviders true)) "" exampleAnchor (tt, [])
    = (OK (), (tt, log)) /\
    last log = Some (CallOutboxPost like, Err e) /\
    IsTransient e = true /\
    acknowledge (fst (handleAnchor (Recorded (exampleProviders true)) ""
                        exampleAnchor (tt, []))) = Ack.
Proof. do 3 eexists. repeat split; vm_compute; reflexivity. Qed.


End ObserverExamples.

(** ** The IPFS CAS client *)

Section IpfsFacts.

Import GoErr ipfs.

Context {N : Type} `{ipfsClient N} `{Codec}.




End IpfsFacts.

Section IpfsExamples.

Import GoErr ipfs.



End IpfsExamples.

(** ** The walk over the anchor graph *)

Section WalkFacts.

Import GoErr credential.

Context (isAnchorProcessed : string -> result bool)
        (resolveAnchor : string -> result (list string)).

Abbreviation parent := (parent isAnchorProcessed resolveAnchor).
Abbreviation walkInv := (walkInv isAnchorProcessed resolveAnchor).
Abbreviation topological := (topological isAnchorProcessed resolveAnchor).
Abbreviation visited := (visited isAnchorProcessed resolveAnchor).
Abbreviation visitedAll := (visitedAll isAnchorProcessed resolveAnchor).

Lemma walkInv_nil : walkInv [].
Proof.
  split; [constructor|]. split.
  - intros l1 x l2 Heq. by destruct l1.
  - intros x Hx. by apply not_elem_of_nil in Hx.
Qed.

Lemma visited_skip acc hl :
  walkInv acc -> (isAnchorProcessed hl = OK false -> hl ∈ acc) ->
  visited acc hl acc.
Proof.
  intros Hinv Hin. exists []. rewrite app_nil_r.
  split; [done|]. split; [done|]. split; [done|]. split; [|by left].
  intros x Hx. by apply not_elem_of_nil in Hx.
Qed.

Lemma visitAll_spec (v : list string -> string -> result (list string)) :
  (forall acc hl out, v acc hl = OK out -> walkInv acc -> visited acc hl out) ->
  forall refs acc out,
    visitAll v refs acc = OK out -> walkInv acc -> visitedAll acc refs out.
Proof.
  intros Hv refs. induction refs as [|ref refs IH]; intros acc out Hall Hinv.
  - cbn in Hall. simplify_eq. exists []. rewrite app_nil_r.
    split; [done|]. split; [done|]. split; [|split; [|by left]].
    + intros u Hu. by apply not_elem_of_nil in Hu.
    + intros x Hx. by apply not_elem_of_nil in Hx.
  - cbn in Hall. destruct (v acc ref) as [mid| |] eqn:Hvisit; try discriminate.
    destruct (Hv _ _ _ Hvisit Hinv)
      as (ext1 & -> & Hinv1 & Hin1 & Hreach1 & Hlast1).
    destruct (IH _ _ Hall Hinv1)
      as (ext2 & -> & Hinv2 & Hin2 & Hreach2 & Hlast2).
    exists (ext1 ++ ext2). rewrite app_assoc.
    split; [done|]. split; [done|]. split; [|split].
    + intros u [->|Hu]%elem_of_cons Hun; [|by auto].
      apply elem_of_app. left. by apply Hin1.
    + intros x [Hx|Hx]%elem_of_app.
      * destruct (Hreach1 x Hx) as [Hun Hrtc].
        exists ref. split; [by left|]. by split.
      * destruct (Hreach2 x Hx) as (u & Hu & Hun & Hrtc).
        exists u. split; [by right|]. by split.
    + destruct Hlast2 as [->|(u & Hu & Hlast2)].
      * rewrite app_nil_r. destruct Hlast1 as [->|Hlast1]; [by left|].
        right. exists ref. split; [by left|done].
      * right. exists u. split; [by right|].
        destruct ext2 as [|e ext2 _] using rev_ind; [done|].
        rewrite app_assoc, last_snoc. by rewrite last_snoc in Hlast2.
Qed.

Lemma tc_parent_inv x z :
  tc parent x z -> exists u, parent x u /\ rtc parent u z.
Proof.
  intros Htc. destruct Htc as [x z Hp|x u z Hp Htc].
  - exists z. by split.
  - exists u. split; [done|]. by apply tc_rtc.
Qed.

Lemma visit_step acc hl ups mid :
  walkInv acc -> hl ∉ acc ->
  isAnchorProcessed hl = OK false -> resolveAnchor hl = OK ups ->
  visitedAll acc ups mid ->
  visited acc hl (mid ++ [hl]).
Proof.
  intros Hinv Hin Hproc Hres
    (ext & -> & (Hnd & Htopo & Hun) & Hin' & Hreach & Hlast).
  assert (Hups : forall u, parent hl u -> u ∈ acc ++ ext).
  { intros u (_ & Hu & ups' & Hres' & Hin''). rewrite Hres in Hres'.
    simplify_eq. by apply Hin'. }
  assert (Hcyc : ~ tc parent hl hl).
  { intros (u & Hp & Hrtc)%tc_parent_inv.
    destruct (Hun u (Hups u Hp)) as [_ Hacyc]. apply Hacyc.
    eapply tc_rtc_l; [exact Hrtc|]. by apply tc_once. }
  assert (Hparent : forall u, u ∈ ups -> isAnchorProcessed u = OK false ->
            parent hl u).
  { intros u Hu Hunu. split; [done|]. split; [done|]. by exists ups. }
  assert (Hfresh : hl ∉ acc ++ ext).
  { intros [Hacc|Hext]%elem_of_app; [done|].
    destruct (Hreach hl Hext) as (u & Hu & Hunu & Hrtc). apply Hcyc.
    eapply tc_rtc_r; [|exact Hrtc]. apply tc_once. by apply Hparent. }
  exists (ext ++ [hl]). rewrite app_assoc.
  split; [done|]. split; [|split; [|split]].
  - split; [|split].
    + apply NoDup_app. split; [done|]. split; [|apply NoDup_singleton].
      intros x Hx ->%list_elem_of_singleton. done.
    + intros l1 x l2 Heq u Hp.
      destruct l2 as [|y l2 _] using rev_ind.
      * apply app_inj_tail in Heq as [<- <-]. by apply Hups.
      * rewrite app_comm_cons, app_assoc in Heq.
        apply app_inj_tail in Heq as [Heq <-]. by eapply Htopo.
    + intros x [Hx|Hx%list_elem_of_singleton]%elem_of_app;
        [by apply Hun|by subst].
  - intros _. apply elem_of_app. right. by left.
  - intros x [Hx|Hx%list_elem_of_singleton]%elem_of_app; [|by subst].
    split; [done|].
    destruct (Hreach x Hx) as (u & Hu & Hunu & Hrtc).
    eapply rtc_l; [|exact Hrtc]. by apply Hparent.
  - right. by rewrite last_snoc.
Qed.

Lemma visit_spec depth acc hl out :
  visit isAnchorProcessed resolveAnchor depth acc hl = OK out ->
  walkInv acc -> visited acc hl out.
Proof.
  revert acc hl out. induction depth as [|depth IH]; intros acc hl out Hvisit Hinv.
  - cbn in Hvisit. case_decide as Hin.
    { simplify_eq. by apply visited_skip. }
    destruct (negb _); [discriminate|].
    destruct (isAnchorProcessed hl) as [[|]| |] eqn:Hproc; try discriminate.
    simplify_eq. apply visited_skip; [done|]. by rewrite Hproc.
  - cbn in Hvisit. case_decide as Hin.
    { simplify_eq. by apply visited_skip. }
    destruct (negb _); [discriminate|].
    destruct (isAnchorProcessed hl) as [[|]| |] eqn:Hproc; try discriminate.
    { simplify_eq. apply visited_skip; [done|]. by rewrite Hproc. }
    destruct (resolveAnchor hl) as [ups| |] eqn:Hres; try discriminate.
    destruct (visitAll _ ups acc) as [mid| |] eqn:Hall; try discriminate.
    simplify_eq. eapply visit_step; try done.
    by eapply visitAll_spec.
Qed.

Lemma visitAll_total (v : list string -> string -> result (list string))
  (refs : list string) :
  (forall acc ref, ref ∈ refs -> exists out, v acc ref = OK out) ->
  forall acc, exists out, visitAll v refs acc = OK out.
Proof.
  induction refs as [|ref refs IH]; intros Hv acc; [by eexists|].
  cbn. destruct (Hv acc ref) as [mid ->]; [by left|].
  apply IH. intros acc' ref' Hin. apply Hv. by right.
Qed.

Lemma visit_total (rank : string -> nat) (maxDepth depth : nat) acc hl :
  wellFormed isAnchorProcessed resolveAnchor rank maxDepth ->
  (depth <= maxDepth)%nat -> (rank hl < depth)%nat ->
  exists out, visit isAnchorProcessed resolveAnchor depth acc hl = OK out.
Proof.
  intros Hwf. revert acc hl.
  induction depth as [|depth IH]; intros acc hl Hle Hrank; [lia|].
  destruct (Hwf hl ltac:(lia)) as (Hprefix & b & Hproc & Hups).
  cbn. case_decide; [by eexists|].
  rewrite Hprefix, Hproc. cbn. destruct b; [by eexists|].
  destruct (Hups eq_refl) as (ups & -> & Hlower).
  destruct (visitAll_total
              (visit isAnchorProcessed resolveAnchor depth) ups) with (acc := acc)
    as [mid ->]; [|by eexists].
  intros acc' u Hu. apply IH; [lia|]. specialize (Hlower u Hu). lia.
Qed.

Lemma topological_closed l x u :
  topological l -> x ∈ l -> parent x u -> u ∈ l.
Proof.
  intros Htopo (l1 & l2 & ->)%list_elem_of_split Hp.
  apply elem_of_app. left. by eapply Htopo.
Qed.

Lemma ancestor_unprocessed r x :
  processedClosed isAnchorProcessed resolveAnchor ->
  indexTotal isAnchorProcessed ->
  rtc (refersTo resolveAnchor) r x ->
  isAnchorProcessed x = OK false ->
  isAnchorProcessed r = OK false /\ rtc parent r x.
Proof.
  intros Hclosed Htotal Hrtc Hx.
  induction Hrtc as [x|r y x (ups & Hres & Hin) Hrtc IH]; [done|].
  destruct (IH Hx) as [Hy Hpath].
  destruct (Htotal r) as [[|] Hr].
  - rewrite (Hclosed r ups y Hr Hres Hin) in Hy. discriminate.
  - split; [done|]. eapply rtc_l; [|exact Hpath].
    split; [done|]. split; [done|]. by exists ups.
Qed.

Lemma parent_refersTo x u : parent x u -> refersTo resolveAnchor x u.
Proof. by intros (_ & _ & Hrefs). Qed.

(** C1: when the walk returns, it returns exactly the unprocessed ancestors
    (the unprocessed anchors reached from the [up] references through
    unprocessed anchors; with an index that is closed under ancestors these
    are all the ancestors that are unprocessed), each hashlink once, however
    often a reference is repeated, in reverse topological order: every
    unprocessed parent of an entry stands before it, and the last entry is
    one of the [up] references, a direct parent.  And the walk does return
    when the anchors within the depth bound are well formed: hashlinks whose
    index lookup and resolution succeed and whose references descend in
    rank. *)
Theorem unprocessed_parents_walk (maxDepth : nat) (hl : string)
  (up : list string) :
  (forall out,
     getUnprocessedParentAnchors isAnchorProcessed resolveAnchor maxDepth hl up
     = OK out ->
     NoDup out /\
     (forall x, x ∈ out <->
                unprocessedAncestor isAnchorProcessed resolveAnchor up x) /\
     topological out /\
     (out <> [] -> exists u, u ∈ up /\ last out = Some u) /\
     (processedClosed isAnchorProcessed resolveAnchor ->
      indexTotal isAnchorProcessed ->
      forall x, x ∈ out <->
                ancestor resolveAnchor up x /\ isAnchorProcessed x = OK false)) /\
  (forall rank,
     wellFormed isAnchorProcessed resolveAnchor rank maxDepth ->
     (forall r, r ∈ up -> (rank r < maxDepth)%nat) ->
     exists out,
       getUnprocessedParentAnchors isAnchorProcessed resolveAnchor maxDepth hl up
       = OK out).
Proof.
  split.
  - intros out Hwalk. unfold getUnprocessedParentAnchors in Hwalk.
    destruct (visitAll_spec _ (visit_spec maxDepth) _ _ _ Hwalk walkInv_nil)
      as (ext & Hout & (Hnd & Htopo & Hun) & Hin & Hreach & Hlast).
    cbn in Hout. subst ext.
    assert (Hexact : forall x, x ∈ out <->
              unprocessedAncestor isAnchorProcessed resolveAnchor up x).
    { intros x. split; [by apply Hreach|].
      intros (r & Hr & Hunr & Hrtc).
      assert (Hrout : r ∈ out) by by apply Hin.
      clear Hr Hunr. induction Hrtc as [x|r y x Hp Hrtc IH]; [done|].
      apply IH. by eapply topological_closed. }
    split; [done|]. split; [done|]. split; [done|]. split.
    + intros Hne. by destruct Hlast.
    + intros Hclosed Htotal x. rewrite Hexact. split.
      * intros (r & Hr & Hunr & Hrtc). split.
        -- exists r. split; [done|].
           eapply rtc_subrel; [|exact Hrtc]. apply parent_refersTo.
        -- destruct (rtc_inv_r _ _ Hrtc) as [->|(y & _ & Hp)]; [done|].
           by destruct Hp as (_ & Hx & _).
      * intros [(r & Hr & Hrtc) Hx].
        destruct (ancestor_unprocessed r x Hclosed Htotal Hrtc Hx).
        by exists r.
  - intros rank Hwf Hup. unfold getUnprocessedParentAnchors.
    apply visitAll_total. intros acc ref Href.
    eapply visit_total; [done|lia|by apply Hup].
Qed.

End WalkFacts.

Section WalkExamples.

Import GoErr credential.

(** The handler's tests: with nothing processed, the anchor's parent and
    grandparent are returned, grandparent first; a repeated reference yields
    one entry. *)
Example two_parents_unprocessed :
  getUnprocessedParentAnchors testProcessed testResolve 2 "hl:uEiAnchor"
    [testParentHL]
  = OK [testGrandparentHL; testParentHL].
Proof. vm_compute. reflexivity. Qed.

Example duplicate_parents :
  getUnprocessedParentAnchors testProcessed testResolve 2 "hl:uEiAnchor"
    [testGrandparentHL; testGrandparentHL]
  = OK [testGrandparentHL].
Proof. vm_compute. reflexivity. Qed.

Lemma testGraph_wellFormed : wellFormed testProcessed testResolve testRank 2.
Proof.
  intros x Hx. unfold testRank in Hx.
  destruct (decide (x = testParentHL)) as [->|Hp].
  - split; [by vm_compute|]. exists false. split; [done|]. intros _.
    exists [testGrandparentHL]. split; [by vm_compute|].
    intros u ->%list_elem_of_singleton. vm_compute. lia.
  - destruct (decide (x = testGrandparentHL)) as [->|Hg]; [|lia].
    split; [by vm_compute|]. exists false. split; [done|]. intros _.
    exists []. split; [by vm_compute|].
    intros u Hu. by apply not_elem_of_nil in Hu.
Qed.

Lemma unprocessed_parents_walk_witness :
  getUnprocessedParentAnchors testProcessed testResolve 2 "hl:uEiAnchor"
    [testParentHL; testParentHL]
  = OK [testGrandparentHL; testParentHL] /\
  NoDup [testGrandparentHL; testParentHL] /\
  topological testProcessed testResolve [testGrandparentHL; testParentHL] /\
  (exists u, u ∈ [testParentHL; testParentHL] /\
             last [testGrandparentHL; testParentHL] = Some u) /\
  (exists out,
     getUnprocessedParentAnchors testProcessed testResolve 2 "hl:uEiAnchor"
       [testParentHL; testParentHL] = OK out).
Proof.
  assert (Hwalk :
    getUnprocessedParentAnchors testProcessed testResolve 2 "hl:uEiAnchor"
      [testParentHL; testParentHL]
    = OK [testGrandparentHL; testParentHL]) by (vm_compute; reflexivity).
  destruct (unprocessed_parents_walk testProcessed testResolve 2 "hl:uEiAnchor"
              [testParentHL; testParentHL]) as [Hsound Htotal].
  destruct (Hsound _ Hwalk) as (Hnd & _ & Htopo & Hlast & _).
  split; [exact Hwalk|]. split; [exact Hnd|]. split; [exact Htopo|].
  split; [by apply Hlast|].
  apply (Htotal testRank testGraph_wellFormed).
  intros r Hr. apply elem_of_cons in Hr as [->|Hr].
  - vm_compute. lia.
  - apply list_elem_of_singleton in Hr as ->. vm_compute. lia.
Defined.

End WalkExamples.

(** ** The life cycle of a service *)

Section LifecycleFacts.

Import lifecycle.

Context {W : Type}.

Lemma run_app (r1 r2 : list request) (h : Lifecycle W) w :
  run (r1 ++ r2) h w = run r2 (fst (run r1 h w)) (snd (run r1 h w)).
Proof.
  unfold run. rewrite foldl_app. by destruct (foldl serve (h, w) r1).
Qed.

Lemma Start_not_started (h : Lifecycle W) w :
  state h = StateNotStarted ->
  Start h w = (StoreState h StateStarted, start (opts h) w).
Proof.
  intros Hs. unfold Start, CompareAndSwapUint32.
  by rewrite decide_True by done.
Qed.

Lemma Start_other (h : Lifecycle W) w :
  state h <> StateNotStarted -> Start h w = (StoreState h (state h), w).
Proof.
  intros Hs. unfold Start, CompareAndSwapUint32.
  by rewrite decide_False by done.
Qed.

Lemma Stop_started (h : Lifecycle W) w :
  state h = StateStarted ->
  Stop h w = (StoreState h StateStopped, stop (opts h) w).
Proof.
  intros Hs. unfold Stop, CompareAndSwapUint32.
  by rewrite decide_True by done.
Qed.

Lemma Stop_other (h : Lifecycle W) w :
  state h <> StateStarted -> Stop h w = (StoreState h (state h), w).
Proof.
  intros Hs. unfold Stop, CompareAndSwapUint32.
  by rewrite decide_False by done.
Qed.

Lemma run_stopped (requests : list request) (h : Lifecycle W) w :
  state h = StateStopped ->
  run requests h w = (StoreState h StateStopped, w).
Proof.
  unfold run. revert h. induction requests as [|r requests IH]; intros h Hs.
  - cbn. destruct h; cbn in *. by subst.
  - cbn [foldl]. destruct r; cbn [serve fst snd].
    + rewrite Start_other by (by rewrite Hs). rewrite IH by done.
      by rewrite Hs.
    + rewrite Stop_other by (by rewrite Hs). rewrite IH by done.
      by rewrite Hs.
Qed.

Lemma run_started (requests : list request) (h : Lifecycle W) w :
  state h = StateStarted ->
  run requests h w =
  if bool_decide (DoStop ∈ requests)
  then (StoreState h StateStopped, stop (opts h) w)
  else (StoreState h StateStarted, w).
Proof.
  unfold run. revert h. induction requests as [|r requests IH]; intros h Hs.
  - cbn. destruct h; cbn in *. by subst.
  - cbn [foldl]. destruct r; cbn [serve fst snd].
    + rewrite Start_other by (by rewrite Hs). rewrite IH by done. rewrite Hs.
      rewrite (bool_decide_ext (DoStop ∈ DoStart :: requests) (DoStop ∈ requests)).
      * reflexivity.
      * rewrite elem_of_cons. split; [intros [?|?]; [done|done] | by right].
    + rewrite Stop_started by done.
      rewrite bool_decide_eq_true_2 by left.
      apply (run_stopped requests (StoreState h StateStopped)). reflexivity.
Qed.

Lemma run_not_started (requests : list request) (h : Lifecycle W) w :
  state h = StateNotStarted -> DoStart ∉ requests ->
  run requests h w = (StoreState h StateNotStarted, w).
Proof.
  unfold run. revert h. induction requests as [|r requests IH]; intros h Hs Hno.
  - cbn. destruct h; cbn in *. by subst.
  - apply not_elem_of_cons in Hno as [Hr Hno].
    destruct r; [done|]. cbn [foldl serve fst snd].
    rewrite Stop_other by (by rewrite Hs).
    rewrite IH; [by rewrite Hs | done | done].
Qed.

(** X1: The first [Start] of a sequence of calls on a new service runs the
    start function; the first [Stop] after it runs the stop function; every
    other call does nothing.  So the start function runs at most once, the
    stop function at most once and only after the start function, and a
    stopped service is not started again. *)
Theorem lifecycle_run (name : string) (os : list (Opt W))
    (requests : list request) (w : W) :
  let h := New name os in
  let h' := fst (run requests h w) in
  let w' := snd (run requests h w) in
  opts h' = opts h /\
  (((DoStart ∉ requests) /\ State h' = StateNotStarted /\ w' = w) \/
   exists pre post,
     requests = pre ++ DoStart :: post /\ (DoStart ∉ pre) /\
     if bool_decide (DoStop ∈ post)
     then State h' = StateStopped /\ w' = stop (opts h) (start (opts h) w)
     else State h' = StateStarted /\ w' = start (opts h) w).
Proof.
  intros h.
  assert (Hh : state h = StateNotStarted) by reflexivity.
  destruct (decide (DoStart ∈ requests)) as [Hin|Hno].
  - apply list_elem_of_split_l in Hin as (pre & post & -> & Hpre).
    rewrite run_app, (run_not_started pre h w Hh Hpre).
    cbn [fst snd]. change (DoStart :: post) with ([DoStart] ++ post).
    rewrite run_app. cbn [run foldl serve fst snd].
    rewrite Start_not_started by reflexivity. cbn [fst snd].
    rewrite run_started by reflexivity. cbn [opts StoreState].
    split.
    + by destruct (bool_decide _).
    + right. exists pre, post. split; [done|]. split; [done|].
      by destruct (bool_decide _).
  - rewrite (run_not_started requests h w Hh Hno). cbn.
    split; [done|]. by left.
Qed.

(** X2: Once a service is stopped, no sequence of [Start] and [Stop] calls
    changes its state or runs its start or stop function. *)
Theorem lifecycle_stopped_final (h : Lifecycle W) (requests : list request)
    (w : W) :
  State h = StateStopped ->
  State (fst (run requests h w)) = StateStopped /\
  opts (fst (run requests h w)) = opts h /\
  snd (run requests h w) = w.
Proof.
  intros Hs. by rewrite (run_stopped requests h w Hs).
Qed.

End LifecycleFacts.

Lemma lifecycle_stopped_final_witness :
  let h := fst (lifecycle.run [lifecycle.DoStart; lifecycle.DoStop]
                  (lifecycle.New "svc"
                     [lifecycle.WithStart (fun n => n + 1);
                      lifecycle.WithStop (fun n => n + 10)]) 0) in
  lifecycle.State h = lifecycle.StateStopped /\
  lifecycle.State (fst (lifecycle.run [lifecycle.DoStart; lifecycle.DoStop] h 11))
  = lifecycle.StateStopped /\
  snd (lifecycle.run [lifecycle.DoStart; lifecycle.DoStop] h 11) = 11.
Proof.
  cbv zeta. split; [reflexivity|].
  pose proof (lifecycle_stopped_final
                (fst (lifecycle.run [lifecycle.DoStart; lifecycle.DoStop]
                        (lifecycle.New "svc"
                           [lifecycle.WithStart (fun n => n + 1);
                            lifecycle.WithStop (fun n => n + 10)]) 0))
                [lifecycle.DoStart; lifecycle.DoStop] 11 eq_refl) as (H1 & _ & H3).
  split; [exact H1 | exact H3].
Defined.

(** ** Page identifiers and page links *)

Section PageLinkFacts.

Import GoInt Paging resthandler.

(** The page, [prev] and [next] of a request for a page number that is not
    beyond the top page [ceil (N / P) - 1]. *)
Lemma links_in_range (N P pageNum : Z) :
  0 < N <= MaxInt64 -> 0 < P <= MaxInt64 -> pageNum <= ceil_div N P - 1 ->
  let top := ceil_div N P - 1 in
  getIDPrevNextURL N {| PageNumber := pageNum; PageSize := P; Order := SortAscending |}
  = (let cur := if decide (pageNum >= 0) then pageNum else 0 in
     Some (cur,
           if decide (cur > 0) then Some (cur - 1) else None,
           if decide (cur < top) then Some (cur + 1) else None)) /\
  getIDPrevNextURL N {| PageNumber := pageNum; PageSize := P; Order := SortDescending |}
  = (let cur := if decide (pageNum >= 0) then pageNum else top in
     Some (cur,
           if decide (cur < top) then Some (cur + 1) else None,
           if decide (cur > 0) then Some (cur - 1) else None)).
Proof.
  intros HN HP Hk top.
  destruct (first_last_page_nums N P HN HP) as (Hfa & Hla & Hfd & Hld).
  pose proof (ceil_div_pos N P ltac:(lia) ltac:(lia)) as Hc.
  assert (Hint : forall x, -1 <= x <= N -> wrap64 x = x).
  { intros x Hx. apply wrap64_id. rewrite MaxInt64_val in *.
    unfold is_int, MinInt64, MaxInt64.
    change (2 ^ 63) with 9223372036854775808. lia. }
  unfold getIDPrevNextURL, getCurrentPrevNext.
  cbn [PageNumber PageSize Order]. rewrite Hfa, Hla, Hfd, Hld.
  cbn [mbind option_bind]. fold top.
  rewrite (decide_False (P := SortAscending = SortDescending)) by discriminate.
  rewrite (decide_True (P := SortDescending = SortDescending)) by reflexivity.
  unfold getPrevNextAscending, getPrevNextDescending, add, sub.
  split; cbv zeta.
  - destruct (decide (pageNum >= 0)) as [Hp|Hp]; cbn [mbind option_bind];
      repeat case_decide; rewrite ?Hint in * by (subst top; lia);
      try reflexivity; try lia.
  - destruct (decide (pageNum >= 0)) as [Hp|Hp]; cbn [mbind option_bind];
      repeat case_decide; rewrite ?Hint in * by (subst top; lia);
      try reflexivity; try lia.
Qed.

Lemma reverse_seqZ_S (k : nat) :
  reverse (seqZ 0 (Z.of_nat (S k))) = Z.of_nat k :: reverse (seqZ 0 (Z.of_nat k)).
Proof. by rewrite seqZ_S, reverse_app. Qed.

(** Following the links that lead to lower page numbers. *)
Lemma follow_down (N P : Z) (k fuel : nat) :
  0 < N <= MaxInt64 -> 0 < P <= MaxInt64 ->
  Z.of_nat k <= ceil_div N P - 1 -> (k < fuel)%nat ->
  follow false fuel N P SortAscending (Z.of_nat k)
  = Some (reverse (seqZ 0 (Z.of_nat (S k)))) /\
  follow true fuel N P SortDescending (Z.of_nat k)
  = Some (reverse (seqZ 0 (Z.of_nat (S k)))).
Proof.
  intros HN HP. revert fuel.
  induction k as [|k IH]; intros fuel Hk Hfuel;
    (destruct fuel as [|fuel]; [lia|]); cbn [follow];
    destruct (links_in_range N P _ HN HP Hk) as [-> ->]; cbv zeta;
    rewrite !(decide_True (P := Z.of_nat _ >= 0)) by lia; cbn [mbind option_bind].
  - rewrite !(decide_False (P := Z.of_nat 0 > 0)) by lia. done.
  - rewrite !(decide_True (P := Z.of_nat (S k) > 0)) by lia.
    replace (Z.of_nat (S k) - 1) with (Z.of_nat k) by lia.
    destruct (IH fuel ltac:(lia) ltac:(lia)) as [-> ->]. cbn [mbind option_bind].
    by rewrite (reverse_seqZ_S (S k)).
Qed.

(** Following the links that lead to higher page numbers, [d] pages below
    the top page. *)
Lemma follow_up (N P : Z) (d fuel : nat) (k : Z) :
  0 < N <= MaxInt64 -> 0 < P <= MaxInt64 ->
  0 <= k -> k + Z.of_nat d = ceil_div N P - 1 -> (d < fuel)%nat ->
  follow true fuel N P SortAscending k = Some (seqZ k (Z.of_nat (S d))) /\
  follow false fuel N P SortDescending k = Some (seqZ k (Z.of_nat (S d))).
Proof.
  intros HN HP. revert fuel k.
  induction d as [|d IH]; intros fuel k Hk0 Hk Hfuel;
    (destruct fuel as [|fuel]; [lia|]); cbn [follow];
    destruct (links_in_range N P k HN HP ltac:(lia)) as [-> ->]; cbv zeta;
    rewrite !(decide_True (P := k >= 0)) by lia; cbn [mbind option_bind].
  - rewrite !(decide_False (P := k < _)) by lia. done.
  - rewrite !(decide_True (P := k < _)) by lia.
    destruct (IH fuel (k + 1) ltac:(lia) ltac:(lia) ltac:(lia)) as [-> ->].
    cbn [mbind option_bind].
    rewrite (seqZ_cons k (Z.of_nat (S (S d)))) by lia.
    by replace (Z.pred (Z.of_nat (S (S d)))) with (Z.of_nat (S d)) by lia.
Qed.

(** X3: For a collection of N > 0 items and a page size P > 0, following the
    [next] links from the first page (requested without a page number) visits
    every page exactly once: pages 0, 1, ..., ceil(N/P) - 1 in ascending order
    and ceil(N/P) - 1, ..., 1, 0 in descending order.  Following the [prev]
    links from the last page visits the same pages in the opposite order. *)
Theorem page_links_chain (N P : Z) (fuel : nat) :
  0 < N <= MaxInt64 -> 0 < P <= MaxInt64 ->
  ceil_div N P <= Z.of_nat fuel ->
  let pages := seqZ 0 (ceil_div N P) in
  follow true fuel N P SortAscending (-1) = Some pages /\
  follow true fuel N P SortDescending (-1) = Some (reverse pages) /\
  follow false fuel N P SortAscending (ceil_div N P - 1) = Some (reverse pages) /\
  follow false fuel N P SortDescending 0 = Some pages.
Proof.
  intros HN HP Hfuel pages.
  pose proof (ceil_div_pos N P ltac:(lia) ltac:(lia)) as Hc.
  set (t := Z.to_nat (ceil_div N P - 1)).
  assert (Ht : Z.of_nat t = ceil_div N P - 1) by (subst t; lia).
  assert (Hpages : pages = seqZ 0 (Z.of_nat (S t))).
  { subst pages. f_equal. lia. }
  destruct (follow_up N P t fuel 0 HN HP ltac:(lia) ltac:(lia) ltac:(lia))
    as [Hup1 Hup2].
  destruct (follow_down N P t fuel HN HP ltac:(lia) ltac:(lia)) as [Hdn1 Hdn2].
  rewrite Ht in Hdn1, Hdn2. rewrite Hpages.
  split; [|split; [|split]]; try done.
  - rewrite <- Hup1. destruct fuel as [|fuel]; [lia|]. cbn [follow].
    destruct (links_in_range N P (-1) HN HP ltac:(lia)) as [-> _].
    destruct (links_in_range N P 0 HN HP ltac:(lia)) as [-> _].
    done.
  - rewrite <- Hdn2. destruct fuel as [|fuel]; [lia|]. cbn [follow].
    destruct (links_in_range N P (-1) HN HP ltac:(lia)) as [_ ->].
    destruct (links_in_range N P (ceil_div N P - 1) HN HP ltac:(lia)) as [_ ->].
    cbv zeta. rewrite (decide_False (P := -1 >= 0)) by lia.
    by rewrite (decide_True (P := ceil_div N P - 1 >= 0)) by lia.
Qed.

(** X4: Two page numbers give the same page identifier exactly when they are
    equal or both negative: a negative page number yields the identifier
    without a [page-num] parameter, and non-negative page numbers yield
    pairwise different identifiers. *)
Theorem page_id_distinct (objectIRI : string) (k1 k2 : Z) :
  getPageID objectIRI k1 = getPageID objectIRI k2 <->
  (k1 = k2 \/ (k1 < 0 /\ k2 < 0)).
Proof.
  unfold getPageID, pageParam, pageNumParam.
  set (delimiter := if Contains objectIRI "?" then "&" else "?").
  split.
  - intros Heq. repeat case_decide; [|exfalso|exfalso|right; lia].
    + left.
      do 6 apply String.app_inj in Heq.
      by apply (inj pretty) in Heq.
    + do 3 apply String.app_inj in Heq. discriminate.
    + do 3 apply String.app_inj in Heq. discriminate.
  - intros [->|[H1 H2]]; [done|].
    by rewrite !decide_False by lia.
Qed.

End PageLinkFacts.

Lemma page_links_chain_witness :
  resthandler.follow true 4 10 3 Paging.SortAscending (-1) = Some [0; 1; 2; 3] /\
  resthandler.follow true 4 10 3 Paging.SortDescending (-1) = Some [3; 2; 1; 0] /\
  resthandler.follow false 4 10 3 Paging.SortAscending 3 = Some [3; 2; 1; 0] /\
  resthandler.follow false 4 10 3 Paging.SortDescending 0 = Some [0; 1; 2; 3].
Proof.
  apply (page_links_chain 10 3 4); vm_compute; (split || idtac); congruence.
Defined.

(** ** Creating and using the publishers of the pool *)

Section PublisherFacts.

Import GoInt GoErr Paging amqp publishers.

Lemma nextIndex_mod (fuel : nat) (m c : Z) :
  0 <= m < MaxInt32 -> 0 <= c <= m ->
  nextIndex (S fuel) {| max := m; current := c |}
  = Some ((c + 1) mod (m + 1), {| max := m; current := (c + 1) mod (m + 1) |}).
Proof.
  intros Hm Hc. rewrite nextIndex_unfold. cbv zeta. cbn [current max].
  rewrite MaxInt32_val in Hm.
  unfold add32. rewrite wrap32_id.
  2:{ unfold is_int32, MinInt32, MaxInt32.
      change (2 ^ 31) with 2147483648. lia. }
  case_decide.
  - replace (c + 1) with (m + 1) by lia. by rewrite Z_mod_same_full.
  - by rewrite Z.mod_small by lia.
Qed.

Lemma publishMany_balanced {P} (pubs : list P) (fuel k : nat) (m c : Z) :
  0 <= m < MaxInt32 -> Z.of_nat (length pubs) = m + 1 -> 0 <= c <= m ->
  exists used lb,
    publishMany (S fuel) k
      {| publishers := pubs;
         publish := publishBalanced {| max := m; current := c |} |}
    = Some (used, {| publishers := pubs; publish := publishBalanced lb |}) /\
    length used = k /\
    forall i, (i < k)%nat ->
      used !! i = pubs !! Z.to_nat ((c + 1 + Z.of_nat i) mod (m + 1)).
Proof.
  intros Hm Hlen. revert c. induction k as [|k IH]; intros c Hc.
  - do 2 eexists. split; [reflexivity|]. split; [done|]. intros i Hi. lia.
  - cbn [publishMany]. unfold Publish at 1. cbn [publish publishers].
    rewrite nextIndex_mod by done. cbn [mbind option_bind].
    pose proof (Z.mod_pos_bound (c + 1) (m + 1) ltac:(lia)) as Hb.
    unfold index. rewrite decide_True by lia.
    destruct (lookup_lt_is_Some_2 pubs (Z.to_nat ((c + 1) mod (m + 1))))
      as [pub Hpub]; [lia|].
    rewrite Hpub. cbn [mbind option_bind].
    destruct (IH ((c + 1) mod (m + 1)) ltac:(lia)) as (used & lb & -> & Hl & Hu).
    cbn [mbind option_bind].
    do 2 eexists. split; [reflexivity|]. split; [cbn; lia|].
    intros [|i] Hi; cbn [lookup list_lookup].
    + rewrite <- Hpub. do 3 f_equal. lia.
    + rewrite Hu by lia. do 2 f_equal.
      rewrite <- Z.add_assoc, Zplus_mod_idemp_l. f_equal. lia.
Qed.

(** X6: A pool of n publishers, 1 <= n < 2^31, used by one goroutine at a time,
    hands the k-th message (counting from 1) to the publisher at index
    k mod n: the publishers take turns, beginning with the second one. *)
Theorem pool_round_robin {P} (pubs : list P) (fuel k : nat) :
  1 <= Z.of_nat (length pubs) <= MaxInt32 -> (0 < fuel)%nat ->
  exists used p',
    publishMany fuel k (newPublisherPool pubs) = Some (used, p') /\
    length used = k /\
    forall i, (i < k)%nat ->
      used !! i = pubs !! ((i + 1) mod length pubs)%nat.
Proof.
  intros Hlen Hfuel. destruct fuel as [|fuel]; [lia|].
  unfold newPublisherPool. case_decide as Hone.
  - destruct pubs as [|pub [|? ?]]; cbn in Hone; try lia.
    assert (Hk : forall k,
              publishMany (S fuel) k {| publishers := [pub]; publish := publishDirect |}
              = Some (replicate k pub, {| publishers := [pub]; publish := publishDirect |})).
    { clear. induction k as [|k IH]; [done|].
      cbn [publishMany]. unfold Publish at 1. cbn [publish publishers].
      unfold index. rewrite decide_True by lia.
      change ([pub] !! Z.to_nat 0) with (Some pub).
      cbn [mbind option_bind]. rewrite IH. done. }
    rewrite Hk. do 2 eexists. split; [reflexivity|].
    split; [apply length_replicate|]. intros i Hi.
    rewrite lookup_replicate_2 by done. cbn [length].
    by rewrite Nat.mod_1_r.
  - rewrite MaxInt32_val in Hlen.
    assert (Hsub : sub (Z.of_nat (length pubs)) 1 = Z.of_nat (length pubs) - 1).
    { unfold sub. apply wrap64_id. unfold is_int, MinInt64, MaxInt64.
      change (2 ^ 63) with 9223372036854775808. lia. }
    rewrite Hsub. unfold newRoundRobin.
    destruct (publishMany_balanced pubs fuel k (Z.of_nat (length pubs) - 1) 0)
      as (used & lb & Hrun & Hl & Hu); [rewrite MaxInt32_val; lia | lia | lia |].
    rewrite Hrun. do 2 eexists. split; [reflexivity|]. split; [done|].
    intros i Hi. rewrite Hu by done. f_equal.
    replace (Z.of_nat (length pubs) - 1 + 1) with (Z.of_nat (length pubs)) by lia.
    replace (0 + 1 + Z.of_nat i) with (Z.of_nat (i + 1)) by lia.
    rewrite <- Nat2Z.inj_mod. apply Nat2Z.id.
Qed.

Section WithConnections.

Context {W Conn P : Type}
        (getConnection : W -> result Conn * W)
        (createPublisher : Z -> Conn -> W -> result P * W).

Lemma numPublishers_ceil (M C : Z) :
  0 < M <= MaxInt64 -> 0 < C <= MaxInt64 ->
  numPublishers M C = Some (ceil_div C M) /\
  quo C (ceil_div C M) = Some (C / ceil_div C M) /\
  1 <= C / ceil_div C M <= M.
Proof.
  intros HM HC. pose proof (ceil_div_pos C M ltac:(lia) ltac:(lia)) as Hc.
  pose proof (ceil_div_spec C M ltac:(lia)) as Hs.
  assert (Hint : forall x, 0 <= x <= C -> wrap64 x = x).
  { intros x Hx. apply wrap64_id, is_int_small. lia. }
  split; [|split].
  - unfold numPublishers, quo, rem, add.
    rewrite !decide_False by lia. cbn [mbind option_bind].
    rewrite Z.quot_div_nonneg, Z.rem_mod_nonneg by lia.
    pose proof (Z.div_mod C M ltac:(lia)) as Hdm.
    pose proof (Z.mod_pos_bound C M ltac:(lia)) as Hb.
    assert (Hq : 0 <= C / M <= C).
    { split; [apply Z.div_pos; lia|]. apply Z.div_le_upper_bound; nia. }
    rewrite (Hint (C / M)) by lia.
    case_decide as Hr.
    + assert (Heq : C / M + 1 = ceil_div C M).
      { apply ceil_div_unique; [lia|]. nia. }
      rewrite Hint by lia. by rewrite Heq.
    + f_equal. apply ceil_div_unique; [lia|]. nia.
  - unfold quo. rewrite decide_False by lia.
    rewrite Z.quot_div_nonneg by lia. f_equal. apply Hint.
    split; [apply Z.div_pos; lia|]. apply Z.div_le_upper_bound; nia.
  - split.
    + apply Z.div_le_lower_bound; lia.
    + apply Z.div_le_upper_bound; nia.
Qed.

Lemma createLoop_ok (n : nat) (size : Z) (acc pubs : list P) (w w' : W) :
  createLoop getConnection createPublisher n size acc w = (OK pubs, w') ->
  exists new,
    pubs = acc ++ new /\ length new = n /\
    Forall (fun pub => exists conn w1 w2,
                createPublisher size conn w1 = (OK pub, w2)) new.
Proof.
  revert acc w. induction n as [|n IH]; intros acc w Hrun; cbn in Hrun.
  - simplify_eq. exists []. by rewrite app_nil_r.
  - destruct (getConnection w) as [[conn| |] w1] eqn:Hconn; try discriminate.
    destruct (createPublisher size conn w1) as [[pub| |] w2] eqn:Hpub;
      try discriminate.
    apply IH in Hrun as (new & -> & Hlen & Hall).
    exists (pub :: new). rewrite <- app_assoc. split; [done|].
    split; [cbn; lia|]. constructor; [|done]. by do 3 eexists.
Qed.

Lemma createLoop_total (n : nat) (size : Z) (acc : list P) (w : W) :
  (forall w, exists conn w', getConnection w = (OK conn, w')) ->
  (forall conn w, exists pub w', createPublisher size conn w = (OK pub, w')) ->
  exists pubs w',
    createLoop getConnection createPublisher n size acc w = (OK pubs, w').
Proof.
  intros Hconn Hpub. revert acc w. induction n as [|n IH]; intros acc w; cbn.
  - by do 2 eexists.
  - destruct (Hconn w) as (conn & w1 & ->).
    destruct (Hpub conn w1) as (pub & w2 & ->). apply IH.
Qed.

(** X7: For a channel pool size C > 0 and at most M > 0 channels per
    connection, [createPublishers] asks for ceil(C/M) connections and creates
    one publisher on each, every one with the channel pool size
    C / ceil(C/M), which lies between 1 and M; it succeeds whenever the
    connection manager and the publisher constructor do. *)
Theorem create_publishers_split (M C : Z) (w : W) :
  0 < M <= MaxInt64 -> 0 < C <= MaxInt64 ->
  let n := ceil_div C M in
  let size := C / n in
  1 <= size <= M /\
  (forall pubs w',
     createPublishers getConnection createPublisher M C w = (OK pubs, w') ->
     Z.of_nat (length pubs) = n /\
     Forall (fun pub => exists conn w1 w2,
                 createPublisher size conn w1 = (OK pub, w2)) pubs) /\
  ((forall w, exists conn w', getConnection w = (OK conn, w')) ->
   (forall conn w, exists pub w', createPublisher size conn w = (OK pub, w')) ->
   exists pubs w',
     createPublishers getConnection createPublisher M C w = (OK pubs, w')).
Proof.
  intros HM HC n size.
  destruct (numPublishers_ceil M C HM HC) as (Hn & Hq & Hsize).
  pose proof (ceil_div_pos C M ltac:(lia) ltac:(lia)) as Hc.
  unfold createPublishers. rewrite Hn, Hq. fold n size.
  split; [done|]. split.
  - intros pubs w' Hrun.
    apply createLoop_ok in Hrun as (new & -> & Hlen & Hall).
    cbn [app]. split; [|done]. rewrite Hlen. subst n. lia.
  - intros Hconn Hpub. by apply createLoop_total.
Qed.

End WithConnections.

End PublisherFacts.

Lemma pool_round_robin_witness :
  exists used p',
    publishers.publishMany 1 5 (amqp.newPublisherPool ["a"; "b"; "c"])
    = Some (used, p') /\
    length used = 5%nat /\
    forall i, (i < 5)%nat -> used !! i = ["a"; "b"; "c"] !! ((i + 1) mod 3)%nat.
Proof.
  apply (pool_round_robin ["a"; "b"; "c"] 1 5).
  - rewrite MaxInt32_val. cbn. lia.
  - lia.
Defined.

Lemma create_publishers_split_witness :
  let getConnection := fun w : nat => (GoErr.OK w, S w) in
  let createPublisher := fun (size : Z) (conn w : nat) => (GoErr.OK (conn, size), w) in
  1 <= 10 / Paging.ceil_div 10 4 <= 4 /\
  (forall pubs w',
     publishers.createPublishers getConnection createPublisher 4 10 0%nat
     = (GoErr.OK pubs, w') ->
     Z.of_nat (length pubs) = Paging.ceil_div 10 4 /\
     Forall (fun pub => exists conn w1 w2,
                 createPublisher (10 / Paging.ceil_div 10 4) conn w1
                 = (GoErr.OK pub, w2)) pubs) /\
  ((forall w, exists conn w', getConnection w = (GoErr.OK conn, w')) ->
   (forall conn w, exists pub w',
       createPublisher (10 / Paging.ceil_div 10 4) conn w = (GoErr.OK pub, w')) ->
   exists pubs w',
     publishers.createPublishers getConnection createPublisher 4 10 0%nat
     = (GoErr.OK pubs, w')).
Proof.
  intros getConnection createPublisher.
  apply (create_publishers_split getConnection createPublisher 4 10 0%nat);
    rewrite MaxInt64_val; lia.
Defined.

(** ** More on the DID/anchor index and the unpublished operation store *)

Section StoreMoreFacts.

Import GoErr storage.

Context {S : Type} `{Store S}.

Lemma fillAnchors_replicate (n : nat) (anchorBytes : list (option string)) :
  didanchor.fillAnchors (replicate n "") anchorBytes =
  if decide (length anchorBytes <= n)%nat then
    Some ((default "" <$> anchorBytes) ++ replicate (n - length anchorBytes) "")
  else None.
Proof.
  revert n. induction anchorBytes as [|a anchorBytes IH]; intros n.
  - cbn [length]. rewrite decide_True by lia. rewrite Nat.sub_0_r.
    by destruct n.
  - destruct n as [|n]; cbn [replicate didanchor.fillAnchors length].
    + by rewrite decide_False by lia.
    + rewrite IH. destruct (decide (length anchorBytes <= n)%nat).
      * rewrite decide_True by lia. cbn. by destruct a.
      * by rewrite decide_False by lia.
Qed.

(** X8: [GetBulk] pairs the values of the store with the suffixes by position:
    when the store returns at most one value per suffix, the result has
    exactly one anchor per suffix, empty where the value is missing or the
    store returned fewer values; when the store returns more values than
    there are suffixes, [GetBulk] panics. *)
Theorem get_bulk_positional (s : S) (suffixes : list string)
    (anchorBytes : list (option string)) :
  storage.GetBulk s suffixes = OK anchorBytes ->
  didanchor.GetBulk s suffixes =
  (if decide (length anchorBytes <= length suffixes)%nat then
     OK ((default "" <$> anchorBytes)
           ++ replicate (length suffixes - length anchorBytes) "")
   else Panic) /\
  (forall anchors,
     didanchor.GetBulk s suffixes = OK anchors ->
     length anchors = length suffixes).
Proof.
  intros Hget. unfold didanchor.GetBulk. rewrite Hget, fillAnchors_replicate.
  case_decide as Hlen; [|by split].
  split; [done|]. intros anchors Heq. simplify_eq.
  rewrite length_app, length_fmap, length_replicate. lia.
Qed.

Lemma hintedOperations_short (suffixes : list string) (areNew : list bool) cid :
  (length areNew < length suffixes)%nat ->
  didanchor.hintedOperations suffixes areNew cid = None.
Proof.
  revert areNew. induction suffixes as [|suffix suffixes IH];
    intros areNew Hlen; [cbn in Hlen; lia|].
  destruct areNew as [|isNew areNew]; [done|]. cbn in Hlen |- *.
  by rewrite IH by lia.
Qed.

(** X9: When [areNew] has fewer entries than there are suffixes, [PutBulk]
    panics (index out of range) before it sends any batch to the store. *)
Theorem put_bulk_short_hints (s : S) (suffixes : list string)
    (areNew : list bool) (cid : string) :
  (length areNew < length suffixes)%nat ->
  didanchor.PutBulk (s, []) suffixes areNew cid = (Panic, (s, [])).
Proof.
  intros Hlen. unfold didanchor.PutBulk.
  rewrite decide_False by lia.
  by rewrite hintedOperations_short.
Qed.

Section Unpublished.

Context {Op : Type} (unmarshal : string -> result Op).

Lemma collect_next_fails suffix (values : list string) (ops : list Op)
    value op acc err rest :
  unmarshal value = OK op ->
  Forall2 (fun v o => unmarshal v = OK o) values ops ->
  unpublished.collect unmarshal suffix (OK value)
    (((fun v => Entry (OK v)) <$> values) ++ NextFails err :: rest) acc
  = Err (Transient (Wrap ("iterator error for suffix[" +:+ suffix +:+ "] ") err)).
Proof.
  intros Hop Hall. revert value op acc Hop.
  induction Hall as [|v o values ops Hv Hall IH]; intros value op acc Hop.
  - cbn. by rewrite Hop.
  - cbn. rewrite Hop. by apply (IH v o).
Qed.

Lemma collect_bad_value suffix (values : list string) (ops : list Op)
    value op acc bad err rest :
  unmarshal value = OK op ->
  Forall2 (fun v o => unmarshal v = OK o) values ops ->
  unmarshal bad = Err err ->
  unpublished.collect unmarshal suffix (OK value)
    (((fun v => Entry (OK v)) <$> values) ++ Entry (OK bad) :: rest) acc
  = Err (Wrap ("failed to unmarshal unpublished operation from store value for suffix["
                 +:+ suffix +:+ "]") err).
Proof.
  intros Hop Hall Hbad. revert value op acc Hop.
  induction Hall as [|v o values ops Hv Hall IH]; intros value op acc Hop.
  - cbn. rewrite Hop. destruct rest; cbn; by rewrite Hbad.
  - cbn. rewrite Hop. by apply (IH v o).
Qed.

(** X11: When the iterator over the query results fails, [Get] returns an error
    that carries the sentinels of the iterator's error but whose transient
    tag depends on when the failure happens: a failure of the first advance
    keeps the tag of the iterator's error, a failure after at least one
    operation has been read is always transient.  No operation is returned
    in either case. *)
Theorem get_unpublished_iterator_failure (s : S) (suffix : string)
    (values : list string) (ops : list Op) (err : error) (rest : Iterator) :
  Query s ("uniqueSuffix:" +:+ suffix)
  = OK (((fun v => Entry (OK v)) <$> values) ++ NextFails err :: rest) ->
  Forall2 (fun v o => unmarshal v = OK o) values ops ->
  exists e,
    unpublished.Get unmarshal s suffix = Err e /\
    (forall target, Is e target = Is err target) /\
    IsTransient e = (if decide (values = []) then IsTransient err else true).
Proof.
  intros Hq Hall. unfold unpublished.Get.
  change (unpublished.index +:+ ":" +:+ suffix) with ("uniqueSuffix:" +:+ suffix).
  rewrite Hq. destruct Hall as [|v o values ops Hv Hall].
  - cbn. eexists. split; [reflexivity|]. by split.
  - cbn [fmap list_fmap app].
    rewrite (collect_next_fails suffix values ops v o [] err rest Hv Hall).
    eexists. split; [reflexivity|]. by split.
Qed.

(** X12: [Get] is all or nothing: when a stored value cannot be unmarshalled,
    [Get] returns the error of the first such value, with its tags, and none
    of the operations before or behind it. *)
Theorem get_unpublished_bad_value (s : S) (suffix : string)
    (values : list string) (ops : list Op) (bad : string) (err : error)
    (rest : Iterator) :
  Query s ("uniqueSuffix:" +:+ suffix)
  = OK (((fun v => Entry (OK v)) <$> values) ++ Entry (OK bad) :: rest) ->
  Forall2 (fun v o => unmarshal v = OK o) values ops ->
  unmarshal bad = Err err ->
  exists e,
    unpublished.Get unmarshal s suffix = Err e /\
    (forall target, Is e target = Is err target) /\
    IsTransient e = IsTransient err.
Proof.
  intros Hq Hall Hbad. unfold unpublished.Get.
  change (unpublished.index +:+ ":" +:+ suffix) with ("uniqueSuffix:" +:+ suffix).
  rewrite Hq. destruct Hall as [|v o values ops Hv Hall].
  - destruct rest; cbn; rewrite Hbad; (eexists; split; [reflexivity|]; by split).
  - cbn [fmap list_fmap app].
    rewrite (collect_bad_value suffix values ops v o [] bad err rest Hv Hall Hbad).
    eexists. split; [reflexivity|]. by split.
Qed.

End Unpublished.

Section DeleteAll.

Import unpublishedops.

Context {Op Req : Type}
        (UniqueSuffix : Op -> string)
        (OperationRequest : Op -> Req)
        (CalculateModelMultihash : Req -> result string).

Lemma deleteOperations_ok (ops : list Op) (keys : list string) :
  Forall2 (fun op key => CalculateModelMultihash (OperationRequest op) = OK key)
    ops keys ->
  deleteOperations UniqueSuffix OperationRequest CalculateModelMultihash ops
  = OK ((fun key => {| Key := key; Value := None; PutOpts := None |}) <$> keys).
Proof.
  induction 1 as [|op key ops keys Hkey Hall IH]; [done|].
  cbn. by rewrite Hkey, IH.
Qed.

Lemma deleteOperations_err (ops : list Op) (keys : list string) op err rest :
  Forall2 (fun op key => CalculateModelMultihash (OperationRequest op) = OK key)
    ops keys ->
  CalculateModelMultihash (OperationRequest op) = Err err ->
  deleteOperations UniqueSuffix OperationRequest CalculateModelMultihash
    (ops ++ op :: rest)
  = Err (Wrap ("failed to generate key for unpublished operation for suffix["
                 +:+ UniqueSuffix op +:+ "]") err).
Proof.
  intros Hall Herr. induction Hall as [|op' key ops keys Hkey Hall IH].
  - cbn. by rewrite Herr.
  - cbn. by rewrite Hkey, IH.
Qed.

(** X13: [DeleteAll] of no operations does nothing.  Otherwise, when the key of
    every operation can be computed, it sends exactly one batch, with one
    delete per operation keyed by the multihash of the operation's request,
    in order, and a failure of the batch is returned as a transient error;
    when the key of some operation cannot be computed, it sends no batch and
    returns the error of the first such operation, with its tags. *)
Theorem delete_all_batch (s : S) :
  DeleteAll UniqueSuffix OperationRequest CalculateModelMultihash (s, []) []
  = (OK (), (s, [])) /\
  (forall ops keys,
     ops <> [] ->
     Forall2 (fun op key => CalculateModelMultihash (OperationRequest op) = OK key)
       ops keys ->
     let deletes :=
       (fun key => {| Key := key; Value := None; PutOpts := None |}) <$> keys in
     match Batch s deletes with
     | (None, s1) =>
         DeleteAll UniqueSuffix OperationRequest CalculateModelMultihash (s, []) ops
         = (OK (), (s1, [deletes]))
     | (Some err, s1) =>
         exists e,
           DeleteAll UniqueSuffix OperationRequest CalculateModelMultihash (s, []) ops
           = (Err e, (s1, [deletes])) /\
           IsTransient e = true /\
           forall target, Is e target = Is err target
     end) /\
  (forall ops keys op err rest,
     Forall2 (fun op key => CalculateModelMultihash (OperationRequest op) = OK key)
       ops keys ->
     CalculateModelMultihash (OperationRequest op) = Err err ->
     exists e,
       DeleteAll UniqueSuffix OperationRequest CalculateModelMultihash (s, [])
         (ops ++ op :: rest)
       = (Err e, (s, [])) /\
       IsTransient e = IsTransient err /\
       forall target, Is e target = Is err target).
Proof.
  split; [done|]. split.
  - intros ops keys Hne Hall deletes. unfold DeleteAll.
    rewrite decide_False by (by destruct ops).
    rewrite (deleteOperations_ok ops keys Hall). fold deletes.
    cbn [Batch Recorded_Store fst snd].
    destruct (Batch s deletes) as [[err|] s1]; [|done].
    eexists. split; [reflexivity|]. by split.
  - intros ops keys op err rest Hall Herr. unfold DeleteAll.
    rewrite decide_False by (rewrite length_app; cbn; lia).
    rewrite (deleteOperations_err ops keys op err rest Hall Herr).
    eexists. split; [reflexivity|]. by split.
Qed.

End DeleteAll.

End StoreMoreFacts.

Section StoreMoreExamples.

Import GoErr storage.

Lemma foldl_mem_apply_None (ops : list Operation) :
  foldl mem_apply None ops = None.
Proof. by induction ops. Qed.

(** A batch of puts of one value leaves that value under every key of the
    batch and nothing else changed. *)
Lemma foldl_mem_apply_puts (ops : list Operation) (cid : string)
    (m m' : gmap string string) :
  Forall (fun op => Value op = Some cid) ops ->
  foldl mem_apply (Some m) ops = Some m' ->
  forall k, m' !! k = if decide (k ∈ Key <$> ops) then Some cid else m !! k.
Proof.
  intros Hall. revert m. induction Hall as [|op ops Hop Hall IH]; intros m Hrun k.
  - cbn in Hrun. simplify_eq. by rewrite decide_False by apply not_elem_of_nil.
  - cbn [foldl] in Hrun.
    destruct (mem_apply (Some m) op) as [m1|] eqn:Hstep;
      [|by rewrite foldl_mem_apply_None in Hrun].
    assert (Hm1 : m1 = <[Key op := cid]> m).
    { unfold mem_apply in Hstep. cbn in Hstep. rewrite Hop in Hstep.
      destruct (PutOpts op) as [[[|]]|]; [case_decide| |]; by simplify_eq. }
    rewrite (IH m1 Hrun k). cbn [fmap list_fmap]. subst m1.
    destruct (decide (k ∈ Key <$> ops)) as [Hin|Hnin].
    + by rewrite decide_True by (by right).
    + destruct (decide (k = Key op)) as [->|Hne].
      * rewrite decide_True by left. by rewrite lookup_insert_eq.
      * rewrite decide_False by (intros [?|?]%elem_of_cons; done).
        by rewrite lookup_insert_ne.
Qed.

Lemma foldl_mem_apply_plain (suffixes : list string) cid (m : gmap string string) :
  is_Some (foldl mem_apply (Some m) (didanchor.plainOperations suffixes cid)).
Proof.
  revert m. induction suffixes as [|suffix suffixes IH]; intros m; [by eexists|].
  cbn. apply IH.
Qed.

(** X10: On a working in-memory back-end, [PutBulk] with enough hints succeeds
    whatever the hints say, and afterwards [Get] returns the new anchor for
    every suffix of the call, old anchors being overwritten, and is unchanged
    for every other suffix. *)
Theorem put_bulk_get (s : MemStore) (suffixes : list string)
    (areNew : list bool) (cid : string) :
  fault s = None -> suffixes <> [] ->
  (length suffixes <= length areNew)%nat ->
  exists s',
    didanchor.PutBulk s suffixes areNew cid = (OK (), s') /\
    (forall suffix, suffix ∈ suffixes -> didanchor.Get s' suffix = OK cid) /\
    (forall suffix, suffix ∉ suffixes ->
       didanchor.Get s' suffix = didanchor.Get s suffix).
Proof.
  intros Hfault Hne Hlen.
  set (hinted := zip_with (fun suffix isNew =>
                             {| Key := suffix; Value := Some cid;
                                PutOpts := Some {| IsNewKey := isNew |} |})
                   suffixes areNew).
  assert (Hkeys1 : Key <$> hinted = suffixes).
  { subst hinted. clear Hne. revert areNew Hlen.
    induction suffixes as [|x suffixes IH]; intros [|b areNew] Hlen;
      cbn in *; try done; try lia.
    f_equal. apply IH. lia. }
  assert (Hval1 : Forall (fun op => Value op = Some cid) hinted).
  { subst hinted. clear. revert areNew.
    induction suffixes as [|x suffixes IH]; intros [|b areNew]; cbn;
      constructor; auto. }
  assert (Hkeys2 : Key <$> didanchor.plainOperations suffixes cid = suffixes).
  { unfold didanchor.plainOperations. rewrite <- list_fmap_compose.
    clear. induction suffixes; cbn; by f_equal. }
  assert (Hval2 : Forall (fun op => Value op = Some cid)
                    (didanchor.plainOperations suffixes cid)).
  { unfold didanchor.plainOperations. apply Forall_fmap, Forall_true. done. }
  assert (Hdone : forall m',
            (forall k, m' !! k = if decide (k ∈ suffixes) then Some cid
                                 else entries s !! k) ->
            let s' := {| entries := m'; tagged := tagged s; fault := None |} in
            (forall suffix, suffix ∈ suffixes -> didanchor.Get s' suffix = OK cid) /\
            (forall suffix, suffix ∉ suffixes ->
               didanchor.Get s' suffix = didanchor.Get s suffix)).
  { intros m' Hm' s'. split; intros suffix Hin; unfold didanchor.Get; cbn;
      rewrite ?Hfault, Hm'.
    - by rewrite decide_True.
    - by rewrite decide_False. }
  unfold didanchor.PutBulk.
  rewrite decide_False by (by destruct suffixes).
  rewrite hintedOperations_zip by done. fold hinted.
  cbn [Batch MemStore_Store]. rewrite Hfault.
  destruct (foldl mem_apply (Some (entries s)) hinted) as [m1|] eqn:Hb1.
  - eexists. split; [reflexivity|]. apply Hdone. intros k.
    rewrite (foldl_mem_apply_puts hinted cid _ m1 Hval1 Hb1 k).
    by rewrite Hkeys1.
  - cbn [Is]. rewrite bool_decide_eq_true_2 by done. rewrite Hfault.
    destruct (foldl_mem_apply_plain suffixes cid (entries s)) as [m2 Hb2].
    rewrite Hb2. eexists. split; [reflexivity|]. apply Hdone. intros k.
    rewrite (foldl_mem_apply_puts _ cid _ m2 Hval2 Hb2 k).
    by rewrite Hkeys2.
Qed.

Lemma get_bulk_positional_witness :
  didanchor.GetBulk didanchor.index1 ["suffix1"; "suffix2"]
  = OK ["hl:anchor1"; ""] /\
  (forall anchors,
     didanchor.GetBulk didanchor.index1 ["suffix1"; "suffix2"] = OK anchors ->
     length anchors = 2%nat).
Proof.
  apply (get_bulk_positional didanchor.index1 ["suffix1"; "suffix2"]
           [Some "hl:anchor1"; None]).
  reflexivity.
Defined.

Lemma put_bulk_short_hints_witness :
  didanchor.PutBulk (didanchor.index1, []) ["suffix1"; "suffix2"] [true] "hl:anchor2"
  = (Panic, (didanchor.index1, [])).
Proof.
  apply (put_bulk_short_hints didanchor.index1 ["suffix1"; "suffix2"] [true]).
  cbn. lia.
Defined.

Lemma put_bulk_get_witness :
  exists s',
    didanchor.PutBulk didanchor.index1 ["suffix1"; "suffix2"] [true; true] "hl:anchor2"
    = (OK (), s') /\
    (forall suffix, suffix ∈ ["suffix1"; "suffix2"] ->
       didanchor.Get s' suffix = OK "hl:anchor2") /\
    (forall suffix, suffix ∉ ["suffix1"; "suffix2"] ->
       didanchor.Get s' suffix = didanchor.Get didanchor.index1 suffix).
Proof.
  apply (put_bulk_get didanchor.index1 ["suffix1"; "suffix2"] [true; true]).
  - reflexivity.
  - discriminate.
  - cbn. lia.
Defined.

Lemma get_unpublished_iterator_failure_witness :
  exists e,
    unpublished.Get OK
      {| unpublishedops.script :=
           [Entry (OK "op1"); NextFails (New "connection lost")] |} "suffix1"
    = Err e /\
    (forall target, Is e target = Is (New "connection lost") target) /\
    IsTransient e = true.
Proof.
  apply (get_unpublished_iterator_failure OK
           {| unpublishedops.script :=
                [Entry (OK "op1"); NextFails (New "connection lost")] |}
           "suffix1" ["op1"] ["op1"] (New "connection lost") []).
  - reflexivity.
  - repeat constructor.
Defined.

Lemma get_unpublished_bad_value_witness :
  let unmarshal := fun v : string =>
    if decide (v = "bad") then Err (New "invalid character") else OK v in
  exists e,
    unpublished.Get unmarshal
      {| unpublishedops.script :=
           [Entry (OK "op1"); Entry (OK "bad"); Entry (OK "op3")] |} "suffix1"
    = Err e /\
    (forall target, Is e target = Is (New "invalid character") target) /\
    IsTransient e = IsTransient (New "invalid character").
Proof.
  intros unmarshal.
  apply (get_unpublished_bad_value unmarshal
           {| unpublishedops.script :=
                [Entry (OK "op1"); Entry (OK "bad"); Entry (OK "op3")] |}
           "suffix1" ["op1"] ["op1"] "bad" (New "invalid character")
           [Entry (OK "op3")]).
  - reflexivity.
  - repeat constructor.
  - reflexivity.
Defined.

End StoreMoreExamples.

(** ** More on the IPFS CAS client *)

Section IpfsMoreFacts.

Import GoErr ipfs.

Context {N : Type} `{ipfsClient N} `{Codec}.

Lemma getCID_opts (m m' : Client N) cidOrHash :
  opts m' = opts m -> getCID m' cidOrHash = getCID m cidOrHash.
Proof.
  intros Hopts. unfold getCID, getCIDFromHash. by rewrite Hopts.
Qed.

Lemma cacheGet_effects (m m1 : Client N) cid r :
  cacheGet m cid = (r, m1) ->
  node m1 = node m /\ opts m1 = opts m /\ cache m ⊆ cache m1 /\
  match r with
  | OK content => cache m1 !! cid = Some content
  | _ => m1 = m
  end.
Proof.
  unfold cacheGet. destruct (cache m !! cid) as [content|] eqn:Hc.
  - intros; simplify_eq. by repeat split.
  - destruct (get m cid) as [content|e|]; intros; simplify_eq; cbn.
    + repeat split; [by apply insert_subseteq | by rewrite lookup_insert_eq].
    + by repeat split.
    + by repeat split.
Qed.

Lemma Read_inv (m m1 : Client N) (cidOrHash : string) (r : result string) :
  Read m cidOrHash = (r, m1) ->
  node m1 = node m /\ opts m1 = opts m /\ cache m ⊆ cache m1 /\
  match r with
  | OK content =>
      exists cid, getCID m cidOrHash = OK cid /\ cache m1 !! cid = Some content
  | _ => m1 = m
  end.
Proof.
  unfold Read. destruct (getCID m cidOrHash) as [cid|e|] eqn:Hcid.
  - intros Hget. apply cacheGet_effects in Hget as (Hn & Ho & Hc & Hr).
    repeat split; try done. destruct r; try done. by exists cid.
  - intros; simplify_eq. by repeat split.
  - intros; simplify_eq. by repeat split.
Qed.


(** X15: After a successful read, every further read of the same key returns
    the same content from the cache, whatever has become of the node in the
    meantime, and changes nothing. *)
Theorem read_cached (m m1 : Client N) (cidOrHash content : string) (n' : N) :
  Read m cidOrHash = (OK content, m1) ->
  let m' := {| node := n'; opts := opts m1; cache := cache m1 |} in
  Read m' cidOrHash = (OK content, m').
Proof.
  intros Hread m'.
  apply Read_inv in Hread as (_ & Hopts & _ & cid & Hcid & Hc).
  unfold Read. rewrite (getCID_opts m m') by done. rewrite Hcid.
  unfold cacheGet. subst m'. cbn [cache]. by rewrite Hc.
Qed.

(** X16: How a failure of the node's [Cat] is classified, on a cache miss: an
    error whose message contains "context deadline exceeded" is turned into a
    permanent content-not-found error, whatever tags it carried; any other
    error is returned as a transient error with its sentinels.  The client
    is left unchanged. *)
Theorem read_cat_error (m : Client N) (cidOrHash cid : string) (err : error) :
  getCID m cidOrHash = OK cid -> cache m !! cid = None ->
  Cat (node m) cid = Err err ->
  exists e,
    Read m cidOrHash = (Err e, m) /\
    if Contains (Error err) "context deadline exceeded" then
      Is e ErrContentNotFound = true /\ IsTransient e = false
    else
      IsTransient e = true /\ forall target, Is e target = Is err target.
Proof.
  intros Hcid Hc Hcat. unfold Read, cacheGet, get. rewrite Hcid, Hc, Hcat.
  destruct (Contains (Error err) "context deadline exceeded");
    eexists; (split; [reflexivity|]); by split.
Qed.

(** X17: The options of a client that passes [getOptions] select CID version 0
    or 1, so the conversion of a multihash never fails for an unsupported
    version: an error of [getCIDFromHash] is the error of [getOptions] or
    wraps the error of the conversion to a version 0 or version 1 CID. *)
Theorem cid_version_supported (m : Client N) (hash : string) :
  (forall options, getOptions (opts m) = OK options ->
     CIDVersion options = 0 \/ CIDVersion options = 1) /\
  (forall e, getCIDFromHash m hash = Err e ->
     getOptions (opts m) = Err e \/
     exists msg e0,
       e = Wrap msg e0 /\ (ToV0CID hash = Err e0 \/ ToV1CID hash = Err e0)).
Proof.
  assert (Hv : forall options, getOptions (opts m) = OK options ->
             CIDVersion options = 0 \/ CIDVersion options = 1).
  { intros options. unfold getOptions. case_decide as Hd; [done|].
    intros; simplify_eq. lia. }
  split; [exact Hv|].
  intros e. unfold getCIDFromHash.
  destruct (getOptions (opts m)) as [options|e'|] eqn:Hopts; [|by left; simplify_eq|done].
  destruct (Hv options eq_refl) as [Hv0|Hv1].
  - rewrite decide_True by done.
    destruct (ToV0CID hash) as [?|e0|]; try done.
    intros; simplify_eq. right. do 2 eexists. split; [reflexivity|]. by left.
  - rewrite decide_False by lia. rewrite decide_True by done.
    destruct (ToV1CID hash) as [?|e0|]; try done.
    intros; simplify_eq. right. do 2 eexists. split; [reflexivity|]. by right.
Qed.

(** X18: Reading by a hashlink is reading by its resource hash: both keys
    convert to the same content identifier, so both reads return the same
    content and leave the same cache. *)
Theorem read_hashlink_resource (m : Client N) (hl resourceHash cid : string) :
  HasPrefix hl HLPrefix = true ->
  ParseHashLink hl = OK resourceHash ->
  HasPrefix resourceHash HLPrefix = false ->
  getCID m resourceHash = OK cid ->
  getCID m hl = OK cid /\ Read m hl = Read m resourceHash.
Proof.
  intros Hhl Hparse Hrh Hcid.
  assert (Heq : getCID m hl = OK cid).
  { rewrite <- Hcid. unfold getCID. by rewrite Hhl, Hparse, Hrh. }
  split; [done|]. unfold Read. by rewrite Heq, Hcid.
Qed.

Local Ltac clash :=
  simplify_eq;
  repeat match goal with
         | H1 : ?x = _, H2 : ?x = _ |- _ => rewrite H1 in H2
         end;
  try discriminate; by simplify_eq.

(** X19: A write never touches the cache or the options; empty content and
    unsupported options are rejected before the node is contacted; and when
    the node's [Add] fails, no hashlink is created and the error is transient
    unless its message contains "command not found", in which case it keeps
    the tags of the node's error. *)
Theorem write_effects (m m1 : Client N) (content : string) (r : result string) :
  Write m content = (r, m1) ->
  opts m1 = opts m /\ cache m1 = cache m /\
  (String.length content = 0%nat -> r = Err (New "empty content") /\ m1 = m) /\
  (forall e, String.length content <> 0%nat -> getOptions (opts m) = Err e ->
     r = Err e /\ m1 = m) /\
  (forall options err n1,
     String.length content <> 0%nat -> getOptions (opts m) = OK options ->
     Add (node m) content (bool_decide (CIDVersion options = 1)) = (Err err, n1) ->
     node m1 = n1 /\
     exists e,
       r = Err e /\
       (forall target, Is e target = Is err target) /\
       IsTransient e =
       (if Contains (Error err) "command not found" then IsTransient err
        else true)).
Proof.
  unfold Write, WriteWithCIDFormat.
  destruct (decide (String.length content = 0%nat)) as [Hlen|Hlen].
  { intros; simplify_eq. by repeat split. }
  destruct (getOptions (opts m)) as [options|e|] eqn:Hopts.
  2:{ intros; simplify_eq. repeat split; try done; intros; clash. }
  2:{ intros; simplify_eq. by repeat split. }
  destruct (Add (node m) content (bool_decide (CIDVersion options = 1)))
    as [[cid|err|] n1] eqn:Hadd.
  - destruct (CreateHashLink content ["ipfs://" +:+ cid]) as [hl|e|];
      intros; simplify_eq; (repeat split; try done); intros; clash.
  - destruct (Contains (Error err) "command not found") eqn:Hc;
      intros Heq; simplify_eq; (repeat split; try done);
      try (intros; clash);
      simplify_eq;
      match goal with Ha : Add _ _ _ = (Err _, _) |- _ => rewrite Hadd in Ha end;
      simplify_eq; eexists; (split; [reflexivity|]);
      rewrite Hc; by split.
  - intros; simplify_eq. (repeat split; try done); intros; clash.
Qed.

End IpfsMoreFacts.

Section IpfsMoreExamples.

Import GoErr ipfs.


Lemma read_cached_witness :
  let m := {| node := ({[ "bcontent" := "content" ]} : MemNode);
              opts := []; cache := ∅ |} in
  let m' := {| node := (∅ : MemNode); opts := opts (snd (Read m "ucontent"));
               cache := cache (snd (Read m "ucontent")) |} in
  Read m' "ucontent" = (OK "content", m').
Proof.
  intros m.
  apply (read_cached m (snd (Read m "ucontent")) "ucontent" "content" ∅).
  reflexivity.
Defined.

Lemma read_cat_error_witness :
  exists e,
    Read emptyClient "ucontent" = (Err e, emptyClient) /\
    Is e ErrContentNotFound = true /\ IsTransient e = false.
Proof.
  apply (read_cat_error emptyClient "ucontent" "bcontent"
           (New "context deadline exceeded")); reflexivity.
Defined.

Lemma read_hashlink_resource_witness :
  getCID emptyClient "hl:ucontent:uoQ-" = OK "bcontent" /\
  Read emptyClient "hl:ucontent:uoQ-" = Read emptyClient "ucontent".
Proof.
  apply (read_hashlink_resource emptyClient "hl:ucontent:uoQ-" "ucontent" "bcontent");
    reflexivity.
Defined.

Lemma write_effects_witness :
  let m := {| node := {| readonly.stored := ∅ |}; opts := []; cache := ∅ |} in
  Write m "content"
  = (Err (Wrap "(Does this IPFS node support writes?)" (New "add: command not found")),
     m) /\
  exists e,
    Err (A := string)
      (Wrap "(Does this IPFS node support writes?)" (New "add: command not found"))
    = Err e /\
    (forall target, Is e target = false) /\
    IsTransient e = false.
Proof.
  intros m.
  assert (Hw : Write m "content"
               = (Err (Wrap "(Does this IPFS node support writes?)"
                         (New "add: command not found")), m))
    by reflexivity.
  split; [exact Hw|].
  destruct (write_effects m m "content" _ Hw) as (_ & _ & _ & _ & Hadd).
  destruct (Hadd {| CIDVersion := 1 |} (New "add: command not found")
              {| readonly.stored := ∅ |})
    as (_ & e & He & His & Htr); [discriminate | reflexivity | reflexivity |].
  exists e. split; [exact He|]. split; [exact His | exact Htr].
Defined.

End IpfsMoreExamples.

(** ** Out-of-system DIDs *)

Section DidPartsFacts.

Import GoErr processdid.

Lemma string_length_app (s1 s2 : string) :
  String.length (s1 +:+ s2) = (String.length s1 + String.length s2)%nat.
Proof.
  induction s1 as [|a s1 IH]; [done|].
  change (S (String.length (s1 +:+ s2))
          = S (String.length s1 + String.length s2)).
  by f_equal.
Qed.

Lemma substring_all (s : string) : String.substring 0 (String.length s) s = s.
Proof.
  induction s as [|a s IH]; [done|].
  change (String a (String.substring 0 (String.length s) s) = String a s).
  by f_equal.
Qed.

Lemma substring_app_prefix (s1 s2 : string) :
  String.substring 0 (String.length s1) (s1 +:+ s2) = s1.
Proof.
  induction s1 as [|a s1 IH].
  - by destruct s2.
  - change (String a (String.substring 0 (String.length s1) (s1 +:+ s2))
            = String a s1).
    by f_equal.
Qed.

Lemma substring_app_skip (s1 s2 : string) (n : nat) :
  String.substring (String.length s1) n (s1 +:+ s2) = String.substring 0 n s2.
Proof.
  induction s1 as [|a s1 IH]; [done|]. exact IH.
Qed.

Lemma LastIndex_none (s : string) (c : ascii) :
  c ∉ list_ascii_of_string s -> LastIndex s c = -1.
Proof.
  induction s as [|a s IH]; cbn [LastIndex list_ascii_of_string]; [done|].
  intros [Hne Hnin]%not_elem_of_cons. rewrite IH by done.
  rewrite decide_False by lia. by rewrite decide_False by done.
Qed.

Lemma string_app_cons (a : ascii) (s1 s2 : string) :
  String a s1 +:+ s2 = String a (s1 +:+ s2).
Proof. reflexivity. Qed.

Lemma string_app_assoc (s1 s2 s3 : string) :
  (s1 +:+ s2) +:+ s3 = s1 +:+ s2 +:+ s3.
Proof.
  induction s1 as [|a s1 IH]; [done|].
  rewrite !string_app_cons. by f_equal.
Qed.

Lemma LastIndex_app (pre post : string) (c : ascii) :
  c ∉ list_ascii_of_string post ->
  LastIndex (pre +:+ String c post) c = Z.of_nat (String.length pre).
Proof.
  intros Hpost. induction pre as [|a pre IH].
  - change ("" +:+ String c post) with (String c post).
    cbn [LastIndex String.length]. rewrite LastIndex_none by done.
    rewrite decide_False by lia. by rewrite decide_True by done.
  - rewrite string_app_cons. cbn [LastIndex String.length]. rewrite IH.
    rewrite decide_True by lia. lia.
Qed.

Lemma LastIndex_split (s : string) (c : ascii) :
  (LastIndex s c = -1 /\ c ∉ list_ascii_of_string s) \/
  exists pre post,
    s = pre +:+ String c post /\ c ∉ list_ascii_of_string post.
Proof.
  induction s as [|a s IH]; cbn [LastIndex list_ascii_of_string].
  - left. split; [done|]. apply not_elem_of_nil.
  - destruct IH as [[Hi Hnin]|(pre & post & -> & Hpost)].
    + rewrite Hi. rewrite decide_False by lia.
      destruct (decide (a = c)) as [->|Hne].
      * right. by exists "", s.
      * left. split; [done|]. by apply not_elem_of_cons.
    + right. by exists (String a pre), post.
Qed.

Lemma getDidParts_app (cid suffix : string) :
  ":"%char ∉ list_ascii_of_string suffix ->
  getDidParts (cid +:+ ":" +:+ suffix) = OK (cid, suffix).
Proof.
  intros Hsuffix. unfold getDidParts.
  change (":" +:+ suffix) with (String ":"%char suffix).
  rewrite LastIndex_app by done.
  rewrite decide_False by lia. unfold slice. do 2 f_equal.
  - rewrite Z.sub_0_r, Nat2Z.id. cbn [Z.to_nat]. apply substring_app_prefix.
  - rewrite string_length_app. cbn [String.length].
    replace (Z.to_nat (Z.of_nat (String.length cid) + 1))
      with (String.length (cid +:+ ":"))
      by (rewrite string_length_app; cbn [String.length]; lia).
    replace (Z.to_nat (Z.of_nat (String.length cid + S (String.length suffix))
                       - (Z.of_nat (String.length cid) + 1)))
      with (String.length suffix) by lia.
    change (String ":"%char suffix) with (":" +:+ suffix).
    rewrite <- string_app_assoc.
    rewrite substring_app_skip. apply substring_all.
Qed.

(** X20: [getDidParts] splits a DID at its last colon: the two parts joined by a
    colon give the DID back and the second part, the suffix, contains no
    colon; conversely a CID (with hint, which may contain colons) joined to a
    colon-free suffix is split into exactly these two; and the only DIDs
    rejected are those without any colon. *)
Theorem did_parts (did : string) :
  (forall cid suffix,
     getDidParts did = OK (cid, suffix) ->
     did = cid +:+ ":" +:+ suffix /\ ":"%char ∉ list_ascii_of_string suffix) /\
  (forall cid suffix,
     ":"%char ∉ list_ascii_of_string suffix ->
     getDidParts (cid +:+ ":" +:+ suffix) = OK (cid, suffix)) /\
  ((exists e, getDidParts did = Err e) <-> ":"%char ∉ list_ascii_of_string did).
Proof.
  split; [|split].
  - intros cid suffix Hparts.
    destruct (LastIndex_split did ":"%char) as [[Hi _]|(pre & post & -> & Hpost)].
    + unfold getDidParts in Hparts. by rewrite Hi, decide_True in Hparts by done.
    + change (pre +:+ String ":"%char post) with (pre +:+ ":" +:+ post) in *.
      rewrite getDidParts_app in Hparts by done. by simplify_eq.
  - apply getDidParts_app.
  - split.
    + intros [e He].
      destruct (LastIndex_split did ":"%char) as [[_ Hnin]|(pre & post & -> & Hpost)];
        [done|].
      change (pre +:+ String ":"%char post) with (pre +:+ ":" +:+ post) in *.
      by rewrite getDidParts_app in He by done.
    + intros Hnin. unfold getDidParts. rewrite LastIndex_none by done.
      rewrite decide_True by done. by eexists.
Qed.

End DidPartsFacts.

Section ProcessDidFacts.

Import GoErr observer processdid.

Context {W VC PC PV URL : Type} (o : Providers W VC PC PV URL).
Context (discoveryDomain : string).
Context (GetDidAnchors : W -> string -> string -> result (list (Anchor VC)) * W).

Local Abbreviation St := (W * list (event VC URL))%type.

Lemma begun_app (l1 l2 : list (event VC URL)) :
  begun (l1 ++ l2) = (begun l1 + begun l2)%nat.
Proof. unfold begun. by rewrite filter_app, length_app. Qed.

Local Ltac run_calls :=
  repeat
    (match goal with
     | |- context [GetAnchorSubject o ?x ?v] =>
         destruct (GetAnchorSubject o x v) as [[?|?|] ?] eqn:?
     | |- context [ForNamespace o ?x ?v] =>
         destruct (ForNamespace o x v) as [[?|?|] ?] eqn:?
     | |- context [GetVersion o ?x ?p ?v] =>
         destruct (GetVersion o x p v) as [[?|?|] ?] eqn:?
     | |- context [GetResourceHashFromHashLink o ?x ?v] =>
         destruct (GetResourceHashFromHashLink o x v) as [[?|?|] ?] eqn:?
     | |- context [Process o ?x ?v ?t ?s] =>
         destruct (Process o x v t s) as [[?|?|] ?] eqn:?
     | |- context [DidAnchorsPutBulk o ?x ?v ?h] =>
         destruct (DidAnchorsPutBulk o x v h) as [[?|?|] ?] eqn:?
     end; cbn [fst snd outcome]).

(** Processing an anchor that is attributed to nobody: the calls made are
    one extraction of the anchor subject and none of the calls that post a
    [Like]. *)
Lemma processAnchor_unattributed (hl : string) (info : VC)
    (suffixes : list string) (s : St) :
  exists ext,
    snd (snd (processAnchor (Recorded o) discoveryDomain
                {| Hashlink := hl; LocalHashlink := ""; AttributedTo := "" |}
                info suffixes s)) = snd s ++ ext /\
    Forall (fun ev => isLikeCall (fst ev) = false) ext /\
    begun ext = 1%nat.
Proof.
  unfold processAnchor, postLikeActivity, bind, wrapf, logged, ret.
  cbn [AttributedTo Hashlink LocalHashlink].
  rewrite decide_True by done.
  cbn [Recorded GetAnchorSubject ForNamespace GetVersion
       GetResourceHashFromHashLink Process DidAnchorsPutBulk IssuedUnix
       GetAnchorString].
  unfold recording. cbn [fst snd].
  run_calls.
  all: eexists; split; [by rewrite <- ?app_assoc|].
  all: split; [by repeat constructor | reflexivity].
Qed.

Lemma processAnchors_log (suffix : string) (anchors : list (Anchor VC)) (s : St) :
  exists ext,
    snd (snd (processAnchors (Recorded o) discoveryDomain suffix anchors s))
    = snd s ++ ext /\
    Forall (fun ev => isLikeCall (fst ev) = false) ext /\
    match fst (processAnchors (Recorded o) discoveryDomain suffix anchors s) with
    | OK _ => begun ext = length anchors
    | Err e => IsTransient e = true /\ (begun ext <= length anchors)%nat
    | Panic => (begun ext <= length anchors)%nat
    end.
Proof.
  revert s. induction anchors as [|anchor anchors IH]; intros s.
  - exists []. cbn. by rewrite app_nil_r.
  - cbn [processAnchors].
    destruct (processAnchor_unattributed (CID anchor) (Info anchor) [suffix] s)
      as (ext1 & Hlog1 & Hall1 & Hb1).
    destruct (processAnchor (Recorded o) discoveryDomain _ (Info anchor) [suffix] s)
      as [[[]|e|] s1] eqn:Hrun; cbn [fst snd] in Hlog1.
    + destruct (IH s1) as (ext2 & Hlog2 & Hall2 & Hres).
      exists (ext1 ++ ext2). rewrite Hlog2, Hlog1, app_assoc.
      split; [done|]. split; [by apply Forall_app|].
      rewrite begun_app, Hb1. cbn [length].
      destruct (processAnchors _ _ _ _ s1) as [[[]|e|] s2]; cbn [fst] in *;
        [lia|split; [tauto|lia]|lia].
    + destruct (IsTransient e) eqn:Htr.
      * exists ext1. cbn [fst snd]. split; [done|]. split; [done|].
        split; [done|]. rewrite Hb1. cbn. lia.
      * destruct (IH s1) as (ext2 & Hlog2 & Hall2 & Hres).
        exists (ext1 ++ ext2). rewrite Hlog2, Hlog1, app_assoc.
        split; [done|]. split; [by apply Forall_app|].
        rewrite begun_app, Hb1. cbn [length].
        destruct (processAnchors _ _ _ _ s1) as [[[]|e'|] s2]; cbn [fst] in *;
          [lia|split; [tauto|lia]|lia].
    + exists ext1. cbn [fst snd]. split; [done|]. split; [done|].
      rewrite Hb1. cbn. lia.
Qed.


(** X22: Processing an out-of-system DID never posts a [Like] and makes none of
    the calls that serve to post one: the anchors are processed without an
    [attributedTo]. *)
Theorem process_did_no_like (did : string) (w : W) :
  exists r w' log,
    processDID (Recorded o) discoveryDomain
      (recordedGetDidAnchors GetDidAnchors) did (w, []) = (r, (w', log)) /\
    Forall (fun ev => isLikeCall (fst ev) = false) log /\
    posted log = [].
Proof.
  assert (Hposted : forall log : list (event VC URL),
            Forall (fun ev => isLikeCall (fst ev) = false) log -> posted log = []).
  { intros log. induction 1 as [|[c v] log Hc Hall IH]; [done|].
    unfold posted in *. cbn. cbn in Hc. destruct c; try done. }
  unfold processDID.
  destruct (getDidParts did) as [[cid suffix]|e|].
  - unfold bind, recordedGetDidAnchors. cbn [fst snd].
    destruct (GetDidAnchors w cid suffix) as [[anchors|e|] w1].
    + destruct (processAnchors_log suffix anchors (w1, [])) as (ext & Hlog & Hall & _).
      destruct (processAnchors (Recorded o) discoveryDomain suffix anchors (w1, []))
        as [r [w' log]].
      cbn [fst snd app] in *. subst log. exists r, w', ext. auto.
    + do 3 eexists. split; [reflexivity|]. by split.
    + do 3 eexists. split; [reflexivity|]. by split.
  - do 3 eexists. split; [reflexivity|]. by split.
  - do 3 eexists. split; [reflexivity|]. by split.
Qed.

(** X23: In every run of [processAnchor] the calls made to post a [Like] come
    after all other calls, and they are made only when the operations of the
    anchor have been processed and the DID/anchor index has been updated
    successfully; a run that returns an error has made none of them. *)
Theorem like_after_index (anchor : AnchorInfo) (info : VC)
    (suffixes : list string) (w : W) :
  exists r w' pre post,
    processAnchor (Recorded o) discoveryDomain anchor info suffixes (w, [])
    = (r, (w', pre ++ post)) /\
    Forall (fun ev => isLikeCall (fst ev) = false) pre /\
    Forall (fun ev => isLikeCall (fst ev) = true) post /\
    (post <> [] ->
     exists txn acSuffixes,
       (CallProcess txn suffixes, OK VDone) ∈ pre /\
       (CallPutBulk acSuffixes (Hashlink anchor), OK VDone) ∈ pre) /\
    (forall e, r = Err e -> post = []).
Proof.
  unfold processAnchor, bind, wrapf.
  cbn [Recorded GetAnchorSubject ForNamespace GetVersion
       GetResourceHashFromHashLink Process DidAnchorsPutBulk IssuedUnix
       GetAnchorString].
  unfold recording. cbn [fst snd app].
  run_calls.
  all: try (do 2 eexists; eexists _, [];
            split; [by rewrite app_nil_r|];
            split; [by repeat constructor|];
            split; [by constructor|]; by split).
  match goal with
  | |- context [logged ?m ?s0] =>
      destruct (quiet_postLikeActivity o anchor s0) as (ext & Hlog & Hall);
      unfold logged; destruct (m s0) as [[[]|e|] [w7 log7]]
  end.
  all: cbn [fst snd] in Hlog; subst log7; unfold ret.
  all: do 2 eexists; eexists _, ext; split; [reflexivity|].
  all: split; [by repeat constructor|]; split; [done|].
  all: split; [|done].
  all: intros _; do 2 eexists; split;
    [do 4 apply list_elem_of_further; apply list_elem_of_here
    |do 5 apply list_elem_of_further; apply list_elem_of_here].
Qed.

End ProcessDidFacts.

Section ProcessDidExamples.

Import GoErr observer processdid.


End ProcessDidExamples.

(** ** The iterators of the ActivityPub client *)

Section ClientFacts.

Import GoInt client.

Context {W A URL : Type}
        (urlString : URL -> string)
        (transportGet : W -> URL -> result Response * W)
        (unmarshalCollectionPage : string -> result (page A URL))
        (reverseSort : list (option A) -> list (option A)).

Local Abbreviation get := (get urlString transportGet).
Local Abbreviation getNextPage :=
  (getNextPage urlString transportGet unmarshalCollectionPage).
Local Abbreviation Next := (Next urlString transportGet unmarshalCollectionPage).
Local Abbreviation drain := (drain urlString transportGet unmarshalCollectionPage).

Lemma getNextPage_inv (it it' : activityIterator A URL) (w w' : W) r :
  getNextPage it w = (r, it', w') ->
  totalItems it' = totalItems it /\ numProcessed it' = numProcessed it /\
  match r with
  | OK _ => currentIndex it' = 0 /\ len (currentItems it') <> 0
  | Err e => IsNotFound e = false -> it' = it
  | Panic => it' = it
  end.
Proof.
  unfold client.getNextPage. destruct (nextPage it) as [u|]; [|by intros; simplify_eq].
  destruct (get w u) as [[respBytes|e|] w1]; [|by intros; simplify_eq..].
  destruct (unmarshalCollectionPage respBytes) as [page|e|];
    [|by intros; simplify_eq..].
  cbv zeta. cbn [currentItems]. case_decide as Hlen; intros; by simplify_eq.
Qed.

Lemma Next_inv (it it' : activityIterator A URL) (w w' : W) r :
  is_int (totalItems it) -> is_int (numProcessed it) ->
  Next it w = (r, it', w') ->
  totalItems it' = totalItems it /\
  match r with
  | OK _ =>
      numProcessed it < totalItems it /\ numProcessed it' = numProcessed it + 1
  | Err e => numProcessed it' = numProcessed it /\ (IsNotFound e = false -> it' = it)
  | Panic => numProcessed it' = numProcessed it
  end.
Proof.
  intros Htot Hnum. unfold client.Next.
  case_decide as Hdone; [by intros; simplify_eq|].
  assert (Hadd : forall n, n = numProcessed it -> add n 1 = n + 1).
  { intros n ->. unfold add. apply wrap64_id.
    unfold is_int, MinInt64, MaxInt64 in *. lia. }
  destruct (decide (currentIndex it >= len (currentItems it))) as [Hfetch|Hfetch].
  - destruct (getNextPage it w) as [[r1 it1] w1] eqn:Hpage.
    apply getNextPage_inv in Hpage as (Ht & Hn & Hr).
    destruct r1 as [[]|e|].
    + destruct (index (currentItems it1) (currentIndex it1));
        intros; simplify_eq; cbn [totalItems numProcessed]; [|done].
      split; [done|]. split; [lia|]. rewrite Hn. by apply Hadd.
    + intros; by simplify_eq.
    + intros; by simplify_eq.
  - destruct (index (currentItems it) (currentIndex it));
      intros; simplify_eq; cbn [totalItems numProcessed]; [|done].
    split; [done|]. split; [lia|]. by apply Hadd.
Qed.

(** X24: However often [Next] is called and whatever the server's pages hold, an
    activity iterator hands out no more activities than the total number of
    items it was created with, less those already processed. *)
Theorem next_bounded (n : nat) (it : activityIterator A URL) (w : W) :
  is_int (totalItems it) -> is_int (numProcessed it) ->
  (length (drain n it w) <= Z.to_nat (totalItems it - numProcessed it))%nat.
Proof.
  revert it w. induction n as [|n IH]; intros it w Htot Hnum; [cbn; lia|].
  cbn [client.drain].
  destruct (Next it w) as [[r it'] w'] eqn:Hnext.
  pose proof (Next_inv it it' w w' r Htot Hnum Hnext) as (Ht & Hr).
  destruct r as [item|e|]; [| |cbn; lia].
  - destruct Hr as [Hlt Hn].
    assert (Hnum' : is_int (numProcessed it')).
    { rewrite Hn. unfold is_int, MinInt64, MaxInt64 in *. lia. }
    specialize (IH it' w' ltac:(by rewrite Ht) Hnum').
    cbn [length]. rewrite Ht, Hn in IH. lia.
  - destruct Hr as [Hn _].
    specialize (IH it' w' ltac:(by rewrite Ht) ltac:(by rewrite Hn)).
    rewrite Ht, Hn in IH. lia.
Qed.

(** X25: An error of [Next] other than [ErrNotFound] leaves the iterator exactly
    as it was: neither the cursor nor the count of processed activities
    moves, so the call can be repeated. *)
Theorem next_error_retry (it it' : activityIterator A URL) (w w' : W)
    (e : error) :
  Next it w = (Err e, it', w') -> IsNotFound e = false -> it' = it.
Proof.
  unfold client.Next. case_decide as Hdone; [by intros; simplify_eq|].
  destruct (decide (currentIndex it >= len (currentItems it))) as [Hfetch|Hfetch].
  - destruct (getNextPage it w) as [[r1 it1] w1] eqn:Hpage.
    apply getNextPage_inv in Hpage as (_ & _ & Hr).
    destruct r1 as [[]|e1|].
    + destruct (index (currentItems it1) (currentIndex it1)); intros; simplify_eq.
    + intros; simplify_eq. by apply Hr.
    + intros; simplify_eq.
  - destruct (index (currentItems it) (currentIndex it)); intros; simplify_eq.
Qed.

(** X26: When [Next] has to fetch the next page and the server answers with a
    status other than 200, [Next] returns an error that is not
    [ErrNotFound], even for a 404, and that is transient exactly when the
    status is 500 or above; the iterator is unchanged. *)
Theorem next_http_status (it : activityIterator A URL) (w w1 : W) (u : URL)
    (resp : Response) :
  numProcessed it < totalItems it ->
  currentIndex it >= len (currentItems it) ->
  nextPage it = Some u ->
  transportGet w u = (OK resp, w1) ->
  StatusCode resp <> 200 ->
  exists e,
    Next it w = (Err e, it, w1) /\
    IsNotFound e = false /\
    IsTransient e = bool_decide (StatusCode resp >= 500).
Proof.
  intros Hnum Hidx Hnext Hget Hstatus.
  unfold client.Next, client.getNextPage, client.get.
  rewrite decide_False by lia. rewrite decide_True by done.
  rewrite Hnext, Hget. rewrite decide_True by done.
  case_decide as H500.
  - eexists. split; [reflexivity|]. split; [done|].
    by rewrite bool_decide_eq_true_2.
  - eexists. split; [reflexivity|]. split; [done|].
    by rewrite bool_decide_eq_false_2.
Qed.

Lemma foldl_append (items : list (ObjectProperty A URL)) (acc : list (option A)) :
  foldl (fun activities item =>
           match Activity item with
           | Some a => activities ++ [Some a]
           | None => activities
           end) acc items
  = acc ++ (Some <$> omap Activity items).
Proof.
  revert acc. induction items as [|item items IH]; intros acc.
  - by rewrite app_nil_r.
  - cbn [foldl omap list_omap]. rewrite IH.
    destruct (Activity item); [|done]. cbn. by rewrite <- app_assoc.
Qed.

Lemma foldl_prepend (items : list (ObjectProperty A URL)) (acc : list (option A)) :
  foldl (fun activities item =>
           match Activity item with
           | Some a => [Some a] ++ activities
           | None => activities
           end) acc items
  = reverse (Some <$> omap Activity items) ++ acc.
Proof.
  revert acc. induction items as [|item items IH]; intros acc; [done|].
  cbn [foldl omap list_omap]. rewrite IH.
  destruct (Activity item); [|done]. cbn [fmap list_fmap].
  by rewrite reverse_cons, <- app_assoc.
Qed.

(** Within the current page [Next] hands out the activities from the
    cursor on, without contacting the server. *)
Lemma drain_page (k : nat) (it : activityIterator A URL) (w : W) :
  0 <= currentIndex it ->
  currentIndex it + Z.of_nat k <= len (currentItems it) ->
  len (currentItems it) <= MaxInt64 ->
  0 <= numProcessed it -> numProcessed it + Z.of_nat k <= totalItems it ->
  totalItems it <= MaxInt64 ->
  drain k it w = take k (drop (Z.to_nat (currentIndex it)) (currentItems it)).
Proof.
  revert it. induction k as [|k IH]; intros it Hi Hik Hlen Hn Hnk Htot; [done|].
  cbn [client.drain]. unfold client.Next.
  rewrite decide_False by lia. rewrite decide_False by lia.
  unfold len in *. unfold index. rewrite decide_True by lia.
  destruct (lookup_lt_is_Some_2 (currentItems it) (Z.to_nat (currentIndex it)))
    as [item Hitem]; [lia|].
  rewrite Hitem.
  assert (Hadd : forall x, 0 <= x < MaxInt64 -> add x 1 = x + 1).
  { intros x Hx. unfold add. apply wrap64_id, is_int_small. lia. }
  rewrite IH; cbn [currentIndex currentItems numProcessed totalItems];
    rewrite ?Hadd by lia; try lia.
  rewrite (drop_S _ item (Z.to_nat (currentIndex it))) by done. cbn [take].
  by replace (Z.to_nat (currentIndex it + 1))
    with (S (Z.to_nat (currentIndex it))) by lia.
Qed.

(** X27: A new iterator over a collection fetches the first page on the first
    call of [Next] and then hands out the activities of that page, skipping
    the items that are no activities: in the order of the page for a forward
    iterator, in the opposite order for a reverse iterator. *)
Theorem iterator_page_order (w w1 : W) (u : URL) (respBytes : string)
    (page : page A URL) (total : Z) :
  get w u = (OK respBytes, w1) ->
  unmarshalCollectionPage respBytes = OK page ->
  omap Activity (items page) <> [] ->
  Z.of_nat (length (omap Activity (items page))) <= total <= MaxInt64 ->
  reverseSort [] = [] ->
  let activities := Some <$> omap Activity (items page) in
  drain (length activities)
    (newForwardActivityIterator [] None (Some u) total) w = activities /\
  drain (length activities)
    (newReverseActivityIterator reverseSort [] None (Some u) total) w
  = reverse activities.
Proof.
  intros Hget Hpage Hne Htotal Hsort activities.
  assert (Hlen : length activities = length (omap Activity (items page)))
    by (subst activities; by rewrite length_fmap).
  assert (Hpos : (0 < length activities)%nat).
  { rewrite Hlen. destruct (omap Activity (items page)); [done|cbn; lia]. }
  assert (Hmax : MaxInt64 = 9223372036854775807) by apply MaxInt64_val.
  assert (Hrun : forall (it : activityIterator A URL) (l : list (option A)),
            currentItems it = [] -> currentIndex it = 0 -> numProcessed it = 0 ->
            totalItems it = total -> nextPage it = Some u ->
            foldl (fun activities item =>
                     match Activity item with
                     | Some a => appendActivity it activities (Some a)
                     | None => activities
                     end) [] (items page) = l ->
            length l = length activities ->
            drain (length activities) it w = l).
  { intros it l Hitems Hidx Hnum Htot Hnext Hfold Hl.
    destruct (length activities) as [|k] eqn:Hk; [lia|].
    cbn [client.drain]. unfold client.Next.
    rewrite Hnum, Htot, Hidx, Hitems.
    rewrite decide_False by lia.
    rewrite decide_True by (unfold len; cbn; lia).
    unfold client.getNextPage. rewrite Hnext, Hget, Hpage. cbv zeta.
    rewrite Hfold. cbn [currentItems].
    rewrite decide_False by (unfold len; lia).
    cbn [currentItems currentIndex]. unfold index.
    rewrite decide_True by lia.
    destruct l as [|item l]; [cbn in Hl; lia|].
    cbn [Z.to_nat lookup list_lookup]. f_equal.
    rewrite drain_page; cbn [currentIndex currentItems numProcessed totalItems];
      unfold add, len; rewrite ?Hnum, ?wrap64_id;
      try (apply is_int_small; lia); cbn [length] in *; try lia.
    - change (Z.to_nat (0 + 1)) with 1%nat. cbn [drop].
      apply take_ge. lia. }
  split.
  - apply Hrun; try done. cbn [newForwardActivityIterator newActivityIterator
                                appendActivity].
    by rewrite foldl_append.
  - unfold newReverseActivityIterator. rewrite Hsort.
    apply Hrun; try done.
    + cbn [newActivityIterator appendActivity]. by rewrite foldl_prepend, app_nil_r.
    + by rewrite length_reverse.
Qed.

End ClientFacts.

Section ClientExamples.

Import GoInt client clientexample.

Lemma next_bounded_witness :
  (length (drain (fun u => u) transportGet unmarshalCollectionPage 10
             (newForwardActivityIterator [] None (Some pageURL) 2) tt)
   <= Z.to_nat (2 - 0))%nat.
Proof.
  apply (next_bounded (fun u => u) transportGet unmarshalCollectionPage 10
           (newForwardActivityIterator [] None (Some pageURL) 2) tt);
    vm_compute; split; discriminate.
Defined.

Lemma next_error_retry_witness :
  let it := newForwardActivityIterator (A := string) [] None
              (Some "https://orb.domain1.com/gone") 2 in
  snd (fst (Next (fun u => u) transportGet unmarshalCollectionPage it tt)) = it.
Proof.
  intros it.
  apply (next_error_retry (fun u => u) transportGet unmarshalCollectionPage it _ tt tt
           (Wrap "get activities from https://orb.domain1.com/gone"
              (New "request to https://orb.domain1.com/gone returned status code 404")));
    reflexivity.
Defined.

Lemma next_http_status_witness :
  let it := newForwardActivityIterator (A := string) [] None
              (Some "https://orb.domain1.com/gone") 2 in
  exists e,
    Next (fun u => u) transportGet unmarshalCollectionPage it tt = (Err e, it, tt) /\
    IsNotFound e = false /\
    IsTransient e = false.
Proof.
  intros it.
  apply (next_http_status (fun u => u) transportGet unmarshalCollectionPage it tt tt
           "https://orb.domain1.com/gone"
           {| StatusCode := 404; Body := OK "Not Found." |}).
  - vm_compute. reflexivity.
  - vm_compute. discriminate.
  - reflexivity.
  - reflexivity.
  - vm_compute. discriminate.
Defined.

Lemma iterator_page_order_witness :
  drain (fun u => u) transportGet unmarshalCollectionPage 3
    (newForwardActivityIterator [] None (Some pageURL) 3) tt
  = [Some "create-1"; Some "announce-2"; Some "like-3"] /\
  drain (fun u => u) transportGet unmarshalCollectionPage 3
    (newReverseActivityIterator reverseSort [] None (Some pageURL) 3) tt
  = [Some "like-3"; Some "announce-2"; Some "create-1"].
Proof.
  apply (iterator_page_order (fun u => u) transportGet unmarshalCollectionPage
           reverseSort tt tt pageURL pageURL
           {| items := [activity "create-1";
                        {| IRI := Some "https://x"; Activity := None |};
                        activity "announce-2"; activity "like-3"];
              current := Some pageURL; next := None; prev := None;
              pageTotalItems := 3 |} 3).
  - reflexivity.
  - reflexivity.
  - discriminate.
  - rewrite MaxInt64_val. cbn. lia.
  - reflexivity.
Defined.

End ClientExamples.

(** ** Edge cases of the paging arithmetic *)

Section PagingEdgeFacts.

Import GoInt Paging.

(** X5: A page size of zero makes the handler panic with an integer division by
    zero, whatever the collection, the page number and the sort order; and
    the first page of an empty collection, for a positive page size, carries
    neither a [prev] nor a [next] link, its page number being 0 in ascending
    and -1 in descending order. *)
Theorem paging_edges (N pageNum P : Z) (sortOrder : SortOrder) :
  getIDPrevNextURL N
    {| PageNumber := pageNum; PageSize := 0; Order := sortOrder |} = None /\
  (0 < P -> pageNum < 0 ->
   getIDPrevNextURL 0
     {| PageNumber := pageNum; PageSize := P; Order := sortOrder |}
   = Some (if decide (sortOrder = SortAscending) then 0 else -1, None, None)).
Proof.
  split.
  - unfold getIDPrevNextURL, getCurrentPrevNext, getFirstPageNum, getLastPageNum.
    cbn [PageSize Order]. unfold rem, quo.
    rewrite !(decide_True (P := 0 = 0)) by done.
    by destruct sortOrder.
  - intros HP Hk.
    assert (Hrem : rem 0 P = Some 0).
    { unfold rem. rewrite decide_False by lia. by rewrite Z.rem_0_l by lia. }
    assert (Hquo : quo 0 P = Some 0).
    { unfold quo. rewrite decide_False by lia. by rewrite Z.quot_0_l by lia. }
    unfold getIDPrevNextURL, getCurrentPrevNext, getFirstPageNum, getLastPageNum.
    cbn [PageNumber PageSize Order]. rewrite Hrem, Hquo.
    destruct sortOrder; vm_compute (sub 0 1); cbn;
      (destruct (decide (pageNum >= 0)) as [?|?]; [lia|]); reflexivity.
Qed.

End PagingEdgeFacts.

Lemma paging_edges_witness :
  Paging.getIDPrevNextURL 7
    {| Paging.PageNumber := 1; Paging.PageSize := 0;
       Paging.Order := Paging.SortDescending |} = None /\
  Paging.getIDPrevNextURL 0
    {| Paging.PageNumber := -1; Paging.PageSize := 4;
       Paging.Order := Paging.SortDescending |}
  = Some (-1, None, None).
Proof.
  destruct (paging_edges 7 1 4 Paging.SortDescending) as [Hzero _].
  destruct (paging_edges 0 (-1) 4 Paging.SortDescending) as [_ Hempty].
  split; [exact Hzero|]. apply Hempty; lia.
Defined.

Lemma delete_all_batch_witness :
  let hash := fun req : string => GoErr.OK ("uEi" +:+ req) in
  let deletes :=
    [ {| storage.Key := "uEirequest1"; storage.Value := None; storage.PutOpts := None |};
      {| storage.Key := "uEirequest2"; storage.Value := None; storage.PutOpts := None |} ] in
  unpublishedops.DeleteAll (fun op : string => op) (fun op : string => op) hash
    (unpublished.unpublished1, []) ["request1"; "request2"]
  = (GoErr.OK (), (unpublished.unpublished1, [deletes])).
Proof.
  intros hash deletes.
  exact (proj1 (proj2 (delete_all_batch (fun op : string => op)
                         (fun op : string => op) hash unpublished.unpublished1))
           ["request1"; "request2"] ["uEirequest1"; "uEirequest2"]
           ltac:(discriminate) ltac:(repeat constructor)).
Defined.

Section MoreExamples.

Import GoErr.

Lemma cid_version_supported_witness :
  ipfs.CIDVersion {| ipfs.CIDVersion := 1 |} = 0 \/
  ipfs.CIDVersion {| ipfs.CIDVersion := 1 |} = 1.
Proof.
  apply (proj1 (cid_version_supported ipfs.emptyClient "ucontent")
           {| ipfs.CIDVersion := 1 |}).
  reflexivity.
Defined.

Lemma did_parts_witness :
  processdid.getDidParts ("did:orb:uAAA" +:+ ":" +:+ "EiDsuffix")
  = OK ("did:orb:uAAA", "EiDsuffix").
Proof.
  apply (proj1 (proj2 (did_parts "did:orb:uAAA:EiDsuffix"))).
  cbn [list_ascii_of_string].
  rewrite !not_elem_of_cons. repeat split; try discriminate.
  apply not_elem_of_nil.
Defined.

Lemma like_after_index_witness :
  exists r w' pre post,
    observer.processAnchor (observer.Recorded (observer.exampleProviders false)) ""
      observer.exampleAnchor tt [] (tt, [])
    = (r, (w', pre ++ post)) /\
    Forall (fun ev => observer.isLikeCall (fst ev) = false) pre /\
    Forall (fun ev => observer.isLikeCall (fst ev) = true) post /\
    (post <> [] ->
     exists txn acSuffixes,
       (observer.CallProcess txn [], OK observer.VDone) ∈ pre /\
       (observer.CallPutBulk acSuffixes (observer.Hashlink observer.exampleAnchor),
        OK observer.VDone) ∈ pre) /\
    (forall e, r = Err e -> post = []).
Proof.
  apply (like_after_index (observer.exampleProviders false) ""
           observer.exampleAnchor tt [] tt).
Defined.

End MoreExamples.
